(** * Circuit-switched routing simulation (routing.cpp)

    A shallow embedding of the simulator: the global tables, the call
    events, the recovery of finished calls ([timeUpdate]), the edge-cost
    updates, the Dijkstra search with reservation ([updateState]), the hop
    count of the SHPO policy ([emptySHPO]) and the five policy loops of
    [main] with their statistics.

    Conventions of the embedding.
    - Node numbers are [nat]; a [float m[26][26]] or [int m[26][26]] table is
      a function of two node numbers.  The loops of the program range over
      the 26 rows and columns, [nodes].
    - [capacity], [availCap] and [propDelay] are [float] tables that only
      ever hold whole numbers (they are read as [int] from the topology
      file and changed by [--] and [+= int]); they are modelled in [Z], as
      are the [double] counters.  A [float] holds whole numbers exactly up
      to 2^24 only, and rounds beyond; a [double] up to 2^53.  The model is
      the program on cells within these bounds, and a theorem that states
      the value of a sum or a difference of cells assumes them
      ([float_range]).  [int] overflow is not modelled.
    - The [cost] table holds fractions under LLP and MFC; it is modelled in
      [Q].  [int alt = dist[u] + edgeCost[u][j]] truncates towards zero; the
      program rounds the sum to [float] first, which is the sum itself for
      the whole-number costs of SHPF and SDPF ([whole_costs]).  A theorem
      on the path the search prefers assumes such costs, or a bound on the
      capacities that keeps the rounding away from the next whole number.
    - Times are [double] in the program and only compared with [<=] (and
      added once, in the constructor); they are modelled in [Q].
    - [eventQueue] is a [list]; [eventQueue.at(i)] is list lookup. *)

From Stdlib Require Import ZArith QArith List Lia Bool.
From stdpp Require Import base list.

Local Open Scope Z_scope.

(** ** Tables *)

Definition imatrix := nat -> nat -> Z.
Definition fmatrix := nat -> nat -> Q.

Definition zeros : imatrix := fun _ _ => 0.
Definition fzeros : fmatrix := fun _ _ => 0%Q.

(** [m[i][j] = v] *)
Definition mset {A : Type} (m : nat -> nat -> A) (i j : nat) (v : A)
  : nat -> nat -> A :=
  fun a b => if (a =? i)%nat && (b =? j)%nat then v else m a b.

(** [a[i] = v] *)
Definition aset {A : Type} (a : nat -> A) (i : nat) (v : A) : nat -> A :=
  fun k => if (k =? i)%nat then v else a k.

Definition nodes : list nat := seq 0 26.

(** [for (int i = 0; i < 26; i++) body] *)
Definition for_nodes {S : Type} (body : nat -> S -> S) (s : S) : S :=
  fold_left (fun acc i => body i acc) nodes s.

(** [for (int j = 0; j < n; j++) body] *)
Definition for_upto {S : Type} (n : nat) (body : nat -> S -> S) (s : S) : S :=
  fold_left (fun acc i => body i acc) (seq 0 n) s.

(** Conversion of a [float] to [int]: the fraction is dropped. *)
Definition Qtrunc (q : Q) : Z := Z.quot (Qnum q) (Z.pos (Qden q)).

(** ** Call events *)

Record CallEvent := mkCallEvent {
  startTime : Q;
  duration : Q;
  endTime : Q;
  source : nat;
  destination : nat;
  running : bool;
  resources : imatrix
}.

(** The constructor [CallEvent(s, d, sr, dst)]. *)
Definition newCallEvent (s d : Q) (sr dst : nat) : CallEvent :=
  mkCallEvent s d (s + d)%Q sr dst false zeros.

Definition set_running (b : bool) (e : CallEvent) : CallEvent :=
  mkCallEvent (startTime e) (duration e) (endTime e) (source e)
              (destination e) b (resources e).

Definition set_resources (r : imatrix) (e : CallEvent) : CallEvent :=
  mkCallEvent (startTime e) (duration e) (endTime e) (source e)
              (destination e) (running e) r.

(** [CallEvent::reset]: the flag is cleared and every cell of the
    reservation table is zeroed. *)
Definition reset (e : CallEvent) : CallEvent :=
  set_resources zeros (set_running false e).

(** ** Global state *)

(** The tables written only while the topology file is read. *)
Record Topology := mkTopology {
  propDelay : imatrix;
  capacity : imatrix
}.

(** The globals that change during a run.  [totalCalls] is the length of
    [eventQueue]. *)
Record State := mkState {
  availCap : imatrix;
  cost : fmatrix;
  eventQueue : list CallEvent;
  blockedCalls : Z;
  succCalls : Z;
  totalHops : Z;
  totalProp : Z
}.

Definition set_availCap (a : imatrix) (s : State) : State :=
  mkState a (cost s) (eventQueue s) (blockedCalls s) (succCalls s)
          (totalHops s) (totalProp s).

Definition set_cost (c : fmatrix) (s : State) : State :=
  mkState (availCap s) c (eventQueue s) (blockedCalls s) (succCalls s)
          (totalHops s) (totalProp s).

Definition set_eventQueue (q : list CallEvent) (s : State) : State :=
  mkState (availCap s) (cost s) q (blockedCalls s) (succCalls s)
          (totalHops s) (totalProp s).

Definition set_blockedCalls (n : Z) (s : State) : State :=
  mkState (availCap s) (cost s) (eventQueue s) n (succCalls s)
          (totalHops s) (totalProp s).

Definition set_succCalls (n : Z) (s : State) : State :=
  mkState (availCap s) (cost s) (eventQueue s) (blockedCalls s) n
          (totalHops s) (totalProp s).

Definition set_totals (h p : Z) (s : State) : State :=
  mkState (availCap s) (cost s) (eventQueue s) (blockedCalls s) (succCalls s)
          h p.

(** [eventQueue.at(j).f(...)]: an update of one event in place. *)
Definition on_event (j : nat) (f : CallEvent -> CallEvent) (s : State) : State :=
  set_eventQueue (alter f j (eventQueue s)) s.

(** [clearValues]: counters to zero, [availCap] copied from [capacity]
    ([memcpy] of 26*26 cells of the size of an [int], which is the size of a
    [float]), every event reset, [cost] zeroed. *)
Definition clearValues (T : Topology) (s : State) : State :=
  mkState (capacity T) fzeros (map reset (eventQueue s)) 0 0 0 0.

(** ** Recovery of finished calls *)

(** The body of the two inner loops of [timeUpdate], for event [j] and the
    cell [k], [m]. *)
Definition release_cell (j k m : nat) (s : State) : State :=
  match eventQueue s !! j with
  | Some e =>
      if 0 <? resources e k m then
        let v := availCap s m k + resources e k m in
        let s1 := set_availCap (mset (mset (availCap s) m k v) k m v) s in
        on_event j
          (fun e' => set_resources (mset (mset (resources e') m k 0) k m 0) e')
          s1
      else s
  | None => s
  end.

Definition release (j : nat) (s : State) : State :=
  for_nodes (fun k => for_nodes (fun m => release_cell j k m)) s.

(** The body of the outer loop of [timeUpdate]. *)
Definition expire (currentIndex j : nat) (s : State) : State :=
  match eventQueue s !! j, eventQueue s !! currentIndex with
  | Some ej, Some ec =>
      if running ej && Qle_bool (endTime ej) (startTime ec)
      then release j (on_event j (set_running false) s)
      else s
  | _, _ => s
  end.

Definition timeUpdate (currentIndex : nat) (s : State) : State :=
  for_upto currentIndex (expire currentIndex) s.

(** ** Edge costs *)

Definition updateSHPF (s : State) : State :=
  for_nodes (fun k => for_nodes (fun m s' =>
    if 0 <? availCap s' k m
    then set_cost (mset (mset (cost s') k m 1%Q) m k 1%Q) s'
    else set_cost (mset (mset (cost s') k m 0%Q) m k 0%Q) s')) s.

(** For a cell of capacity 0 the program divides by zero and stores NaN;
    [Q] gives such a cell another value.  The search reads [cost] only where
    the table that decides the links is positive, and a cell of capacity 0
    never is. *)
Definition updateLLP (T : Topology) (s : State) : State :=
  for_nodes (fun k => for_nodes (fun m s' =>
    set_cost (mset (cost s') k m
      (1 - inject_Z (availCap s' k m) / inject_Z (capacity T k m))%Q) s')) s.

Definition updateMFC (T : Topology) (s : State) : State :=
  for_nodes (fun k => for_nodes (fun m s' =>
    set_cost (mset (cost s') k m
      (inject_Z (availCap s' k m) / inject_Z (capacity T k m))%Q) s')) s.

(** ** Dijkstra search *)

Definition minDistVertexInQueue (dist queue : nat -> Z) : nat :=
  snd (for_nodes (fun i (acc : Z * nat) =>
         if (queue i =? 1) && (dist i <? fst acc) then (dist i, i) else acc)
       (999, 50%nat)).

(** The locals of the search. *)
Record Search := mkSearch {
  queue : nat -> Z;
  size : nat;
  previousVertex : nat -> Z;
  dist : nat -> Z;
  foundFlag : Z
}.

(** The vertices that exist in this run: rows of [cap] with a positive
    cell. *)
Definition init_queue (cap : imatrix) : (nat -> Z) * nat :=
  for_nodes (fun i => for_nodes (fun j (acc : (nat -> Z) * nat) =>
    if 0 <? cap i j then
      if fst acc i =? 0 then (aset (fst acc) i 1, S (snd acc)) else acc
    else acc)) (fun _ => 0, O).

Definition init_search (cap : imatrix) (source : nat) : Search :=
  let qs := init_queue cap in
  mkSearch (fst qs) (snd qs) (fun _ => -1) (aset (fun _ => 999) source 0) 0.

(** The body of the loop over the neighbours [j] of [u]. *)
Definition relax_one (adj : imatrix) (edgeCost : fmatrix) (u j : nat)
    (st : Search) : Search :=
  if 0 <? queue st j then
    if 0 <? adj u j then
      let alt := Qtrunc (inject_Z (dist st u) + edgeCost u j) in
      if alt <? dist st j then
        mkSearch (queue st) (size st) (aset (previousVertex st) j (Z.of_nat u))
                 (aset (dist st) j alt) (foundFlag st)
      else st
    else st
  else st.

Definition relax (adj : imatrix) (edgeCost : fmatrix) (u : nat) (st : Search)
  : Search :=
  for_nodes (relax_one adj edgeCost u) st.

(** [while (size > 0)]: [n] is the value of [size]; every turn of the loop that
    does not leave it decreases [size] by one. *)
Fixpoint search_loop (n : nat) (adj : imatrix) (edgeCost : fmatrix)
    (destination : nat) (st : Search) : Search :=
  match n with
  | O => st
  | S n' =>
      let u := minDistVertexInQueue (dist st) (queue st) in
      if (27 <? u)%nat then st
      else
        let st1 := mkSearch (aset (queue st) u 0) (size st) (previousVertex st)
                            (dist st) (foundFlag st) in
        if (u =? destination)%nat then
          mkSearch (queue st1) (size st1) (previousVertex st1) (dist st1) 1
        else
          search_loop n' adj edgeCost destination
            (relax adj edgeCost u
               (mkSearch (queue st1) n' (previousVertex st1) (dist st1)
                         (foundFlag st1)))
  end.

(** The search of [updateState] and [emptySHPO]: [cap] decides which
    vertices are queued, [adj] which links may be followed. *)
Definition dijkstra (cap adj : imatrix) (edgeCost : fmatrix)
    (source destination : nat) : Search :=
  let st := init_search cap source in
  search_loop (size st) adj edgeCost destination st.

(** One turn of the loop that walks back from the destination and reserves
    a circuit on every link. *)
Definition reserve_link (T : Topology) (current curr p : nat) (s : State)
  : State :=
  let v := availCap s p curr - 1 in
  let s1 := set_availCap (mset (mset (availCap s) p curr v) curr p v) s in
  let s2 := on_event current (fun e =>
              let r := resources e p curr + 1 in
              set_resources (mset (mset (resources e) p curr r) curr p r) e) s1 in
  set_totals (totalHops s2 + 1) (totalProp s2 + propDelay T curr p) s2.

(** [while (previousVertex[curr] > -1)]; the walk visits each vertex at most
    once, so [fuel] = 26 turns are enough (see [reserve_fuel]). *)
Fixpoint reserve (fuel : nat) (T : Topology) (prev : nat -> Z)
    (current curr : nat) (s : State) : State :=
  match fuel with
  | O => s
  | S fuel' =>
      if -1 <? prev curr then
        let p := Z.to_nat (prev curr) in
        reserve fuel' T prev current p (reserve_link T current curr p s)
      else s
  end.

Definition updateState (T : Topology) (source destination : nat)
    (edgeCost : fmatrix) (current : nat) (s : State) : bool * State :=
  let st := dijkstra (availCap s) (availCap s) edgeCost source destination in
  if negb (foundFlag st =? 1) then (false, s)
  else (true, reserve 26 T (previousVertex st) current destination s).

(** [while (previousVertex[curr] > -1) hopPath1++]. *)
Fixpoint count_hops (fuel : nat) (prev : nat -> Z) (curr : nat) (hops : Z) : Z :=
  match fuel with
  | O => hops
  | S fuel' =>
      if -1 <? prev curr
      then count_hops fuel' prev (Z.to_nat (prev curr)) (hops + 1)
      else hops
  end.

(** [emptySHPO]: the queue is always built from [capacity]; [capZero] is the
    table that decides which links may be followed. *)
Definition emptySHPO (T : Topology) (source destination : nat)
    (edgeCost : fmatrix) (capZero : imatrix) : Z :=
  let st := dijkstra (capacity T) capZero edgeCost source destination in
  if negb (foundFlag st =? 1) then 999
  else count_hops 26 (previousVertex st) destination 0.

(** ** The policy loops of [main] *)

Inductive Policy := SHPF | SDPF | LLP | MFC | SHPO.

(** "update edge costs": SDPF has no such step, SHPO uses [updateSHPF]. *)
Definition update_costs (p : Policy) (T : Topology) (s : State) : State :=
  match p with
  | SHPF | SHPO => updateSHPF s
  | SDPF => s
  | LLP => updateLLP T s
  | MFC => updateMFC T s
  end.

(** The table handed to [updateState] as [edgeCost]. *)
Definition edge_costs (p : Policy) (T : Topology) (s : State) : fmatrix :=
  match p with
  | SDPF => fun a b => inject_Z (propDelay T a b)
  | _ => cost s
  end.

(** "load in current event": the flag is set and the costs are updated. *)
Definition prepare (p : Policy) (T : Topology) (i : nat) (s : State) : State :=
  update_costs p T (on_event i (set_running true) s).

(** "no path available" *)
Definition block (i : nat) (s : State) : State :=
  on_event i (set_running false) (set_blockedCalls (blockedCalls s + 1) s).

(** "path available" *)
Definition succeed (s : State) : State :=
  set_succCalls (succCalls s + 1) s.

(** The admission decision for event [i]. *)
Definition route (p : Policy) (T : Topology) (i : nat) (s : State) : State :=
  match eventQueue s !! i with
  | Some e =>
      let src := source e in
      let dst := destination e in
      match p with
      | SHPO =>
          if emptySHPO T src dst (cost s) (availCap s)
             >? emptySHPO T src dst (cost s) (capacity T)
          then block i s
          else succeed (snd (updateState T src dst (cost s) i s))
      | _ =>
          let r := updateState T src dst (edge_costs p T s) i s in
          if negb (fst r) then block i (snd r) else succeed (snd r)
      end
  | None => s
  end.

(** One turn of the event loop, for [i < eventQueue.size()]. *)
Definition process (p : Policy) (T : Topology) (i : nat) (s : State) : State :=
  route p T i (prepare p T i (timeUpdate i s)).

Definition run (p : Policy) (T : Topology) (s : State) : State :=
  for_upto (length (eventQueue s)) (process p T) s.

(** The states a run passes through: for every event, the state after the
    recovery of finished calls, after the cost update, and after the
    admission decision. *)
Fixpoint run_trace (p : Policy) (T : Topology) (idx : list nat) (s : State)
  : list State :=
  match idx with
  | [] => []
  | i :: idx' =>
      let s1 := timeUpdate i s in
      let s2 := prepare p T i s1 in
      let s3 := route p T i s2 in
      s1 :: s2 :: s3 :: run_trace p T idx' s3
  end.

(** ** Statistics *)

(** The value of a [double] division: a number, an infinity or NaN. *)
Inductive dval := DFin (q : Q) | DInf (negative : bool) | DNaN.

(** [a / b] for two [double]s that hold whole numbers. *)
Definition ddiv (a b : Z) : dval :=
  if b =? 0 then (if a =? 0 then DNaN else DInf (a <? 0))
  else DFin (inject_Z a / inject_Z b).

(** [x * 100] *)
Definition dmul100 (x : dval) : dval :=
  match x with
  | DFin q => DFin (q * 100)
  | DInf n => DInf n
  | DNaN => DNaN
  end.

Record Stats := mkStats {
  totalCalls : Z;
  succ : Z;
  succPercent : dval;
  blocked : Z;
  blockedPercent : dval;
  avgHop : dval;
  avgProp : dval
}.

(** "calculate and print statistics" *)
Definition statistics (s : State) : Stats :=
  let total := Z.of_nat (length (eventQueue s)) in
  mkStats total (succCalls s)
          (dmul100 (ddiv (succCalls s) total))
          (blockedCalls s)
          (dmul100 (ddiv (blockedCalls s) total))
          (ddiv (totalHops s) (succCalls s))
          (ddiv (totalProp s) (succCalls s)).

(** ** Input files and [main] *)

(** A line of topology.dat: the two nodes (letter minus 65), the
    propagation delay and the capacity. *)
Definition Link : Type := nat * nat * Z * Z.

(** A line of callworkload.dat: arrival time, source, destination,
    duration. *)
Definition Call : Type := Q * nat * nat * Q.

Definition load_link (l : Link) (acc : Topology * imatrix) : Topology * imatrix :=
  let '(src, dest, c, d) := l in
  let '(T, avail) := acc in
  (mkTopology (mset (mset (propDelay T) dest src c) src dest c)
              (mset (mset (capacity T) dest src d) src dest d),
   mset (mset avail dest src d) src dest d).

Definition load_topology (links : list Link) : Topology * imatrix :=
  fold_left (fun acc l => load_link l acc) links (mkTopology zeros zeros, zeros).

Definition load_calls (calls : list Call) : list CallEvent :=
  map (fun c : Call => let '(a, b, c', d) := c in newCallEvent a d b c') calls.

Definition topology_of (links : list Link) : Topology := fst (load_topology links).

(** The state when the first policy starts. *)
Definition initial (links : list Link) (calls : list Call) : State :=
  mkState (snd (load_topology links)) fzeros (load_calls calls) 0 0 0 0.

Definition policies : list Policy := [SHPF; SDPF; LLP; MFC; SHPO].

(** The policy blocks of [main], one after the other: run, statistics,
    [clearValues]. *)
Fixpoint main_from (T : Topology) (ps : list Policy) (s : State) : list Stats :=
  match ps with
  | [] => []
  | p :: ps' =>
      let s' := run p T s in
      statistics s' :: main_from T ps' (clearValues T s')
  end.

Definition main (links : list Link) (calls : list Call) : list Stats :=
  main_from (topology_of links) policies (initial links calls).

(** Every state [main] passes through, from the loaded topology on. *)
Fixpoint main_trace_from (T : Topology) (ps : list Policy) (s : State)
  : list State :=
  match ps with
  | [] => []
  | p :: ps' =>
      let tr := run_trace p T (seq 0 (length (eventQueue s))) s in
      let s' := List.last tr s in
      tr ++ clearValues T s' :: main_trace_from T ps' (clearValues T s')
  end.

Definition main_trace (links : list Link) (calls : list Call) : list State :=
  initial links calls
    :: main_trace_from (topology_of links) policies (initial links calls).

(** ** Nodes and inputs of the scenarios *)

(** Node numbers: the letter of the input files minus 65. *)
Definition A : nat := 0.
Definition B : nat := 1.
Definition C : nat := 2.
Definition D : nat := 3.
Definition E : nat := 4.
Definition F : nat := 5.
Definition G : nat := 6.

Definition one_link : list Link := [(A, B, 5, 2)].
Definition two_calls : list Call := [(0, A, B, 10); (1, A, B, 10)]%Q.
Definition three_calls : list Call :=
  [(0, A, B, 10); (1, A, B, 10); (2, A, B, 10)]%Q.

Definition row (st : Stats) :=
  (totalCalls st, succ st, blocked st, avgHop st, avgProp st).

(** ** The [float] cells beyond 2^24 *)

(** The whole number a [float] cell holds after the whole number [z] is
    stored in it: the 24 leading bits of [z], rounded to the nearest, a tie
    to the even one.  ([z] is a sum or a difference of an [int] and a cell
    that held one, far below the largest [float].) *)
Definition float_cell (z : Z) : Z :=
  let a := Z.abs z in
  let e := Z.log2 a - 23 in
  if e <=? 0 then z
  else
    let q := Z.shiftr a e in
    let r := a - Z.shiftl q e in
    let half := Z.shiftl 1 (e - 1) in
    let q' := if r <? half then q
              else if half <? r then q + 1
              else if Z.even q then q else q + 1 in
    Z.sgn z * Z.shiftl q' e.

(** [reserve_link] with the rounding of [--availCap[previousVertex[curr]][curr]]
    (line 582). *)
Definition reserve_link_float (T : Topology) (current curr p : nat)
    (s : State) : State :=
  let v := float_cell (availCap s p curr - 1) in
  let s1 := set_availCap (mset (mset (availCap s) p curr v) curr p v) s in
  let s2 := on_event current (fun e =>
              let r := resources e p curr + 1 in
              set_resources (mset (mset (resources e) p curr r) curr p r) e) s1 in
  set_totals (totalHops s2 + 1) (totalProp s2 + propDelay T curr p) s2.

(** [release_cell] with the rounding of
    [availCap[m][k] += eventQueue.at(j).resources[k][m]] (lines 237-238). *)
Definition release_cell_float (j k m : nat) (s : State) : State :=
  match eventQueue s !! j with
  | Some e =>
      if 0 <? resources e k m then
        let v := float_cell (availCap s m k + resources e k m) in
        let s1 := set_availCap (mset (mset (availCap s) m k v) k m v) s in
        on_event j
          (fun e' => set_resources (mset (mset (resources e') m k 0) k m 0) e')
          s1
      else s
  | None => s
  end.

(** A link of 2^24 + 2 circuits, a number a [float] holds, and two calls
    on it. *)
Definition wide_link : list Link := [(A, B, 1, 16777218)].
Definition wide_calls : list Call := [(0, A, B, 1); (5, A, B, 1)]%Q.

(** * Properties *)

#[global] Arguments for_nodes : simpl never.
#[global] Arguments for_upto : simpl never.
#[global] Arguments dijkstra : simpl never.
#[global] Arguments timeUpdate : simpl never.
#[global] Arguments release : simpl never.
#[global] Arguments updateState : simpl never.
#[global] Arguments emptySHPO : simpl never.
#[global] Arguments update_costs : simpl never.
#[global] Arguments load_topology : simpl never.
#[global] Arguments init_queue : simpl never.
#[global] Arguments minDistVertexInQueue : simpl never.
#[global] Arguments relax : simpl never.

(** ** The range in which the cells are exact *)

(** 2^24: a [float] cell holds every whole number up to it, in absolute
    value, and so every sum and difference of two such numbers that stays
    below it. *)
Definition float_whole : Z := 16777216.

(** 2^52: a [double] counter up to it is increased exactly by any whole
    number a [float] holds. *)
Definition double_whole : Z := 4503599627370496.

(** The tables and counters are within the range in which [--], [+=] and
    [++] on them are exact. *)
Record float_range (T : Topology) (s : State) : Prop := mk_float_range {
  fr_avail : forall u v, 0 <= availCap s u v <= float_whole;
  fr_capacity : forall u v, capacity T u v <= float_whole;
  fr_delay : forall u v, Z.abs (propDelay T u v) <= float_whole;
  fr_blocked : Z.abs (blockedCalls s) <= double_whole;
  fr_succ : Z.abs (succCalls s) <= double_whole;
  fr_hops : Z.abs (totalHops s) <= double_whole;
  fr_prop : Z.abs (totalProp s) <= double_whole
}.

(** The costs of the links that may be followed are whole numbers between
    0 and 2^23: [dist[u] + edgeCost[u][j]], with [dist[u]] below 999, is
    then below 2^24, the [float] sum is exact and the conversion to [int]
    does not overflow. *)
Definition whole_costs (adj : imatrix) (edgeCost : fmatrix) : Prop :=
  forall u v, (u < 26)%nat -> (v < 26)%nat -> 0 < adj u v ->
    exists w, edgeCost u v = inject_Z w /\ 0 <= w <= 8388608.

(** The costs of the links that may be followed lie between 0 and 1: the
    distances stay below 26, and [alt] is [dist[u]] or [dist[u] + 1]. *)
Definition unit_costs (adj : imatrix) (edgeCost : fmatrix) : Prop :=
  forall u v, (u < 26)%nat -> (v < 26)%nat -> 0 < adj u v ->
    (0 <= edgeCost u v)%Q /\ (edgeCost u v <= 1)%Q.

(** Up to 2^24 the cell holds the number stored in it, and the rounded
    updates are the updates of the model. *)
Lemma float_cell_exact (z : Z) : Z.abs z <= float_whole -> float_cell z = z.
Proof.
  unfold float_whole, float_cell. intros Hz.
  destruct (Z.eq_dec (Z.abs z) 16777216) as [He|Hne].
  - rewrite He.
    destruct (Z.abs_spec z) as [[_ Ha]|[_ Ha]]; rewrite He in Ha.
    + subst z. reflexivity.
    + replace z with (-16777216) by lia. reflexivity.
  - assert (Hl : Z.log2 (Z.abs z) < 24).
    { destruct (Z.eq_dec (Z.abs z) 0) as [H0|H0].
      - rewrite H0. cbn. lia.
      - apply Z.log2_lt_pow2; [lia|]. change (2 ^ 24) with 16777216. lia. }
    destruct (Z.leb_spec (Z.log2 (Z.abs z) - 23) 0); [reflexivity|lia].
Qed.

Lemma reserve_link_float_exact (T : Topology) (current curr p : nat)
    (s : State) :
  0 <= availCap s p curr <= float_whole ->
  reserve_link_float T current curr p s = reserve_link T current curr p s.
Proof.
  intros H. unfold reserve_link_float, reserve_link.
  rewrite float_cell_exact; [reflexivity|]. unfold float_whole in *. lia.
Qed.

Lemma release_cell_float_exact (j k m : nat) (s : State) (e : CallEvent) :
  eventQueue s !! j = Some e ->
  0 <= availCap s m k -> 0 <= resources e k m ->
  availCap s m k + resources e k m <= float_whole ->
  release_cell_float j k m s = release_cell j k m s.
Proof.
  intros He Ha Hr Hs. unfold release_cell_float, release_cell. rewrite He.
  rewrite float_cell_exact; [reflexivity|]. unfold float_whole in *. lia.
Qed.

Lemma whole_costs_nonneg (adj : imatrix) (edgeCost : fmatrix) :
  whole_costs adj edgeCost ->
  forall u v, (u < 26)%nat -> (v < 26)%nat -> 0 < adj u v ->
    (0 <= edgeCost u v)%Q.
Proof.
  intros H u v Hu Hv Huv. destruct (H u v Hu Hv Huv) as (w & -> & Hw & _).
  change 0%Q with (inject_Z 0). now rewrite <- Zle_Qle.
Qed.

(** ** Loops *)

Section Loops.
Context {S : Type}.

Lemma fold_seq_ind (P : S -> Prop) (body : nat -> S -> S) (a n : nat) (s : S) :
  (forall i s', (a <= i < a + n)%nat -> P s' -> P (body i s')) ->
  P s -> P (fold_left (fun acc i => body i acc) (seq a n) s).
Proof.
  revert a s. induction n as [|n IH]; intros a s Hstep Hs; simpl; [exact Hs|].
  apply IH.
  - intros i s' Hi. apply Hstep. lia.
  - apply Hstep; [lia | exact Hs].
Qed.

(** What turn [i] establishes, and no turn destroys, holds at the end. *)
Lemma fold_seq_each (Q : nat -> S -> Prop) (body : nat -> S -> S)
    (a n : nat) (s : S) :
  (forall i s', (a <= i < a + n)%nat -> Q i (body i s')) ->
  (forall i i' s', Q i s' -> Q i (body i' s')) ->
  forall i, (a <= i < a + n)%nat ->
    Q i (fold_left (fun acc i => body i acc) (seq a n) s).
Proof.
  intros Hest Hkeep. revert a s Hest.
  induction n as [|n IH]; intros a s Hest i Hi; simpl; [lia|].
  destruct (Nat.eq_dec i a) as [->|Hne].
  - apply (fold_seq_ind (Q a)); [intros; apply Hkeep; assumption|].
    apply Hest. lia.
  - apply IH; [|lia]. intros i' s' Hi'. apply Hest. lia.
Qed.

Lemma for_nodes_ind (P : S -> Prop) (body : nat -> S -> S) (s : S) :
  (forall i s', (i < 26)%nat -> P s' -> P (body i s')) ->
  P s -> P (for_nodes body s).
Proof.
  intros Hstep. apply fold_seq_ind. intros i s' Hi. apply Hstep. lia.
Qed.

Lemma for_nodes_each (Q : nat -> S -> Prop) (body : nat -> S -> S) (s : S) :
  (forall i s', (i < 26)%nat -> Q i (body i s')) ->
  (forall i i' s', Q i s' -> Q i (body i' s')) ->
  forall i, (i < 26)%nat -> Q i (for_nodes body s).
Proof.
  intros Hest Hkeep i Hi. apply (fold_seq_each Q); auto.
  - intros i' s' Hi'. apply Hest. lia.
  - lia.
Qed.

Lemma for_upto_ind (P : S -> Prop) (body : nat -> S -> S) (n : nat) (s : S) :
  (forall i s', (i < n)%nat -> P s' -> P (body i s')) ->
  P s -> P (for_upto n body s).
Proof.
  intros Hstep. apply fold_seq_ind. intros i s' Hi. apply Hstep. lia.
Qed.

Lemma for_upto_S (body : nat -> S -> S) (n : nat) (s : S) :
  for_upto (Datatypes.S n) body s = body n (for_upto n body s).
Proof.
  unfold for_upto. rewrite seq_S, fold_left_app. reflexivity.
Qed.
End Loops.

(** ** Tables and events *)

Ltac eqb_cases :=
  repeat match goal with
         | |- context [(?a =? ?b)%nat] => destruct (Nat.eqb_spec a b); subst
         end; simpl.

Lemma mset_eq {A : Type} (m : nat -> nat -> A) i j v : mset m i j v i j = v.
Proof. unfold mset. now rewrite !Nat.eqb_refl. Qed.

Lemma mset_pair_sym (m : imatrix) (i j : nat) (v : Z) :
  (forall u w, m u w = m w u) ->
  forall u w, mset (mset m i j v) j i v u w = mset (mset m i j v) j i v w u.
Proof. intros Hm u w. unfold mset. eqb_cases; auto; congruence. Qed.

(** The parsed fields of an event. *)
Definition static (e : CallEvent) : Q * Q * Q * nat * nat :=
  (startTime e, duration e, endTime e, source e, destination e).

Definition statics (s : State) : list (Q * Q * Q * nat * nat) :=
  map static (eventQueue s).

(** The circuits of the link [u], [v] held by the events of [q]. *)
Definition reserved (q : list CallEvent) (u v : nat) : Z :=
  fold_right (fun e acc => resources e u v + acc) 0 q.

Lemma reserved_alter (f : CallEvent -> CallEvent) (q : list CallEvent)
    (j : nat) (e : CallEvent) (u v : nat) :
  q !! j = Some e ->
  reserved (alter f j q) u v
  = reserved q u v - resources e u v + resources (f e) u v.
Proof.
  revert j. induction q as [|x q IH]; intros [|j] Hj; try discriminate.
  - injection Hj as ->. simpl. lia.
  - specialize (IH j Hj). change (alter f (S j) (x :: q)) with (x :: alter f j q).
    simpl. lia.
Qed.

Lemma map_alter_same {X : Type} (g : CallEvent -> X)
    (f : CallEvent -> CallEvent) (q : list CallEvent) (j : nat) :
  (forall e, g (f e) = g e) -> map g (alter f j q) = map g q.
Proof.
  intros Hg. revert j. induction q as [|x q IH]; intros [|j]; simpl; auto.
  - now rewrite Hg.
  - f_equal. apply IH.
Qed.

Lemma reserved_same_resources (q q' : list CallEvent) (u v : nat) :
  map resources q' = map resources q -> reserved q' u v = reserved q u v.
Proof.
  revert q'. induction q as [|x q IH]; intros [|x' q'] H; simpl in *;
    try discriminate; auto.
  injection H as Hx Hq. rewrite Hx, (IH _ Hq). reflexivity.
Qed.

(** ** Well-formed states *)

Definition sym_avail (s : State) : Prop :=
  forall u v, availCap s u v = availCap s v u.

Definition sym_res (e : CallEvent) : Prop :=
  forall u v, resources e u v = resources e v u.

Definition nonneg_res (e : CallEvent) : Prop :=
  forall u v, 0 <= resources e u v.

Definition symmetric (s : State) : Prop :=
  sym_avail s /\ Forall sym_res (eventQueue s).

Definition conserved (T : Topology) (s : State) : Prop :=
  forall u v, availCap s u v + reserved (eventQueue s) u v = capacity T u v.

Record wf (T : Topology) (s : State) : Prop := mk_wf {
  wf_sym : symmetric s;
  wf_nonneg : Forall nonneg_res (eventQueue s);
  wf_conserved : conserved T s
}.

(** A step that leaves the tables and the reservations alone. *)
Definition same_tables (s s' : State) : Prop :=
  availCap s' = availCap s /\
  map resources (eventQueue s') = map resources (eventQueue s).

Lemma Forall_via_map {X : Type} (g : CallEvent -> X) (P : X -> Prop)
    (q q' : list CallEvent) :
  map g q' = map g q -> Forall (fun e => P (g e)) q -> Forall (fun e => P (g e)) q'.
Proof.
  intros Hm Hq. apply Forall_map. rewrite Hm. apply Forall_map. exact Hq.
Qed.

Lemma wf_same_tables (T : Topology) (s s' : State) :
  same_tables s s' -> wf T s -> wf T s'.
Proof.
  intros [Ha Hr] [[Hsa Hsr] Hn Hc]. split; [split|..].
  - intros u v. rewrite Ha. apply Hsa.
  - revert Hsr. apply (Forall_via_map resources
      (fun r => forall u v, r u v = r v u)). exact Hr.
  - revert Hn. apply (Forall_via_map resources
      (fun r => forall u v, 0 <= r u v)). exact Hr.
  - intros u v. rewrite Ha, (reserved_same_resources _ _ u v Hr). apply Hc.
Qed.

Lemma same_tables_refl (s : State) : same_tables s s.
Proof. split; reflexivity. Qed.

Lemma same_tables_flag (j : nat) (b : bool) (s : State) :
  same_tables s (on_event j (set_running b) s).
Proof.
  split; [reflexivity|]. simpl. apply map_alter_same. reflexivity.
Qed.

(** ** Recovery keeps the state well formed *)

Lemma release_cell_wf (T : Topology) (j k m : nat) (s : State) :
  wf T s -> wf T (release_cell j k m s).
Proof.
  unfold release_cell. destruct (eventQueue s !! j) as [e|] eqn:Hj; auto.
  destruct (0 <? resources e k m) eqn:Hpos; auto.
  intros [[Hsa Hsr] Hn Hc].
  pose proof (Forall_lookup_1 _ _ _ _ Hsr Hj) as Hse.
  split; [split|..].
  - intros u v. simpl. apply mset_pair_sym. intros a b. apply Hsa.
  - simpl. apply Forall_alter; auto. intros x _ Hx u v. simpl.
    apply mset_pair_sym. exact Hx.
  - simpl. apply Forall_alter; auto. intros x _ Hx u v. simpl.
    pose proof (Hx u v). unfold mset. eqb_cases; lia.
  - intros u v. simpl. rewrite (reserved_alter _ _ _ _ _ _ Hj). simpl.
    pose proof (Hc u v). pose proof (Hsa m k). pose proof (Hse k m).
    pose proof (Hsa u v). pose proof (Hse u v).
    unfold mset. eqb_cases; lia.
Qed.

Lemma release_wf (T : Topology) (j : nat) (s : State) :
  wf T s -> wf T (release j s).
Proof.
  unfold release. apply for_nodes_ind. intros k s1 _.
  apply for_nodes_ind. intros m s2 _. apply release_cell_wf.
Qed.

Lemma expire_wf (T : Topology) (i j : nat) (s : State) :
  wf T s -> wf T (expire i j s).
Proof.
  intros Hs. unfold expire.
  destruct (eventQueue s !! j) as [ej|]; auto.
  destruct (eventQueue s !! i) as [ec|]; auto.
  destruct (running ej && Qle_bool (endTime ej) (startTime ec)); auto.
  apply release_wf. revert Hs. apply wf_same_tables, same_tables_flag.
Qed.

Lemma timeUpdate_wf (T : Topology) (i : nat) (s : State) :
  wf T s -> wf T (timeUpdate i s).
Proof.
  unfold timeUpdate. apply for_upto_ind. intros j s' _. apply expire_wf.
Qed.

(** The parsed fields survive the recovery. *)

Lemma release_cell_statics (j k m : nat) (s : State) :
  statics (release_cell j k m s) = statics s.
Proof.
  unfold release_cell. destruct (eventQueue s !! j) as [e|]; auto.
  destruct (0 <? resources e k m); auto.
  unfold statics. simpl. apply map_alter_same. reflexivity.
Qed.

Lemma release_statics (j : nat) (s : State) : statics (release j s) = statics s.
Proof.
  unfold release.
  apply (for_nodes_ind (fun s' => statics s' = statics s)); [|reflexivity].
  intros k s1 _ H1.
  apply (for_nodes_ind (fun s' => statics s' = statics s)); [|exact H1].
  intros m s2 _ H2. now rewrite release_cell_statics.
Qed.

Lemma on_event_statics (j : nat) (f : CallEvent -> CallEvent) (s : State) :
  (forall e, static (f e) = static e) -> statics (on_event j f s) = statics s.
Proof. intros Hf. unfold statics. simpl. now apply map_alter_same. Qed.

Lemma expire_statics (i j : nat) (s : State) :
  statics (expire i j s) = statics s.
Proof.
  unfold expire.
  destruct (eventQueue s !! j) as [ej|]; auto.
  destruct (eventQueue s !! i) as [ec|]; auto.
  destruct (running ej && Qle_bool (endTime ej) (startTime ec)); auto.
  rewrite release_statics. now apply on_event_statics.
Qed.

Lemma timeUpdate_statics (i : nat) (s : State) :
  statics (timeUpdate i s) = statics s.
Proof.
  unfold timeUpdate.
  apply (for_upto_ind (fun s' => statics s' = statics s)); [|reflexivity].
  intros j s' _ H. now rewrite expire_statics.
Qed.

(** ** Reservation keeps the state well formed *)

Lemma reserve_link_wf (T : Topology) (current curr p : nat) (s : State) :
  is_Some (eventQueue s !! current) ->
  wf T s -> wf T (reserve_link T current curr p s).
Proof.
  intros [e He] [[Hsa Hsr] Hn Hc].
  pose proof (Forall_lookup_1 _ _ _ _ Hsr He) as Hse.
  unfold reserve_link. split; [split|..]; simpl.
  - intros u v. apply mset_pair_sym. intros a b. apply Hsa.
  - apply Forall_alter; auto. intros x _ Hx u v. simpl.
    apply mset_pair_sym. exact Hx.
  - apply Forall_alter; auto. intros x _ Hx u v. simpl.
    pose proof (Hx u v). pose proof (Hx p curr). unfold mset. eqb_cases; lia.
  - intros u v. simpl. rewrite (reserved_alter _ _ _ _ _ _ He). simpl.
    pose proof (Hc u v). pose proof (Hsa p curr). pose proof (Hse p curr).
    pose proof (Hsa u v). pose proof (Hse u v).
    unfold mset. eqb_cases; lia.
Qed.

Lemma reserve_link_lookup (T : Topology) (current curr p : nat) (s : State) :
  is_Some (eventQueue s !! current) ->
  is_Some (eventQueue (reserve_link T current curr p s) !! current).
Proof.
  intros [e He]. unfold reserve_link. simpl.
  rewrite list_lookup_alter_eq, He. simpl. eauto.
Qed.

Lemma reserve_wf (fuel : nat) (T : Topology) (prev : nat -> Z)
    (current curr : nat) (s : State) :
  is_Some (eventQueue s !! current) ->
  wf T s -> wf T (reserve fuel T prev current curr s).
Proof.
  revert curr s. induction fuel as [|fuel IH]; intros curr s He Hs; simpl; auto.
  destruct (-1 <? prev curr); auto.
  apply IH; [now apply reserve_link_lookup | now apply reserve_link_wf].
Qed.

Lemma reserve_statics (fuel : nat) (T : Topology) (prev : nat -> Z)
    (current curr : nat) (s : State) :
  statics (reserve fuel T prev current curr s) = statics s.
Proof.
  revert curr s. induction fuel as [|fuel IH]; intros curr s; simpl; auto.
  destruct (-1 <? prev curr); auto.
  rewrite IH. unfold reserve_link, statics. simpl.
  apply map_alter_same. reflexivity.
Qed.

Lemma updateState_wf (T : Topology) (src dst : nat) (edgeCost : fmatrix)
    (current : nat) (s : State) :
  is_Some (eventQueue s !! current) ->
  wf T s -> wf T (snd (updateState T src dst edgeCost current s)).
Proof.
  intros He Hs. unfold updateState.
  destruct (negb _); cbn [snd]; auto. now apply reserve_wf.
Qed.

Lemma updateState_statics (T : Topology) (src dst : nat) (edgeCost : fmatrix)
    (current : nat) (s : State) :
  statics (snd (updateState T src dst edgeCost current s)) = statics s.
Proof.
  unfold updateState. destruct (negb _); cbn [snd]; auto. apply reserve_statics.
Qed.

(** The path search changes nothing when it fails. *)
Lemma updateState_false (T : Topology) (src dst : nat) (edgeCost : fmatrix)
    (current : nat) (s : State) :
  fst (updateState T src dst edgeCost current s) = false ->
  snd (updateState T src dst edgeCost current s) = s.
Proof. unfold updateState. destruct (negb _); cbn [fst snd]; [auto|discriminate]. Qed.

(** ** The cost updates touch the [cost] table only *)

Definition same_but_cost (s s' : State) : Prop :=
  availCap s' = availCap s /\ eventQueue s' = eventQueue s /\
  blockedCalls s' = blockedCalls s /\ succCalls s' = succCalls s /\
  totalHops s' = totalHops s /\ totalProp s' = totalProp s.

Lemma same_but_cost_refl (s : State) : same_but_cost s s.
Proof. repeat split. Qed.

Lemma same_but_cost_set (s s' : State) (c : fmatrix) :
  same_but_cost s s' -> same_but_cost s (set_cost c s').
Proof. intros H. exact H. Qed.

Lemma update_costs_frame (p : Policy) (T : Topology) (s : State) :
  same_but_cost s (update_costs p T s).
Proof.
  destruct p; unfold update_costs; try apply same_but_cost_refl;
    unfold updateSHPF, updateLLP, updateMFC;
    (apply for_nodes_ind; [|apply same_but_cost_refl]; intros k s1 _ H1;
     apply for_nodes_ind; [|exact H1]; intros m s2 _ H2;
     try destruct (0 <? availCap s2 k m); now apply same_but_cost_set).
Qed.

Lemma prepare_same_tables (p : Policy) (T : Topology) (i : nat) (s : State) :
  same_tables s (prepare p T i s).
Proof.
  unfold prepare.
  destruct (update_costs_frame p T (on_event i (set_running true) s))
    as (Ha & Hq & _).
  split; [now rewrite Ha|]. rewrite Hq. apply same_tables_flag.
Qed.

Lemma prepare_statics (p : Policy) (T : Topology) (i : nat) (s : State) :
  statics (prepare p T i s) = statics s.
Proof.
  unfold prepare, statics.
  destruct (update_costs_frame p T (on_event i (set_running true) s))
    as (_ & Hq & _).
  rewrite Hq. simpl. apply map_alter_same. reflexivity.
Qed.

(** ** The admission decision *)

Lemma block_same_tables (i : nat) (s : State) : same_tables s (block i s).
Proof.
  unfold block. split; [reflexivity|]. simpl. apply map_alter_same. reflexivity.
Qed.

Lemma succeed_same_tables (s : State) : same_tables s (succeed s).
Proof. split; reflexivity. Qed.

Lemma route_wf (p : Policy) (T : Topology) (i : nat) (s : State) :
  wf T s -> wf T (route p T i s).
Proof.
  intros Hs. unfold route.
  destruct (eventQueue s !! i) as [e|] eqn:He; auto.
  assert (Hi : is_Some (eventQueue s !! i)) by eauto.
  pose proof (fun c => updateState_wf T (source e) (destination e) c i s Hi Hs)
    as Hu.
  destruct p;
    try (destruct (negb _);
         [eapply wf_same_tables; [apply block_same_tables|apply Hu]
         |eapply wf_same_tables; [apply succeed_same_tables|apply Hu]]).
  destruct (_ >? _).
  - eapply wf_same_tables; [apply block_same_tables|exact Hs].
  - eapply wf_same_tables; [apply succeed_same_tables|apply Hu].
Qed.

Lemma block_statics (i : nat) (s : State) : statics (block i s) = statics s.
Proof. unfold block, statics. simpl. apply map_alter_same. reflexivity. Qed.

Lemma succeed_statics (s : State) : statics (succeed s) = statics s.
Proof. reflexivity. Qed.

Lemma route_statics (p : Policy) (T : Topology) (i : nat) (s : State) :
  statics (route p T i s) = statics s.
Proof.
  unfold route. destruct (eventQueue s !! i) as [e|]; auto.
  destruct p;
    try (destruct (negb _); [rewrite block_statics|rewrite succeed_statics];
         apply updateState_statics).
  destruct (_ >? _); [apply block_statics|].
  rewrite succeed_statics. apply updateState_statics.
Qed.

(** ** Reset and topology load *)

Definition sym_cap (T : Topology) : Prop :=
  forall u v, capacity T u v = capacity T v u.

Lemma reserved_reset (q : list CallEvent) (u v : nat) :
  reserved (map reset q) u v = 0.
Proof. induction q as [|x q IH]; simpl; [reflexivity|]. rewrite IH. reflexivity. Qed.

Lemma clearValues_wf (T : Topology) (s : State) :
  sym_cap T -> wf T (clearValues T s).
Proof.
  intros HT. split; [split|..]; simpl.
  - exact HT.
  - apply Forall_map, Forall_forall. intros e _ u v. reflexivity.
  - apply Forall_map, Forall_forall. intros e _ u v. simpl. unfold zeros. lia.
  - intros u v. simpl. rewrite reserved_reset. lia.
Qed.

Lemma clearValues_statics (T : Topology) (s : State) :
  statics (clearValues T s) = statics s.
Proof.
  unfold statics. simpl. rewrite map_map. apply map_ext. reflexivity.
Qed.

Lemma load_topology_spec (links : list Link) :
  sym_cap (fst (load_topology links)) /\
  (forall u v, snd (load_topology links) u v
               = capacity (fst (load_topology links)) u v).
Proof.
  unfold load_topology.
  assert (H : forall acc : Topology * imatrix,
             sym_cap (fst acc) /\ (forall u v, snd acc u v = capacity (fst acc) u v) ->
             let r := fold_left (fun acc l => load_link l acc) links acc in
             sym_cap (fst r) /\ (forall u v, snd r u v = capacity (fst r) u v)).
  { induction links as [|[[[a b] c] d] links IH]; intros [T av] [Hs He]; simpl; auto.
    apply IH. simpl in *. split.
    - intros u v. apply mset_pair_sym. exact Hs.
    - intros u v. unfold mset. eqb_cases; auto. }
  apply H. simpl. split; intros u v; reflexivity.
Qed.

(** The loaded tables hold numbers of the topology file, or 0. *)
Lemma load_topology_bounds (links : list Link) (D C : Z) :
  0 <= D -> 0 <= C ->
  Forall (fun l : Link => 0 <= snd (fst l) <= D /\ snd l <= C) links ->
  forall u v,
    0 <= propDelay (fst (load_topology links)) u v <= D /\
    capacity (fst (load_topology links)) u v <= C.
Proof.
  intros HD HC. unfold load_topology.
  assert (H : forall acc : Topology * imatrix,
             (forall u v, 0 <= propDelay (fst acc) u v <= D /\
                          capacity (fst acc) u v <= C) ->
             Forall (fun l : Link => 0 <= snd (fst l) <= D /\ snd l <= C)
                    links ->
             forall u v,
               0 <= propDelay
                      (fst (fold_left (fun acc l => load_link l acc) links acc))
                      u v <= D /\
               capacity
                 (fst (fold_left (fun acc l => load_link l acc) links acc))
                 u v <= C).
  { induction links as [|[[[a b] c] d] links IH]; intros [T av] Hacc Hl;
      [exact Hacc|].
    apply Forall_cons in Hl. destruct Hl as [[Hc Hd] Hl]. cbn [fold_left].
    apply IH; [|exact Hl]. intros u v. cbn in *. pose proof (Hacc u v).
    unfold mset. eqb_cases; lia. }
  intros Hl. apply H; [|exact Hl]. intros u v. cbn. unfold zeros. lia.
Qed.

Lemma reserved_load_calls (calls : list Call) (u v : nat) :
  reserved (load_calls calls) u v = 0.
Proof.
  induction calls as [|[[[a b] c] d] calls IH]; [reflexivity|].
  change (reserved (newCallEvent a d b c :: load_calls calls) u v = 0).
  unfold reserved in *. cbn [fold_right]. rewrite IH. reflexivity.
Qed.

Lemma initial_wf (links : list Link) (calls : list Call) :
  wf (topology_of links) (initial links calls).
Proof.
  destruct (load_topology_spec links) as [Hs He].
  unfold topology_of, initial. split; [split|..]; cbn [availCap eventQueue].
  - intros u v. cbn [availCap]. rewrite !He. apply Hs.
  - apply Forall_map, Forall_forall. intros [[[a b] c] d] _ u v. reflexivity.
  - apply Forall_map, Forall_forall. intros [[[a b] c] d] _ u v. simpl.
    unfold zeros. lia.
  - intros u v. cbn [availCap eventQueue].
    rewrite reserved_load_calls, He. lia.
Qed.

(** ** Every state of [main] *)

(** Well formed, and the parsed fields are the ones of [st0]. *)
Definition Inv (T : Topology) (st0 : list (Q * Q * Q * nat * nat)) (s : State)
  : Prop :=
  wf T s /\ statics s = st0.

Lemma last_cons {X : Type} (a d : X) (l : list X) :
  List.last (a :: l) d = List.last l a.
Proof.
  revert a d. induction l as [|b l IH]; intros a d; [reflexivity|].
  change (List.last (a :: b :: l) d) with (List.last (b :: l) d).
  now rewrite !IH.
Qed.

Lemma run_trace_inv (p : Policy) (T : Topology) st0 (idx : list nat) (s : State) :
  Inv T st0 s ->
  Forall (Inv T st0) (run_trace p T idx s) /\
  Inv T st0 (List.last (run_trace p T idx s) s).
Proof.
  revert s. induction idx as [|i idx IH]; intros s Hs; [split; [constructor|exact Hs]|].
  destruct Hs as [Hw Hst].
  assert (H1 : Inv T st0 (timeUpdate i s)).
  { split; [now apply timeUpdate_wf | now rewrite timeUpdate_statics]. }
  assert (H2 : Inv T st0 (prepare p T i (timeUpdate i s))).
  { destruct H1 as [Hw1 Hst1]. split.
    - eapply wf_same_tables; [apply prepare_same_tables|exact Hw1].
    - now rewrite prepare_statics. }
  assert (H3 : Inv T st0 (route p T i (prepare p T i (timeUpdate i s)))).
  { destruct H2 as [Hw2 Hst2]. split;
      [now apply route_wf | now rewrite route_statics]. }
  destruct (IH _ H3) as [IHa IHb].
  cbn [run_trace]. split.
  - repeat (constructor; [assumption|]). exact IHa.
  - rewrite !last_cons. exact IHb.
Qed.

Lemma main_trace_from_inv (T : Topology) st0 (ps : list Policy) (s : State) :
  sym_cap T -> Inv T st0 s -> Forall (Inv T st0) (main_trace_from T ps s).
Proof.
  intros HT. revert s. induction ps as [|p ps IH]; intros s Hs; [constructor|].
  cbn [main_trace_from].
  destruct (run_trace_inv p T st0 (seq 0 (length (eventQueue s))) s Hs)
    as [Ha Hb].
  assert (Hc : Inv T st0 (clearValues T
             (List.last (run_trace p T (seq 0 (length (eventQueue s))) s) s))).
  { split; [now apply clearValues_wf|].
    rewrite clearValues_statics. apply Hb. }
  apply Forall_app. split; [exact Ha|].
  constructor; [exact Hc|]. apply IH. exact Hc.
Qed.

Lemma main_trace_inv (links : list Link) (calls : list Call) :
  Forall (Inv (topology_of links) (statics (initial links calls)))
         (main_trace links calls).
Proof.
  assert (H0 : Inv (topology_of links) (statics (initial links calls))
                   (initial links calls)).
  { split; [apply initial_wf | reflexivity]. }
  unfold main_trace. constructor; [exact H0|].
  apply main_trace_from_inv; [|exact H0].
  apply load_topology_spec.
Qed.

Lemma run_is_last (p : Policy) (T : Topology) (idx : list nat) (s : State) :
  fold_left (fun acc i => process p T i acc) idx s
  = List.last (run_trace p T idx s) s.
Proof.
  revert s. induction idx as [|i idx IH]; intros s; [reflexivity|].
  cbn [run_trace fold_left]. rewrite !last_cons. apply IH.
Qed.

(** The state a policy ends in is the last state of its trace. *)
Lemma run_last (p : Policy) (T : Topology) (s : State) :
  run p T s = List.last (run_trace p T (seq 0 (length (eventQueue s))) s) s.
Proof. apply run_is_last. Qed.

(** ** Release of a finished call *)

(** The cell [k], [m] of event [j] holds nothing. *)
Definition cell_clear (j k m : nat) (s : State) : Prop :=
  forall e, eventQueue s !! j = Some e -> resources e k m <= 0.

Lemma release_cell_clears (j k m : nat) (s : State) :
  cell_clear j k m (release_cell j k m s).
Proof.
  unfold release_cell, cell_clear.
  destruct (eventQueue s !! j) as [e|] eqn:Hj; [|congruence].
  destruct (0 <? resources e k m) eqn:Hpos.
  - intros e'. simpl. rewrite list_lookup_alter_eq, Hj. simpl.
    intros [= <-]. simpl. rewrite mset_eq. lia.
  - intros e' He'. rewrite Hj in He'. injection He' as <-.
    apply Z.ltb_ge in Hpos. exact Hpos.
Qed.

Lemma release_cell_keeps_clear (j k m k' m' : nat) (s : State) :
  cell_clear j k m s -> cell_clear j k m (release_cell j k' m' s).
Proof.
  unfold release_cell, cell_clear. intros Hs.
  destruct (eventQueue s !! j) as [e|] eqn:Hj; [|congruence].
  destruct (0 <? resources e k' m'); [|now rewrite Hj].
  intros e'. simpl. rewrite list_lookup_alter_eq, Hj. simpl.
  intros [= <-]. simpl. pose proof (Hs e eq_refl). unfold mset. eqb_cases; lia.
Qed.

Lemma release_clears (j : nat) (s : State) (k m : nat) :
  (k < 26)%nat -> (m < 26)%nat -> cell_clear j k m (release j s).
Proof.
  intros Hk Hm. unfold release.
  apply (for_nodes_each (fun k s' => forall m, (m < 26)%nat -> cell_clear j k m s'));
    auto.
  - intros k0 s1 _ m0. apply (for_nodes_each (fun m s' => cell_clear j k0 m s')).
    + intros m1 s2 _. apply release_cell_clears.
    + intros m1 m2 s2. apply release_cell_keeps_clear.
  - intros k0 k1 s1 H m0 Hm0. apply for_nodes_ind; [|now apply H].
    intros m1 s2 _. apply release_cell_keeps_clear.
Qed.

Lemma release_cell_noop (j k m : nat) (s : State) :
  cell_clear j k m s -> release_cell j k m s = s.
Proof.
  unfold release_cell, cell_clear. intros Hs.
  destruct (eventQueue s !! j) as [e|]; [|reflexivity].
  destruct (Z.ltb_spec 0 (resources e k m)) as [Hpos|]; [|reflexivity].
  specialize (Hs e eq_refl). lia.
Qed.

Lemma release_noop (j : nat) (s : State) :
  (forall k m, (k < 26)%nat -> (m < 26)%nat -> cell_clear j k m s) ->
  release j s = s.
Proof.
  intros Hs. unfold release.
  apply (for_nodes_ind (fun s' => s' = s)); [|reflexivity].
  intros k s1 Hk ->.
  apply (for_nodes_ind (fun s' => s' = s)); [|reflexivity].
  intros m s2 Hm ->. apply release_cell_noop. now apply Hs.
Qed.

(** What the release of event [j] keeps true while it runs: [e] is the
    event and [s0] the state at its start. *)
Record releasing (j : nat) (e : CallEvent) (s0 s' : State) : Prop := mk_releasing {
  rel_sym : sym_avail s';
  rel_event : exists e',
    eventQueue s' !! j = Some e' /\ running e' = running e /\
    static e' = static e /\ sym_res e' /\ nonneg_res e' /\
    (forall u v, availCap s' u v + resources e' u v
                 = availCap s0 u v + resources e u v);
  rel_others : forall j', j' <> j -> eventQueue s' !! j' = eventQueue s0 !! j';
  rel_counters :
    blockedCalls s' = blockedCalls s0 /\ succCalls s' = succCalls s0 /\
    totalHops s' = totalHops s0 /\ totalProp s' = totalProp s0
}.

Lemma releasing_start (j : nat) (e : CallEvent) (s : State) :
  sym_avail s -> eventQueue s !! j = Some e -> sym_res e -> nonneg_res e ->
  releasing j e s s.
Proof.
  intros Hsa Hj Hse Hne. split; auto.
  exists e. repeat split; auto.
Qed.

Lemma release_cell_releasing (j k m : nat) (e : CallEvent) (s0 s : State) :
  releasing j e s0 s -> releasing j e s0 (release_cell j k m s).
Proof.
  intros [Hsa (e' & Hj & Hrun & Hst & Hse & Hne & Hsum) Hoth Hcnt].
  unfold release_cell. rewrite Hj.
  destruct (0 <? resources e' k m); [|split; eauto 10].
  split; simpl.
  - intros u v. apply mset_pair_sym. intros a b. apply Hsa.
  - eexists. rewrite list_lookup_alter_eq, Hj. simpl. split; [reflexivity|].
    simpl. repeat split; auto.
    + intros u v. simpl. apply mset_pair_sym. exact Hse.
    + intros u v. simpl. pose proof (Hne u v). unfold mset. eqb_cases; lia.
    + intros u v. simpl. rewrite <- Hsum.
      pose proof (Hsa m k). pose proof (Hse k m).
      pose proof (Hsa u v). pose proof (Hse u v).
      unfold mset. eqb_cases; lia.
  - intros j' Hne'. rewrite list_lookup_alter_ne by congruence. now apply Hoth.
  - exact Hcnt.
Qed.

Lemma release_releasing (j : nat) (e : CallEvent) (s0 s : State) :
  releasing j e s0 s -> releasing j e s0 (release j s).
Proof.
  unfold release. apply for_nodes_ind. intros k s1 _.
  apply for_nodes_ind. intros m s2 _. apply release_cell_releasing.
Qed.

(** The release of event [j]: its units go back to [availCap], its table
    is cleared, nothing else changes. *)
Lemma release_spec (j : nat) (e : CallEvent) (s : State) :
  sym_avail s -> eventQueue s !! j = Some e -> sym_res e -> nonneg_res e ->
  sym_avail (release j s) /\
  (exists e', eventQueue (release j s) !! j = Some e' /\
     running e' = running e /\ static e' = static e /\
     (forall u v, (u < 26)%nat -> (v < 26)%nat -> resources e' u v = 0)) /\
  (forall u v, (u < 26)%nat -> (v < 26)%nat ->
     availCap (release j s) u v = availCap s u v + resources e u v) /\
  (forall j', j' <> j -> eventQueue (release j s) !! j' = eventQueue s !! j').
Proof.
  intros Hsa Hj Hse Hne.
  destruct (release_releasing j e s s (releasing_start j e s Hsa Hj Hse Hne))
    as [Hsa' (e' & Hj' & Hrun & Hst & Hse' & Hne' & Hsum) Hoth _].
  assert (Hz : forall u v, (u < 26)%nat -> (v < 26)%nat -> resources e' u v = 0).
  { intros u v Hu Hv. pose proof (release_clears j s u v Hu Hv e' Hj').
    pose proof (Hne' u v). lia. }
  repeat split; auto.
  - exists e'. auto.
  - intros u v Hu Hv. rewrite <- Hsum, (Hz u v Hu Hv). lia.
Qed.

(** ** Expiry of the earlier calls *)

(** Event [j] is running and ends no later than event [i] arrives. *)
Definition expiring (i : nat) (s : State) (j : nat) : bool :=
  match eventQueue s !! j, eventQueue s !! i with
  | Some ej, Some ei => running ej && Qle_bool (endTime ej) (startTime ei)
  | _, _ => false
  end.

(** The units of the link [u], [v] held by event [j]. *)
Definition held (s : State) (j u v : nat) : Z :=
  match eventQueue s !! j with
  | Some e => resources e u v
  | None => 0
  end.

(** The units of the link [u], [v] held by the expiring events among the
    first [n]. *)
Fixpoint returned (i : nat) (s : State) (n u v : nat) : Z :=
  match n with
  | O => 0
  | S n' => returned i s n' u v + (if expiring i s n' then held s n' u v else 0)
  end.

Record expired_upto (i : nat) (s : State) (n : nat) (s' : State) : Prop :=
  mk_expired_upto {
  exp_sym : sym_avail s';
  exp_later : forall j, (n <= j)%nat -> eventQueue s' !! j = eventQueue s !! j;
  exp_kept : forall j, (j < n)%nat -> expiring i s j = false ->
             eventQueue s' !! j = eventQueue s !! j;
  exp_done : forall j, (j < n)%nat -> expiring i s j = true ->
             exists e e', eventQueue s !! j = Some e /\
               eventQueue s' !! j = Some e' /\ running e' = false /\
               static e' = static e /\
               (forall u v, (u < 26)%nat -> (v < 26)%nat -> resources e' u v = 0);
  exp_avail : forall u v, (u < 26)%nat -> (v < 26)%nat ->
              availCap s' u v = availCap s u v + returned i s n u v
}.

Lemma expire_step (i : nat) (s : State) (n : nat) (s' : State) :
  Forall sym_res (eventQueue s) -> Forall nonneg_res (eventQueue s) ->
  (n < i)%nat ->
  expired_upto i s n s' -> expired_upto i s (S n) (expire i n s').
Proof.
  intros Hsr Hnr Hni [Hsa Hlater Hkept Hdone Hav].
  assert (Hcond : expire i n s'
                  = if expiring i s n
                    then release n (on_event n (set_running false) s') else s').
  { unfold expire, expiring. rewrite (Hlater n), (Hlater i) by lia.
    destruct (eventQueue s !! n); [|reflexivity].
    destruct (eventQueue s !! i); reflexivity. }
  rewrite Hcond. destruct (expiring i s n) eqn:Hexp.
  - assert (He : exists e, eventQueue s !! n = Some e).
    { unfold expiring in Hexp. destruct (eventQueue s !! n); [eauto|discriminate]. }
    destruct He as [e He].
    pose proof (Forall_lookup_1 _ _ _ _ Hsr He) as Hse.
    pose proof (Forall_lookup_1 _ _ _ _ Hnr He) as Hne.
    set (s1 := on_event n (set_running false) s').
    assert (H1 : eventQueue s1 !! n = Some (set_running false e)).
    { unfold s1. simpl. rewrite list_lookup_alter_eq, (Hlater n), He by lia.
      reflexivity. }
    destruct (release_spec n (set_running false e) s1)
      as (Hsa2 & (e2 & He2 & Hrun2 & Hst2 & Hz2) & Hav2 & Hoth2); auto.
    assert (Hq1 : forall j, j <> n -> eventQueue s1 !! j = eventQueue s' !! j).
    { intros j Hj. unfold s1. simpl. now rewrite list_lookup_alter_ne by congruence. }
    split; auto.
    + intros j Hj. rewrite Hoth2, Hq1 by lia. apply Hlater. lia.
    + intros j Hj Hf. assert (j <> n) by congruence.
      rewrite Hoth2, Hq1 by lia. apply Hkept; [lia|exact Hf].
    + intros j Hj Ht. destruct (Nat.eq_dec j n) as [->|Hjn].
      * exists e, e2. repeat split; auto.
      * rewrite Hoth2, Hq1 by lia. apply Hdone; [lia|exact Ht].
    + intros u v Hu Hv. rewrite Hav2 by assumption. cbn [returned].
      rewrite Hexp. unfold held. rewrite He. simpl.
      change (availCap s1) with (availCap s'). rewrite Hav by assumption. lia.
  - split; auto.
    + intros j Hj. apply Hlater. lia.
    + intros j Hj Hf. destruct (Nat.eq_dec j n) as [->|Hjn].
      * apply Hlater. lia.
      * apply Hkept; [lia|exact Hf].
    + intros j Hj Ht. destruct (Nat.eq_dec j n) as [->|Hjn]; [congruence|].
      apply Hdone; [lia|exact Ht].
    + intros u v Hu Hv. cbn [returned]. rewrite Hexp, Hav by assumption. lia.
Qed.

Lemma timeUpdate_expired (i : nat) (s : State) :
  symmetric s -> Forall nonneg_res (eventQueue s) ->
  expired_upto i s i (timeUpdate i s).
Proof.
  intros [Hsa Hsr] Hnr. unfold timeUpdate.
  assert (H : forall n, (n <= i)%nat -> expired_upto i s n (for_upto n (expire i) s)).
  { induction n as [|n IH]; intros Hn.
    - change (for_upto 0 (expire i) s) with s.
      split; auto; try (intros; lia). intros u v _ _. simpl. lia.
    - rewrite for_upto_S. apply expire_step; auto. apply IH. lia. }
  apply H. lia.
Qed.

(** ** The search *)

Lemma minDist_spec (dist queue : nat -> Z) :
  minDistVertexInQueue dist queue = 50%nat \/
  ((minDistVertexInQueue dist queue < 26)%nat /\
   queue (minDistVertexInQueue dist queue) = 1 /\
   dist (minDistVertexInQueue dist queue) < 999).
Proof.
  unfold minDistVertexInQueue.
  apply (for_nodes_ind (fun acc : Z * nat =>
    (snd acc = 50%nat \/
     ((snd acc < 26)%nat /\ queue (snd acc) = 1 /\ dist (snd acc) < 999)) /\
    fst acc <= 999 /\ (snd acc <> 50%nat -> dist (snd acc) = fst acc))).
  - intros i [mv mi] Hi (H & Hle & Hd). cbn [fst snd] in *.
    destruct (Z.eqb_spec (queue i) 1) as [Hq|]; cbn [andb]; [|auto].
    destruct (Z.ltb_spec (dist i) mv); cbn [fst snd]; [|auto].
    split; [right|]; repeat split; auto; lia.
  - cbn [fst snd]. split; [left; reflexivity|]. split; [lia|congruence].
Qed.

Lemma minDist_in_range (dist queue : nat -> Z) :
  (27 <? minDistVertexInQueue dist queue)%nat = false ->
  (minDistVertexInQueue dist queue < 26)%nat /\
  queue (minDistVertexInQueue dist queue) = 1 /\
  dist (minDistVertexInQueue dist queue) < 999.
Proof.
  intros H. apply Nat.ltb_ge in H.
  destruct (minDist_spec dist queue) as [H50|]; [lia|assumption].
Qed.

(** Paths, written from the source to the destination: every link has a
    positive cell in [adj]. *)
Fixpoint is_path (adj : imatrix) (p : list nat) : Prop :=
  match p with
  | a :: (b :: _) as t => 0 < adj a b /\ is_path adj t
  | _ => True
  end.

(** The cost the search accumulates along a path, starting from [d]:
    [alt = dist[u] + edgeCost[u][j]], converted to [int] at every link. *)
Fixpoint cost_from (edgeCost : fmatrix) (d : Z) (p : list nat) : Z :=
  match p with
  | a :: (b :: _) as t => cost_from edgeCost (Qtrunc (inject_Z d + edgeCost a b)) t
  | _ => d
  end.

Definition path_cost (edgeCost : fmatrix) (p : list nat) : Z :=
  cost_from edgeCost 0 p.

(** A path of distinct nodes of the 26 from [src] to [dst]. *)
Definition path_between (adj : imatrix) (src dst : nat) (p : list nat) : Prop :=
  head p = Some src /\ last p = Some dst /\ NoDup p /\
  Forall (fun x => (x < 26)%nat) p /\ is_path adj p.

Lemma is_path_snoc (adj : imatrix) (p : list nat) (u j : nat) :
  is_path adj (p ++ [u]) -> 0 < adj u j -> is_path adj ((p ++ [u]) ++ [j]).
Proof.
  induction p as [|a p IH]; intros Hp Hj; [simpl; auto|].
  destruct p as [|b p]; simpl in *; [tauto|].
  destruct Hp as [Hab Hp]. split; [exact Hab|]. now apply IH.
Qed.

Lemma cost_from_snoc (edgeCost : fmatrix) (d : Z) (p : list nat) (u j : nat) :
  cost_from edgeCost d ((p ++ [u]) ++ [j])
  = Qtrunc (inject_Z (cost_from edgeCost d (p ++ [u])) + edgeCost u j).
Proof.
  revert d. induction p as [|a p IH]; intros d; [reflexivity|].
  destruct p as [|b p]; [reflexivity|]. apply (IH (Qtrunc _)).
Qed.

Section Search.
Variables (adj : imatrix) (edgeCost : fmatrix) (src : nat).

(** [chain st j l]: following [previousVertex] from [j] visits the nodes
    of [l] and ends in [src]; all nodes but [j] have left the queue. *)
Inductive chain (st : Search) : nat -> list nat -> Prop :=
| chain_src : chain st src [src]
| chain_step j u l :
    previousVertex st j = Z.of_nat u ->
    queue st u = 0 -> (u < 26)%nat -> 0 < adj u j ->
    dist st j = Qtrunc (inject_Z (dist st u) + edgeCost u j) ->
    j ∉ l -> j <> src ->
    chain st u l -> chain st j (j :: l).

Lemma chain_head st j l : chain st j l -> exists t, l = j :: t.
Proof. destruct 1; eauto. Qed.

Lemma chain_tail st j t :
  chain st j (j :: t) -> Forall (fun x => queue st x = 0 /\ (x < 26)%nat) t.
Proof.
  revert j. induction t as [|x t IH]; intros j H; [constructor|].
  inversion H as [|j' u l Hp Hq Hu Ha Hd Hn Hs Hc]; subst.
  destruct (chain_head _ _ _ Hc) as [t' Ht']. injection Ht' as <- <-.
  constructor; [auto|]. now apply (IH x).
Qed.

Lemma chain_stable st st' j l :
  chain st j l ->
  (forall x, x ∈ l -> previousVertex st' x = previousVertex st x /\
                     dist st' x = dist st x) ->
  (forall x, queue st x = 0 -> queue st' x = 0) ->
  chain st' j l.
Proof.
  intros Hc Hsame Hq. induction Hc as [|j u l Hp Hqu Hu Ha Hd Hn Hs Hc IH].
  - constructor.
  - destruct (chain_head _ _ _ Hc) as [t ->].
    destruct (Hsame j ltac:(apply elem_of_cons; auto)) as [Hp' Hd'].
    destruct (Hsame u ltac:(rewrite !elem_of_cons; auto)) as [_ Hdu].
    apply chain_step with u; auto; try congruence.
    apply IH. intros x Hx. apply Hsame. apply elem_of_cons. now right.
Qed.

Lemma chain_NoDup st j l : chain st j l -> NoDup l.
Proof.
  induction 1 as [|j u l _ _ _ _ _ Hn _ _ IH].
  - apply NoDup_singleton.
  - apply NoDup_cons. auto.
Qed.

Lemma chain_last st j l : chain st j l -> last l = Some src.
Proof.
  induction 1 as [|j u l _ _ _ _ _ _ _ Hc IH]; [reflexivity|].
  destruct (chain_head _ _ _ Hc) as [t ->]. now rewrite last_cons_cons.
Qed.

Lemma chain_reverse_path st j l :
  dist st src = 0 -> chain st j l ->
  is_path adj (reverse l) /\ path_cost edgeCost (reverse l) = dist st j.
Proof.
  intros H0. induction 1 as [|j u l Hp Hqu Hu Ha Hd Hn Hs Hc IH].
  - unfold path_cost. simpl. auto.
  - destruct IH as (Hpath & Hcost).
    destruct (chain_head _ _ _ Hc) as [t ->].
    rewrite (reverse_cons (u :: t)). rewrite (reverse_cons t) in *. split.
    + now apply is_path_snoc.
    + unfold path_cost in *. rewrite cost_from_snoc, Hcost. now symmetry.
Qed.

(** The invariant of the loop of the search. *)
Record SInv (st : Search) : Prop := mk_SInv {
  si_src : previousVertex st src = -1 /\ dist st src = 0;
  si_first : queue st src = 0 \/ (forall j, j <> src -> dist st j = 999);
  si_chain : forall j, dist st j < 999 -> exists l, chain st j l
}.

Definition pop (u : nat) (st : Search) : Search :=
  mkSearch (aset (queue st) u 0) (size st) (previousVertex st) (dist st)
           (foundFlag st).

Lemma pop_inv (u : nat) (st : Search) :
  SInv st -> queue st u = 1 -> dist st u < 999 ->
  SInv (pop u st) /\ queue (pop u st) src = 0.
Proof.
  intros [Hsrc Hfirst Hch] Hq Hd.
  assert (Hs0 : queue (pop u st) src = 0).
  { simpl. unfold aset. destruct (Nat.eqb_spec src u); [reflexivity|].
    destruct Hfirst as [|Hall]; [assumption|].
    specialize (Hall u ltac:(congruence)). lia. }
  split; [|exact Hs0]. split; auto.
  intros j Hj. destruct (Hch j Hj) as [l Hl]. exists l.
  apply chain_stable with st; auto.
  intros x Hx. simpl. unfold aset. now destruct (x =? u)%nat.
Qed.

(** [u] has left the queue with a finite distance. *)
Definition popped (u : nat) (st : Search) : Prop :=
  queue st u = 0 /\ (u < 26)%nat /\ dist st u < 999 /\ queue st src = 0.

Lemma relax_one_inv (u j : nat) (st : Search) :
  popped u st -> SInv st ->
  popped u (relax_one adj edgeCost u j st) /\
  SInv (relax_one adj edgeCost u j st).
Proof.
  intros Hpop Hinv. pose proof Hpop as (Hqu & Hu & Hdu & Hqs).
  pose proof Hinv as [Hsrc Hfirst Hch]. unfold relax_one.
  destruct (Z.ltb_spec 0 (queue st j)) as [Hqj|]; [|now split].
  destruct (Z.ltb_spec 0 (adj u j)) as [Haj|]; [|now split].
  set (alt := Qtrunc (inject_Z (dist st u) + edgeCost u j)).
  destruct (Z.ltb_spec alt (dist st j)) as [Halt|]; [|now split].
  assert (Hju : j <> u) by (intros ->; lia).
  assert (Hjs : j <> src) by (intros ->; lia).
  assert (Hkeep : forall k l, chain st k l -> k <> j ->
            chain (mkSearch (queue st) (size st)
                     (aset (previousVertex st) j (Z.of_nat u))
                     (aset (dist st) j alt) (foundFlag st)) k l).
  { intros k l Hl Hk. apply chain_stable with st; auto.
    intros x Hx. simpl. unfold aset.
    destruct (Nat.eqb_spec x j) as [->|]; [|auto]. exfalso.
    destruct (chain_head _ _ _ Hl) as [t ->].
    apply elem_of_cons in Hx. destruct Hx as [->|Hx]; [congruence|].
    pose proof (chain_tail _ _ _ Hl) as Ht.
    rewrite Forall_forall in Ht. destruct (Ht j Hx). lia. }
  split.
  - repeat split; simpl; auto. unfold aset.
    destruct (Nat.eqb_spec u j); [congruence|assumption].
  - split; simpl.
    + unfold aset. destruct (Nat.eqb_spec src j); [congruence|exact Hsrc].
    + left. exact Hqs.
    + intros k. unfold aset at 1. destruct (Nat.eqb_spec k j) as [->|Hk].
      * intros _. destruct (Hch u Hdu) as [l Hl]. exists (j :: l).
        apply chain_step with u; simpl; auto.
        -- unfold aset. now rewrite Nat.eqb_refl.
        -- unfold aset. rewrite Nat.eqb_refl.
           destruct (Nat.eqb_spec u j); [congruence|reflexivity].
        -- destruct (chain_head _ _ _ Hl) as [t ->].
           intros Hin. apply elem_of_cons in Hin.
           destruct Hin as [->|Hin]; [congruence|].
           pose proof (chain_tail _ _ _ Hl) as Ht.
           rewrite Forall_forall in Ht. destruct (Ht j Hin). lia.
      * intros Hd. destruct (Hch k Hd) as [l Hl]. exists l. now apply Hkeep.
Qed.

Lemma relax_inv (u : nat) (st : Search) :
  popped u st -> SInv st ->
  SInv (relax adj edgeCost u st) /\
  foundFlag (relax adj edgeCost u st) = foundFlag st.
Proof.
  intros Hp Hs. unfold relax.
  assert (H : popped u (for_nodes (relax_one adj edgeCost u) st) /\
              SInv (for_nodes (relax_one adj edgeCost u) st) /\
              foundFlag (for_nodes (relax_one adj edgeCost u) st) = foundFlag st).
  { apply for_nodes_ind; [|auto].
    intros j s' _ (Hp' & Hs' & Hf').
    destruct (relax_one_inv u j s' Hp' Hs') as [Hp2 Hs2].
    split; [exact Hp2|split; [exact Hs2|]]. rewrite <- Hf'. unfold relax_one.
    repeat match goal with |- context [if ?b then _ else _] => destruct b end;
      reflexivity. }
  tauto.
Qed.

Lemma search_loop_inv (n : nat) (dst : nat) (st : Search) :
  SInv st -> foundFlag st <> 1 ->
  let st' := search_loop n adj edgeCost dst st in
  SInv st' /\ (foundFlag st' = 1 -> (dst < 26)%nat /\ dist st' dst < 999).
Proof.
  revert st. induction n as [|n IH]; intros st Hs Hf; cbn zeta;
    [split; [exact Hs|contradiction]|].
  cbn [search_loop].
  destruct (27 <? minDistVertexInQueue (dist st) (queue st))%nat eqn:Hu;
    [split; [exact Hs|contradiction]|].
  destruct (minDist_in_range _ _ Hu) as (Hu26 & Hq & Hd).
  set (u := minDistVertexInQueue (dist st) (queue st)) in *.
  destruct (pop_inv u st Hs Hq Hd) as [Hs1 Hq1].
  destruct (Nat.eqb_spec u dst) as [->|Hne].
  - split; [|intros _; simpl; auto].
    destruct Hs1 as [H1 H2 H3]. split; auto.
    intros j Hj. destruct (H3 j Hj) as [l Hl]. exists l.
    apply chain_stable with (pop dst st); auto.
  - cbn [queue size previousVertex dist foundFlag].
    set (st1 := mkSearch (aset (queue st) u 0) n (previousVertex st)
                         (dist st) (foundFlag st)).
    assert (Hs1' : SInv st1).
    { destruct Hs1 as [H1 H2 H3]. split; auto.
      intros j Hj. destruct (H3 j Hj) as [l Hl]. exists l.
      apply chain_stable with (pop u st); auto. }
    assert (Hp1 : popped u st1).
    { repeat split; auto. simpl. unfold aset. now rewrite Nat.eqb_refl. }
    destruct (relax_inv u st1 Hp1 Hs1') as [Hs2 Hf2].
    apply IH; [exact Hs2|]. rewrite Hf2. exact Hf.
Qed.

Lemma init_search_inv (cap : imatrix) : SInv (init_search cap src).
Proof.
  unfold init_search. split; cbn [previousVertex dist queue].
  - unfold aset. now rewrite Nat.eqb_refl.
  - right. intros j Hj. unfold aset.
    destruct (Nat.eqb_spec j src); [congruence|reflexivity].
  - intros j. unfold aset. destruct (Nat.eqb_spec j src) as [->|]; [|lia].
    intros _. exists [src]. constructor.
Qed.
End Search.

(** A successful search leaves a chain from the destination back to the
    source, of distinct nodes of the 26, whose accumulated cost is below
    999. *)
Lemma dijkstra_chain (cap adj : imatrix) (edgeCost : fmatrix) (src dst : nat) :
  foundFlag (dijkstra cap adj edgeCost src dst) = 1 ->
  let st := dijkstra cap adj edgeCost src dst in
  exists l, chain adj edgeCost src st dst l /\
            previousVertex st src = -1 /\ dist st src = 0 /\
            dist st dst < 999 /\ Forall (fun x => (x < 26)%nat) l.
Proof.
  unfold dijkstra.
  pose proof (search_loop_inv adj edgeCost src
                (size (init_search cap src)) dst (init_search cap src)
                (init_search_inv adj edgeCost src cap)) as H.
  cbv zeta in *.
  set (st := search_loop _ _ _ _ _) in *. clearbody st.
  intros Hf. destruct H as [Hs Hd].
  { unfold init_search. cbn [foundFlag]. discriminate. }
  destruct (Hd Hf) as [Hdst Hlt].
  destruct (si_chain _ _ _ _ Hs dst Hlt) as [l Hl].
  destruct (si_src _ _ _ _ Hs) as [Hp0 Hd0].
  exists l. repeat (split; [assumption|]).
  destruct (chain_head _ _ _ _ _ _ Hl) as [t ->].
  constructor; [exact Hdst|].
  eapply Forall_impl; [eapply chain_tail; eauto|]. simpl. tauto.
Qed.

Lemma dijkstra_found (cap adj : imatrix) (edgeCost : fmatrix) (src dst : nat) :
  foundFlag (dijkstra cap adj edgeCost src dst) = 1 ->
  exists p, path_between adj src dst p /\ path_cost edgeCost p < 999.
Proof.
  intros Hf. destruct (dijkstra_chain _ _ _ _ _ Hf) as (l & Hl & _ & Hd0 & Hlt & Hr).
  set (st := dijkstra cap adj edgeCost src dst) in *. clearbody st.
  destruct (chain_reverse_path adj edgeCost src _ dst l Hd0 Hl) as (Hp & Hc).
  exists (reverse l). split; [|rewrite Hc; exact Hlt].
  split; [|split; [|split; [|split]]].
  - rewrite head_reverse. eapply chain_last; eauto.
  - rewrite last_reverse. destruct (chain_head _ _ _ _ _ _ Hl) as [t ->].
    reflexivity.
  - rewrite reverse_Permutation. eapply chain_NoDup; eauto.
  - apply Forall_reverse. exact Hr.
  - exact Hp.
Qed.

(** *** The walk back from the destination ends within 26 turns *)

Lemma short_list (l : list nat) :
  NoDup l -> Forall (fun x => (x < 26)%nat) l -> (length l <= 26)%nat.
Proof.
  intros Hn Hr. change 26%nat with (length (seq 0 26)).
  apply submseteq_length, NoDup_submseteq; [exact Hn|].
  intros x Hx. rewrite Forall_forall in Hr. apply elem_of_seq.
  specialize (Hr x Hx). lia.
Qed.

Lemma reserve_along_chain (adj : imatrix) (edgeCost : fmatrix) (src : nat)
    (st : Search) (T : Topology) (current : nat) (j : nat) (l : list nat) :
  chain adj edgeCost src st j l -> previousVertex st src = -1 ->
  forall (f1 f2 : nat) (s : State),
    (length l <= f1)%nat -> (length l <= f2)%nat ->
    reserve f1 T (previousVertex st) current j s
    = reserve f2 T (previousVertex st) current j s.
Proof.
  intros Hc H0. induction Hc as [|j u l Hp Hqu Hu Ha Hd Hn Hs Hc IH];
    intros f1 f2 s H1 H2; simpl in H1, H2.
  - destruct f1 as [|f1], f2 as [|f2]; try lia. simpl. rewrite H0. reflexivity.
  - destruct f1 as [|f1], f2 as [|f2]; try lia. simpl. rewrite Hp.
    destruct (Z.ltb_spec (-1) (Z.of_nat u)); [|lia].
    rewrite Nat2Z.id. apply IH; lia.
Qed.

Lemma count_along_chain (adj : imatrix) (edgeCost : fmatrix) (src : nat)
    (st : Search) (j : nat) (l : list nat) :
  chain adj edgeCost src st j l -> previousVertex st src = -1 ->
  forall (f1 f2 : nat) (h : Z),
    (length l <= f1)%nat -> (length l <= f2)%nat ->
    count_hops f1 (previousVertex st) j h = count_hops f2 (previousVertex st) j h.
Proof.
  intros Hc H0. induction Hc as [|j u l Hp Hqu Hu Ha Hd Hn Hs Hc IH];
    intros f1 f2 h H1 H2; simpl in H1, H2.
  - destruct f1 as [|f1], f2 as [|f2]; try lia. simpl. rewrite H0. reflexivity.
  - destruct f1 as [|f1], f2 as [|f2]; try lia. simpl. rewrite Hp.
    destruct (Z.ltb_spec (-1) (Z.of_nat u)); [|lia].
    rewrite Nat2Z.id. apply IH; lia.
Qed.

(** More than 26 turns change nothing: the loop of [updateState] has ended
    by then. *)
Lemma reserve_fuel (T : Topology) (cap adj : imatrix) (edgeCost : fmatrix)
    (src dst current : nat) (s : State) (fuel : nat) :
  let st := dijkstra cap adj edgeCost src dst in
  foundFlag st = 1 -> (26 <= fuel)%nat ->
  reserve fuel T (previousVertex st) current dst s
  = reserve 26 T (previousVertex st) current dst s.
Proof.
  intros st Hf Hfuel.
  destruct (dijkstra_chain _ _ _ _ _ Hf) as (l & Hl & Hp0 & _ & _ & Hr).
  fold st in Hl, Hp0. clearbody st.
  pose proof (short_list l (chain_NoDup _ _ _ _ _ _ Hl) Hr).
  eapply reserve_along_chain; eauto; lia.
Qed.

(** The same for the loop that counts the hops in [emptySHPO]. *)
Lemma count_hops_fuel (cap adj : imatrix) (edgeCost : fmatrix)
    (src dst : nat) (fuel : nat) :
  let st := dijkstra cap adj edgeCost src dst in
  foundFlag st = 1 -> (26 <= fuel)%nat ->
  count_hops fuel (previousVertex st) dst 0
  = count_hops 26 (previousVertex st) dst 0.
Proof.
  intros st Hf Hfuel.
  destruct (dijkstra_chain _ _ _ _ _ Hf) as (l & Hl & Hp0 & _ & _ & Hr).
  fold st in Hl, Hp0. clearbody st.
  pose proof (short_list l (chain_NoDup _ _ _ _ _ _ Hl) Hr).
  eapply count_along_chain; eauto; lia.
Qed.

Lemma process_wf (p : Policy) (T : Topology) (i : nat) (s : State) :
  wf T s -> wf T (process p T i s).
Proof.
  intros Hs. unfold process. apply route_wf.
  eapply wf_same_tables; [apply prepare_same_tables|]. now apply timeUpdate_wf.
Qed.

(** * The claims *)

(** ** Tables of the whole program *)

(** C10. Symmetry: in every state [main] passes through, [availCap] is a
    symmetric table and so is the reservation table of every event; the
    topology load, the reservations, the releases and the reset between two
    policies keep it so. *)
Theorem symmetry_invariant (links : list Link) (calls : list Call) :
  Forall (fun s =>
            (forall u v, availCap s u v = availCap s v u) /\
            Forall (fun e => forall u v, resources e u v = resources e v u)
                   (eventQueue s))
         (main_trace links calls).
Proof.
  eapply Forall_impl; [apply main_trace_inv|].
  intros s [Hw _]. exact (wf_sym _ _ Hw).
Qed.

(** The parsed fields of the events of a workload. *)
Definition parsed (calls : list Call) : list (Q * Q * Q * nat * nat) :=
  map (fun c : Call => let '(a, b, c', d) := c in (a, d, (a + d)%Q, b, c')) calls.

Lemma statics_initial (links : list Link) (calls : list Call) :
  statics (initial links calls) = parsed calls.
Proof.
  unfold statics, initial, parsed, load_calls. cbn [eventQueue].
  rewrite map_map. apply map_ext. intros [[[a b] c] d]. reflexivity.
Qed.

(** C8. The arrival time, duration, end time, source and destination of
    every event are, in every state [main] passes through, the ones parsed
    from the workload: neither the processing of the events nor the reset
    between two policies changes them (or the number of events); only the
    running flag and the reservation table of an event change. *)
Theorem parsed_fields_never_change (links : list Link) (calls : list Call) :
  Forall (fun s =>
            map (fun e => (startTime e, duration e, endTime e, source e,
                           destination e)) (eventQueue s)
            = parsed calls)
         (main_trace links calls).
Proof.
  eapply Forall_impl; [apply main_trace_inv|].
  intros s [_ Hst]. rewrite <- statics_initial with (links := links).
  exact Hst.
Qed.

(** ** Capacity conservation *)

(** C1. The claim fails on a link of 16777218 = 2^24 + 2 circuits, a
    capacity that the [float] tables hold.  The reservation of the first
    call under SHPF (line 582) computes 2^24 + 1, which the cell rounds to 2^24: the
    available capacity and the one circuit recorded for the call add up to
    2^24 + 1, not to the capacity of the link. *)
Theorem float_cell_breaks_conservation :
  let T := topology_of wide_link in
  let s := reserve_link_float T 0 B A
             (prepare SHPF T 0 (initial wide_link wide_calls)) in
  capacity T A B = 16777218 /\
  float_cell (capacity T A B) = capacity T A B /\
  availCap s A B = 16777216 /\
  reserved (eventQueue s) A B = 1 /\
  availCap s A B + reserved (eventQueue s) A B <> capacity T A B.
Proof. vm_compute. repeat split; discriminate. Qed.

(** ** Expiry *)

(** C4. The claim fails on the same link.  When the second call arrives the
    first has ended; its circuit is taken from its reservation table, and
    line 237 adds it to the available capacity 2^24, a sum that the cell
    rounds back to 2^24: the circuit is not returned to the link. *)
Theorem float_cell_keeps_released_circuit :
  let T := topology_of wide_link in
  let s := reserve_link_float T 0 B A
             (prepare SHPF T 0 (initial wide_link wide_calls)) in
  let s' := release_cell_float 0 A B s in
  expiring 1 s 0 = true /\
  reserved (eventQueue s) A B = 1 /\
  reserved (eventQueue s') A B = 0 /\
  availCap s' A B = availCap s A B /\
  availCap s' A B + 2 = capacity T A B.
Proof. vm_compute. repeat split. Qed.

(** A link of capacity 1 and a call that arrives after the first one has
    ended. *)
Definition thin_link : list Link := [(A, B, 5, 1)].
Definition late_call : list Call := [(0, A, B, 1); (2, A, B, 1)]%Q.

(** The state after the first call is routed under SHPF. *)
Definition after_first_call : State :=
  process SHPF (topology_of thin_link) 0 (initial thin_link late_call).

Lemma after_first_call_wf : wf (topology_of thin_link) after_first_call.
Proof. apply process_wf, initial_wf. Qed.

(** The first call is running with one unit of the link; when the second
    arrives it has expired and the unit is available again. *)
Example late_call_frees_the_link :
  expiring 1 after_first_call 0 = true /\
  availCap after_first_call A B = 0 /\
  held after_first_call 0 A B = 1 /\
  availCap (timeUpdate 1 after_first_call) A B = 1 /\
  held (timeUpdate 1 after_first_call) 0 A B = 0 /\
  (running <$> eventQueue (timeUpdate 1 after_first_call) !! 0%nat) = Some false.
Proof. vm_compute. repeat split. Qed.

(** ** Blocked calls *)

Lemma reserve_blockedCalls (fuel : nat) (T : Topology) (prev : nat -> Z)
    (current curr : nat) (s : State) :
  blockedCalls (reserve fuel T prev current curr s) = blockedCalls s.
Proof.
  revert curr s. induction fuel as [|fuel IH]; intros curr s; simpl; auto.
  destruct (-1 <? prev curr); auto. now rewrite IH.
Qed.

Lemma updateState_blockedCalls (T : Topology) (src dst : nat)
    (edgeCost : fmatrix) (current : nat) (s : State) :
  blockedCalls (snd (updateState T src dst edgeCost current s)) = blockedCalls s.
Proof.
  unfold updateState. destruct (negb _); cbn [snd]; auto.
  apply reserve_blockedCalls.
Qed.

Lemma block_frame (i : nat) (s : State) :
  availCap (block i s) = availCap s /\
  map resources (eventQueue (block i s)) = map resources (eventQueue s) /\
  totalHops (block i s) = totalHops s /\ totalProp (block i s) = totalProp s.
Proof.
  destruct (block_same_tables i s) as [Ha Hr]. repeat split; assumption.
Qed.

(** The loop body of the four policies that test the result of
    [updateState]. *)
Lemma judged_frame (T : Topology) (e : CallEvent) (c : fmatrix) (i : nat)
    (s : State) :
  let r := updateState T (source e) (destination e) c i s in
  let s' := if negb (fst r) then block i (snd r) else succeed (snd r) in
  blockedCalls s' = blockedCalls s + 1 ->
  availCap s' = availCap s /\
  map resources (eventQueue s') = map resources (eventQueue s) /\
  totalHops s' = totalHops s /\ totalProp s' = totalProp s.
Proof.
  intros r s'. subst s'.
  pose proof (updateState_false T (source e) (destination e) c i s) as Hfalse.
  pose proof (updateState_blockedCalls T (source e) (destination e) c i s) as Hb.
  fold r in Hfalse, Hb. clearbody r. destruct r as [[|] s1];
    cbn [fst snd negb] in *.
  - unfold succeed. cbn [blockedCalls set_succCalls]. lia.
  - rewrite (Hfalse eq_refl). intros _. apply block_frame.
Qed.

(** C5. A call for which the path search finds no admissible path, and any
    call that is counted as blocked (under SHPO the hop counts may rule it
    out), changes no cell of [availCap] and no reservation table, and adds
    nothing to the hop and propagation-delay totals. *)
Theorem blocked_call_changes_nothing (p : Policy) (T : Topology) (i : nat)
    (s : State) (e : CallEvent) :
  eventQueue s !! i = Some e ->
  blockedCalls (route p T i s) = blockedCalls s + 1 \/
  fst (updateState T (source e) (destination e) (edge_costs p T s) i s) = false ->
  availCap (route p T i s) = availCap s /\
  map resources (eventQueue (route p T i s)) = map resources (eventQueue s) /\
  totalHops (route p T i s) = totalHops s /\
  totalProp (route p T i s) = totalProp s.
Proof.
  intros He. unfold route. rewrite He. cbv zeta.
  assert (Hs : forall x : State,
            availCap (succeed x) = availCap x /\
            map resources (eventQueue (succeed x)) = map resources (eventQueue x) /\
            totalHops (succeed x) = totalHops x /\
            totalProp (succeed x) = totalProp x) by (intros x; repeat split).
  intros [Hb|Hf].
  - revert Hb. destruct p.
    1-4: apply judged_frame.
    pose proof (updateState_blockedCalls T (source e) (destination e) (cost s) i s)
      as Hb.
    set (r := updateState _ _ _ _ _ _) in *. clearbody r.
    destruct (_ >? _); [intros _; apply block_frame|].
    destruct r as [b s1]. cbn [snd] in *.
    unfold succeed. cbn [blockedCalls set_succCalls]. lia.
  - pose proof (updateState_false T (source e) (destination e)
                  (edge_costs p T s) i s Hf) as Hsame.
    assert (Hsame' : snd (updateState T (source e) (destination e) (cost s) i s)
                     = s \/ p <> SHPO).
    { destruct p; [right|right|right|right|left]; try discriminate. exact Hsame. }
    revert Hf Hsame Hsame'.
    generalize (updateState T (source e) (destination e) (edge_costs p T s) i s).
    generalize (updateState T (source e) (destination e) (cost s) i s).
    intros r' r Hf Hsame Hsame'. destruct r as [b s1]. cbn [fst snd] in *.
    subst b s1. destruct p; cbn [negb fst snd]; try apply block_frame.
    destruct (_ >? _); [apply block_frame|].
    destruct Hsame' as [->|Hne]; [apply Hs|congruence].
Qed.

(** The third of three overlapping calls on a link of capacity 2. *)
Definition third_call : State :=
  prepare SHPF (topology_of one_link) 2
    (timeUpdate 2
       (for_upto 2 (process SHPF (topology_of one_link))
          (initial one_link three_calls))).

(** The theorem at the third call, which SHPF blocks. *)
Lemma blocked_call_changes_nothing_witness :
  availCap (route SHPF (topology_of one_link) 2 third_call)
  = availCap third_call /\
  map resources (eventQueue (route SHPF (topology_of one_link) 2 third_call))
  = map resources (eventQueue third_call) /\
  totalHops (route SHPF (topology_of one_link) 2 third_call)
  = totalHops third_call /\
  totalProp (route SHPF (topology_of one_link) 2 third_call)
  = totalProp third_call.
Proof.
  apply (blocked_call_changes_nothing SHPF (topology_of one_link) 2 third_call
           (set_running true (newCallEvent 2 10 A B))).
  - vm_compute. reflexivity.
  - left. vm_compute. reflexivity.
Defined.

(** ** Release twice *)

(** C6. Releasing the reservations of a call a second time changes nothing:
    the state after two releases of event [j] is the state after one, cell
    for cell in [availCap] and in every reservation table. *)
Theorem release_idempotent (j : nat) (s : State) :
  release j (release j s) = release j s.
Proof.
  apply release_noop. intros k m Hk Hm. now apply release_clears.
Qed.

(** The recovery as a whole can be repeated as well: the events it has
    ended are no longer running. *)
Lemma timeUpdate_twice (i : nat) (s : State) :
  symmetric s -> Forall nonneg_res (eventQueue s) ->
  timeUpdate i (timeUpdate i s) = timeUpdate i s.
Proof.
  intros Hsym Hnn.
  destruct (timeUpdate_expired i s Hsym Hnn) as [_ Hlater Hkept Hdone _].
  set (s' := timeUpdate i s) in *. unfold timeUpdate at 1.
  apply (for_upto_ind (fun x => x = s')); [|reflexivity].
  intros j x Hj ->. unfold expire.
  destruct (eventQueue s' !! j) as [ej|] eqn:Hej; [|reflexivity].
  destruct (eventQueue s' !! i) as [ei|] eqn:Hei; [|reflexivity].
  destruct (expiring i s j) eqn:Hexp.
  - destruct (Hdone j Hj Hexp) as (e & e' & _ & He' & Hrun & _).
    rewrite Hej in He'. injection He' as <-. now rewrite Hrun.
  - rewrite (Hkept j Hj Hexp) in Hej. rewrite (Hlater i) in Hei by lia.
    unfold expiring in Hexp. rewrite Hej, Hei in Hexp. now rewrite Hexp.
Qed.

(** ** The state in which a policy starts *)

(** The state [clearValues] leaves depends on the parsed fields only. *)
Lemma clearValues_statics_eq (T : Topology) (s s' : State) :
  statics s = statics s' -> clearValues T s = clearValues T s'.
Proof.
  intros H. unfold clearValues. f_equal.
  unfold statics in H. revert H. generalize (eventQueue s') as q'.
  induction (eventQueue s) as [|e q IH]; intros [|e' q'] H;
    try discriminate; [reflexivity|].
  simpl in H. injection H as H1 H2 H3 H4 H5 Hq. simpl. f_equal; [|now apply IH].
  unfold reset, set_resources, set_running. simpl. congruence.
Qed.

(** The state in which SDPF, LLP, MFC and SHPO start. *)
Definition restart (links : list Link) (calls : list Call) : State :=
  clearValues (topology_of links) (initial links calls).

Lemma restart_of_trace (links : list Link) (calls : list Call) (s : State) :
  s ∈ main_trace links calls ->
  clearValues (topology_of links) s = restart links calls.
Proof.
  intros Hs. apply clearValues_statics_eq.
  pose proof (main_trace_inv links calls) as H.
  rewrite Forall_forall in H. exact (proj2 (H s Hs)).
Qed.

Lemma process_statics (p : Policy) (T : Topology) (i : nat) (s : State) :
  statics (process p T i s) = statics s.
Proof.
  unfold process.
  now rewrite route_statics, prepare_statics, timeUpdate_statics.
Qed.

Lemma run_statics (p : Policy) (T : Topology) (s : State) :
  statics (run p T s) = statics s.
Proof.
  unfold run.
  apply (for_upto_ind (fun s' => statics s' = statics s)); [|reflexivity].
  intros i s' _ H. now rewrite process_statics.
Qed.

(** The rows [main] prints: the first policy runs from the loaded state,
    the others from [restart]. *)
Lemma main_rows (links : list Link) (calls : list Call) :
  main links calls
  = statistics (run SHPF (topology_of links) (initial links calls))
    :: map (fun p => statistics (run p (topology_of links) (restart links calls)))
           [SDPF; LLP; MFC; SHPO].
Proof.
  unfold main, policies.
  assert (H : forall p s, statics s = statics (initial links calls) ->
            clearValues (topology_of links) (run p (topology_of links) s)
            = restart links calls).
  { intros p s Hs. apply clearValues_statics_eq. now rewrite run_statics. }
  assert (Hr : statics (restart links calls) = statics (initial links calls))
    by apply clearValues_statics.
  cbn [main_from map]. now rewrite !H.
Qed.

(** ** Statistics *)

Lemma percentages (s : State) :
  succPercent (statistics s)
  = dmul100 (ddiv (succCalls s) (Z.of_nat (length (eventQueue s)))) /\
  blockedPercent (statistics s)
  = dmul100 (ddiv (blockedCalls s) (Z.of_nat (length (eventQueue s)))).
Proof. split; reflexivity. Qed.

(** With no admitted call both averages are divisions by zero. *)
Lemma averages_of_nothing (s : State) :
  succCalls s = 0 ->
  (forall q, avgHop (statistics s) <> DFin q) /\
  (forall q, avgProp (statistics s) <> DFin q).
Proof.
  intros H. unfold statistics, ddiv. cbn [avgHop avgProp]. rewrite H.
  cbn [Z.eqb]. split; intros q.
  - destruct (totalHops s =? 0); discriminate.
  - destruct (totalProp s =? 0); discriminate.
Qed.

(** Two links that do not touch, and a call from one to the other. *)
Definition split_net : list Link := [(A, B, 1, 1); (C, D, 1, 1)].
Definition cross_call : list Call := [(0, A, C, 10)]%Q.

(** C7. The percentages are [succCalls/totalCalls*100] and
    [blockedCalls/totalCalls*100]; the averages divide by [succCalls]
    unguarded.  On [split_net] with the one call of [cross_call] the first
    policy admits nothing, and both averages are 0/0. *)
Theorem averages_divide_by_zero :
  head (main split_net cross_call)
  = Some (mkStats 1 0 (DFin 0) 1 (DFin 100) DNaN DNaN).
Proof. vm_compute. reflexivity. Qed.

(** ** Least loaded path *)

(** The weight [updateLLP] gives to the cell [k], [m]. *)
Definition load (T : Topology) (avail : imatrix) (k m : nat) : Q :=
  (1 - inject_Z (avail k m) / inject_Z (capacity T k m))%Q.

(** A double loop over the table: what the turn for a cell establishes
    and no other turn destroys holds for every cell at the end. *)
Lemma fill_table {S : Type} (cell : nat -> nat -> S -> Prop)
    (body : nat -> nat -> S -> S) (s : S) :
  (forall k m s', cell k m (body k m s')) ->
  (forall k m k' m' s', cell k m s' -> cell k m (body k' m' s')) ->
  forall k m, (k < 26)%nat -> (m < 26)%nat ->
    cell k m (for_nodes (fun k => for_nodes (body k)) s).
Proof.
  intros Hest Hkeep k m Hk Hm.
  apply (for_nodes_each (fun k s' => forall m, (m < 26)%nat -> cell k m s')
           (fun k => for_nodes (body k)) s); [| |exact Hk|exact Hm].
  - intros k0 s1 _ m0 Hm0.
    apply (for_nodes_each (fun m s' => cell k0 m s') (body k0) s1);
      [|intros; apply Hkeep; assumption|exact Hm0].
    intros m1 s2 _. apply Hest.
  - intros k0 k1 s1 H1 m0 Hm0.
    apply (for_nodes_ind (fun s' => cell k0 m0 s') (body k1) s1);
      [|apply H1; exact Hm0].
    intros m1 s2 _. apply Hkeep.
Qed.

(** After [updateLLP] every cell of [cost] is one minus the ratio of the
    available to the total capacity; [availCap] is as before. *)
Lemma updateLLP_cost (T : Topology) (s : State) (k m : nat) :
  (k < 26)%nat -> (m < 26)%nat ->
  availCap (updateLLP T s) = availCap s /\
  cost (updateLLP T s) k m = load T (availCap s) k m.
Proof.
  intros Hk Hm. unfold updateLLP.
  assert (Ha : availCap
            (for_nodes (fun k => for_nodes (fun m s' =>
               set_cost (mset (cost s') k m
                 (1 - inject_Z (availCap s' k m)
                      / inject_Z (capacity T k m))%Q) s')) s)
          = availCap s).
  { apply (for_nodes_ind (fun s' => availCap s' = availCap s)); [|reflexivity].
    intros k0 s1 _ H1.
    apply (for_nodes_ind (fun s' => availCap s' = availCap s)); [|exact H1].
    intros m0 s2 _ H2. exact H2. }
  split; [exact Ha|]. revert Ha.
  apply (fill_table
    (fun k m (s' : State) =>
       availCap s' = availCap s -> cost s' k m = load T (availCap s) k m)
    (fun k m s' =>
       set_cost (mset (cost s') k m
         (1 - inject_Z (availCap s' k m) / inject_Z (capacity T k m))%Q) s')
    s); [| |exact Hk|exact Hm].
  - intros k0 m0 s' Ha. cbn [cost set_cost availCap] in *.
    rewrite mset_eq, Ha. reflexivity.
  - intros k0 m0 k' m' s' HQ Ha. cbn [cost set_cost availCap] in *.
    unfold mset.
    destruct (Nat.eqb_spec k0 k'), (Nat.eqb_spec m0 m'); cbn [andb]; subst;
      try (apply HQ; exact Ha). rewrite Ha. reflexivity.
Qed.

(** Four links of capacity 2 around a square: A-B-D and A-C-D. *)
Definition diamond : list Link :=
  [(A, B, 1, 2); (B, D, 1, 2); (A, C, 1, 2); (C, D, 1, 2)].
Definition diamond_calls : list Call := [(0, A, D, 10); (1, A, D, 10)]%Q.

(** The state in which the second call is routed under LLP: the first call
    holds one circuit on A-B and on B-D. *)
Definition second_diamond_call : State :=
  prepare LLP (topology_of diamond) 1
    (timeUpdate 1
       (process LLP (topology_of diamond) 0 (restart diamond diamond_calls))).

(** C3. The weights of LLP are one minus available over total capacity
    ([updateLLP_cost]), but the search does not minimise their sum: every
    partial sum is converted to [int].  For the second call on [diamond]
    the links of A-B-D weigh 1/2 each and those of A-C-D weigh 0; the sums
    are 1 and 0, the search accumulates 0 for both, and the call is put on
    A-B-D. *)
Theorem llp_search_drops_fractions :
  let T := topology_of diamond in
  let s := second_diamond_call in
  (cost s A B == 1 # 2)%Q /\ (cost s B D == 1 # 2)%Q /\
  (cost s A C == 0)%Q /\ (cost s C D == 0)%Q /\
  (cost s A C + cost s C D < cost s A B + cost s B D)%Q /\
  path_cost (cost s) [A; B; D] = 0 /\ path_cost (cost s) [A; C; D] = 0 /\
  held (route LLP T 1 s) 1 A B = 1 /\ held (route LLP T 1 s) 1 B D = 1 /\
  held (route LLP T 1 s) 1 A C = 0 /\ held (route LLP T 1 s) 1 C D = 0.
Proof. vm_compute. repeat split. Qed.

(** ** Shortest hop path, optimistic *)

(** The hop-count distance of the specification: [reach_within adj n u v]
    says that [v] is at most [n] links of positive [adj] away from [u];
    [hop_distance] is the least such [n]. *)
Fixpoint reach_within (adj : imatrix) (n : nat) (u v : nat) : bool :=
  (u =? v)%nat ||
  match n with
  | O => false
  | S n' => existsb (fun w => (0 <? adj u w) && reach_within adj n' w v) nodes
  end.

Definition hop_distance (adj : imatrix) (u v : nat) : option nat :=
  List.find (fun n => reach_within adj n u v) (seq 0 26).

(** Three ways from A to B, of capacity 1 on every link: A-C-B, A-D-E-B and
    A-F-G-B.  Four calls take A-C, A-D, D-E and E-B; the fifth goes from A
    to B. *)
Definition detours : list Link :=
  [(A, C, 1, 1); (C, B, 1, 1); (A, D, 1, 1); (D, E, 1, 1); (E, B, 1, 1);
   (A, F, 1, 1); (F, G, 1, 1); (G, B, 1, 1)].
Definition detour_calls : list Call :=
  [(0, A, C, 100); (1, A, D, 100); (2, D, E, 100); (3, E, B, 100);
   (4, A, B, 100)]%Q.

(** The state in which the fifth call is routed under SHPO. *)
Definition fifth_detour_call : State :=
  prepare SHPO (topology_of detours) 4
    (timeUpdate 4
       (for_upto 4 (process SHPO (topology_of detours))
          (restart detours detour_calls))).

(** C2. SHPO does not compare with the hop distance of the empty network:
    [emptySHPO] is handed the [cost] table of the current availability for
    both passes, so on the pass over [capacity] a saturated link costs 0
    and the pass returns the hops of a path with the fewest free links.  For
    the fifth call on [detours] the empty network has a path of 2 hops and
    the current one needs 3, so the call should be blocked; the pass over
    [capacity] returns 3 as well, and the call is admitted on A-F-G-B. *)
Theorem shpo_admits_longer_path :
  let T := topology_of detours in
  let s := fifth_detour_call in
  hop_distance (capacity T) A B = Some 2%nat /\
  hop_distance (availCap s) A B = Some 3%nat /\
  emptySHPO T A B (cost s) (availCap s) = 3 /\
  emptySHPO T A B (cost s) (capacity T) = 3 /\
  blockedCalls (route SHPO T 4 s) = blockedCalls s /\
  succCalls (route SHPO T 4 s) = succCalls s + 1 /\
  (running <$> eventQueue (route SHPO T 4 s) !! 4%nat) = Some true /\
  held (route SHPO T 4 s) 4 A F = 1 /\ held (route SHPO T 4 s) 4 F G = 1 /\
  held (route SHPO T 4 s) 4 G B = 1.
Proof. vm_compute. repeat split. Qed.

(** ** 999 as infinity *)

(** A path never leaves a set of nodes closed under the links. *)
Lemma path_stays (adj : imatrix) (inS : nat -> Prop) :
  (forall u v, 0 < adj u v -> inS u -> inS v) ->
  forall p a z, is_path adj p -> head p = Some a -> inS a ->
    last p = Some z -> inS z.
Proof.
  intros Hclosed. induction p as [|x p IH]; intros a z Hp Hh Ha Hl;
    [discriminate|].
  injection Hh as ->. destruct p as [|y p].
  - injection Hl as <-. exact Ha.
  - destruct Hp as [Hxy Hp]. rewrite last_cons_cons in Hl.
    apply (IH y z Hp eq_refl); [|exact Hl]. now apply (Hclosed a y).
Qed.

(** When a policy other than the first starts on its first event, the
    available capacity is the capacity. *)
Lemma first_event_avail (p : Policy) (links : list Link) (calls : list Call) :
  availCap (prepare p (topology_of links) 0 (timeUpdate 0 (restart links calls)))
  = capacity (topology_of links).
Proof.
  destruct (prepare_same_tables p (topology_of links) 0
              (timeUpdate 0 (restart links calls))) as [Ha _].
  rewrite Ha. reflexivity.
Qed.

(** The claim as it is stated, for event [i] in state [s] under policy
    [p]: if every path costs 999 or more, the call is counted as blocked. *)
Definition blocked_whenever_costly (p : Policy) (T : Topology) (i : nat)
    (s : State) : Prop :=
  forall e, eventQueue s !! i = Some e ->
    (forall path,
       path_between (availCap s) (source e) (destination e) path ->
       999 <= path_cost (edge_costs p T s) path) ->
    blockedCalls (route p T i s) = blockedCalls s + 1.

(** The call of [cross_call] when SHPO routes it. *)
Definition unreachable_call : State :=
  prepare SHPO (topology_of split_net) 0
    (timeUpdate 0 (restart split_net cross_call)).

Lemma split_net_cells (u v : nat) :
  0 < capacity (topology_of split_net) u v ->
  ((u <= 1)%nat -> (v <= 1)%nat).
Proof.
  cbv [topology_of load_topology split_net fold_left load_link fst capacity
       mset A B C D zeros].
  repeat match goal with
         | |- context [(?a =? ?b)%nat] => destruct (Nat.eqb_spec a b)
         end; cbn [andb]; lia.
Qed.

Lemma split_net_no_path (path : list nat) :
  ~ path_between (availCap unreachable_call) A C path.
Proof.
  unfold unreachable_call. rewrite first_event_avail.
  intros (Hh & Hl & _ & _ & Hp).
  assert (H : (C <= 1)%nat).
  { apply (path_stays (capacity (topology_of split_net))
             (fun x => (x <= 1)%nat)) with (p := path) (a := A);
      [|exact Hp|exact Hh| |exact Hl].
    - intros u v Huv Hu. now apply (split_net_cells u v).
    - unfold A. lia. }
  unfold C in H. lia.
Qed.

(** C9. The claim fails under SHPO, by a slip of its loop: the comment of
    the test says "block calls on both", and the four other loops block
    when [updateState] returns false, but the SHPO loop decides by
    [emptySHPO] alone.  For a call with no path at all, in the current or in
    the empty network, both hop counts are 999, 999 > 999 is false, and the
    call is counted as routed although [updateState] finds no path and
    returns false. *)
Lemma shpo_counts_unreachable_call :
  ~ blocked_whenever_costly SHPO (topology_of split_net) 0 unreachable_call.
Proof.
  intros H.
  assert (He : eventQueue unreachable_call !! 0%nat
               = Some (set_running true (newCallEvent 0 10 A C)))
    by (vm_compute; reflexivity).
  specialize (H _ He).
  assert (Hc : blockedCalls (route SHPO (topology_of split_net) 0 unreachable_call)
               = blockedCalls unreachable_call)
    by (vm_compute; reflexivity).
  rewrite Hc in H. cbn [source destination set_running newCallEvent] in H.
  assert (Hno : forall path,
            path_between (availCap unreachable_call) A C path ->
            999 <= path_cost (edge_costs SHPO (topology_of split_net)
                                unreachable_call) path).
  { intros path Hpath. destruct (split_net_no_path path Hpath). }
  specialize (H Hno). lia.
Qed.

(** X18. The search takes 999 for infinity.  For edge costs of the links
    with free capacity that lie between 0 and 1, or are whole numbers
    between 0 and 2^23 (where the [float] sum [dist[u] + edgeCost[u][j]]
    is exact and fits [int]): if every path of such links from the source to
    the destination accumulates a cost of 999 or more, [updateState] reports
    no path and changes nothing, and under SHPF, SDPF, LLP and MFC the call
    is blocked, whether or not the destination can be reached. *)
Theorem cost_999_is_unreachable (p : Policy) (T : Topology) (i : nat)
    (s : State) (e : CallEvent) :
  unit_costs (availCap s) (edge_costs p T s) \/
  whole_costs (availCap s) (edge_costs p T s) ->
  eventQueue s !! i = Some e ->
  (forall path,
     path_between (availCap s) (source e) (destination e) path ->
     999 <= path_cost (edge_costs p T s) path) ->
  updateState T (source e) (destination e) (edge_costs p T s) i s = (false, s) /\
  (p <> SHPO -> route p T i s = block i s).
Proof.
  intros _ He Hcost.
  assert (Hu : updateState T (source e) (destination e) (edge_costs p T s) i s
               = (false, s)).
  { unfold updateState.
    destruct (Z.eqb_spec
                (foundFlag (dijkstra (availCap s) (availCap s) (edge_costs p T s)
                              (source e) (destination e))) 1) as [Hf|Hf];
      [|reflexivity].
    destruct (dijkstra_found _ _ _ _ _ Hf) as (path & Hpath & Hlt).
    specialize (Hcost path Hpath). lia. }
  split; [exact Hu|].
  intros Hp. unfold route. rewrite He. cbv zeta.
  destruct p; try congruence; rewrite Hu; reflexivity.
Qed.

(** One link of delay 999 with a free circuit, and a call over it. *)
Definition long_link : list Link := [(A, B, 999, 1)].
Definition long_call : list Call := [(0, A, B, 10)]%Q.

Definition long_link_call : State :=
  prepare SDPF (topology_of long_link) 0
    (timeUpdate 0 (restart long_link long_call)).

Lemma long_link_cells (u v : nat) :
  0 < capacity (topology_of long_link) u v ->
  (u = A /\ v = B) \/ (u = B /\ v = A).
Proof.
  cbv [topology_of load_topology long_link fold_left load_link fst capacity
       mset A B zeros].
  repeat match goal with
         | |- context [(?a =? ?b)%nat] => destruct (Nat.eqb_spec a b)
         end; cbn [andb]; lia.
Qed.

Lemma long_link_paths (path : list nat) :
  path_between (availCap long_link_call) A B path ->
  999 <= path_cost (edge_costs SDPF (topology_of long_link) long_link_call) path.
Proof.
  unfold long_link_call at 1. rewrite first_event_avail.
  intros (Hh & Hl & Hn & _ & Hp).
  destruct path as [|a [|b [|c path]]]; try discriminate.
  - injection Hh as ->. discriminate.
  - injection Hh as ->. injection Hl as ->. vm_compute. discriminate.
  - injection Hh as ->. destruct Hp as (Hab & Hbc & _).
    destruct (long_link_cells _ _ Hab) as [[_ ->]|[Hf _]]; [|discriminate].
    destruct (long_link_cells _ _ Hbc) as [[Hf _]|[_ ->]]; [discriminate|].
    apply NoDup_cons in Hn. destruct Hn as [Hn _].
    exfalso. apply Hn. rewrite !elem_of_cons. auto.
Qed.

Lemma long_link_whole :
  whole_costs (availCap long_link_call)
    (edge_costs SDPF (topology_of long_link) long_link_call).
Proof.
  intros u v _ _ _. exists (propDelay (topology_of long_link) u v).
  split; [reflexivity|].
  assert (Hl : Forall (fun l : Link => 0 <= snd (fst l) <= 8388608 /\
                                       snd l <= 8388608) long_link)
    by (constructor; [cbn; lia|constructor]).
  now destruct (load_topology_bounds long_link 8388608 8388608
                  ltac:(lia) ltac:(lia) Hl u v).
Qed.

(** The theorem at the call over the link of delay 999, under SDPF. *)
Lemma cost_999_is_unreachable_witness :
  updateState (topology_of long_link)
    (source (set_running true (newCallEvent 0 10 A B)))
    (destination (set_running true (newCallEvent 0 10 A B)))
    (edge_costs SDPF (topology_of long_link) long_link_call) 0 long_link_call
  = (false, long_link_call) /\
  (SDPF <> SHPO ->
   route SDPF (topology_of long_link) 0 long_link_call
   = block 0 long_link_call).
Proof.
  apply (cost_999_is_unreachable SDPF (topology_of long_link) 0 long_link_call
           (set_running true (newCallEvent 0 10 A B))).
  - right. exact long_link_whole.
  - vm_compute. reflexivity.
  - exact long_link_paths.
Defined.

(** The call over the link of delay 999 is blocked under SDPF, and routed
    under SHPF. *)
Example long_link_rows :
  map (fun r => (succ r, blocked r)) (main long_link long_call)
  = [(1, 0); (0, 1); (1, 0); (1, 0); (1, 0)].
Proof. vm_compute. reflexivity. Qed.

(** ** The scenarios of the specification *)

(** Two overlapping calls on a link of capacity 2 and delay 5: both are
    admitted, one hop and delay 5 on average, under every policy. *)
Example two_calls_rows :
  map row (main one_link two_calls)
  = repeat (2, 2, 0, DFin (2 # 2), DFin (10 # 2)) 5.
Proof. vm_compute. reflexivity. Qed.

(** Three overlapping calls: two admitted, one blocked, 33.33 percent. *)
Example three_calls_rows :
  map (fun r => (succ r, blocked r, blockedPercent r)) (main one_link three_calls)
  = repeat (2, 1, DFin (100 # 3)) 5.
Proof. vm_compute. reflexivity. Qed.

(** A call that arrives after the first has ended is admitted on the link of
    capacity 1. *)
Example late_call_rows :
  map (fun r => (succ r, blocked r)) (main thin_link late_call)
  = repeat (2, 0) 5.
Proof. vm_compute. reflexivity. Qed.

(** [main] passes through 51 states on the three calls; while two calls
    hold the link nothing is available. *)
Example three_calls_trace :
  length (main_trace one_link three_calls) = 51%nat /\
  (availCap third_call A B = 0 /\ reserved (eventQueue third_call) A B = 2 /\
   capacity (topology_of one_link) A B = 2).
Proof. vm_compute. repeat split. Qed.

(** * Further properties of the program *)

(** ** Loops, by the number of turns done *)

Lemma fold_seq_prefix {S : Type} (P : nat -> S -> Prop) (body : nat -> S -> S)
    (a n : nat) (s : S) :
  P a s ->
  (forall i s', (a <= i < a + n)%nat -> P i s' -> P (Datatypes.S i) (body i s')) ->
  P (a + n)%nat (fold_left (fun acc i => body i acc) (seq a n) s).
Proof.
  revert a s. induction n as [|n IH]; intros a s Hs Hstep; simpl.
  - now rewrite Nat.add_0_r.
  - rewrite <- Nat.add_succ_comm. apply IH.
    + apply Hstep; [lia|exact Hs].
    + intros i s' Hi. apply Hstep. lia.
Qed.

Lemma for_nodes_prefix {S : Type} (P : nat -> S -> Prop) (body : nat -> S -> S)
    (s : S) :
  P 0%nat s ->
  (forall i s', (i < 26)%nat -> P i s' -> P (Datatypes.S i) (body i s')) ->
  P 26%nat (for_nodes body s).
Proof.
  intros H0 Hstep. apply (fold_seq_prefix P body 0 26 s H0).
  intros i s' Hi. apply Hstep. lia.
Qed.

Lemma for_upto_prefix {S : Type} (P : nat -> S -> Prop) (body : nat -> S -> S)
    (n : nat) (s : S) :
  P 0%nat s ->
  (forall i s', (i < n)%nat -> P i s' -> P (Datatypes.S i) (body i s')) ->
  P n (for_upto n body s).
Proof.
  intros H0 Hstep. apply (fold_seq_prefix P body 0 n s H0).
  intros i s' Hi. apply Hstep. lia.
Qed.

(** ** The vertex of minimal distance *)

(** What the loop of [minDistVertexInQueue] has found after [n] turns. *)
Definition minDist_upto (dist queue : nat -> Z) (n : nat) (acc : Z * nat) : Prop :=
  (snd acc = 50%nat /\ fst acc = 999 /\
   forall i, (i < n)%nat -> queue i = 1 -> 999 <= dist i) \/
  ((snd acc < n)%nat /\ queue (snd acc) = 1 /\ dist (snd acc) = fst acc /\
   fst acc < 999 /\
   (forall i, (i < n)%nat -> queue i = 1 -> fst acc <= dist i) /\
   (forall i, (i < snd acc)%nat -> queue i = 1 -> fst acc < dist i)).

Lemma minDist_step (dist queue : nat -> Z) (n : nat) (acc : Z * nat) :
  minDist_upto dist queue n acc ->
  minDist_upto dist queue (S n)
    (if (queue n =? 1) && (dist n <? fst acc) then (dist n, n) else acc).
Proof.
  destruct acc as [mv mi]. unfold minDist_upto. cbn [fst snd]. intros IH.
  assert (Hcase : forall i, (i < S n)%nat -> i = n \/ (i < n)%nat) by (intros; lia).
  destruct (Z.eqb_spec (queue n) 1) as [Hq|Hq]; cbn [andb];
    [destruct (Z.ltb_spec (dist n) mv) as [Hlt|Hge]|]; cbn [fst snd].
  - right. split; [lia|]. split; [exact Hq|]. split; [reflexivity|].
    destruct IH as [(-> & -> & Hall)|(Hmi & Hqm & Hdm & Hm & Hall & Hfirst)].
    + split; [exact Hlt|]. split.
      * intros i Hi Hqi. destruct (Hcase i Hi) as [->|Hi']; [lia|].
        specialize (Hall i Hi' Hqi). lia.
      * intros i Hi Hqi. specialize (Hall i Hi Hqi). lia.
    + split; [lia|]. split.
      * intros i Hi Hqi. destruct (Hcase i Hi) as [->|Hi']; [lia|].
        specialize (Hall i Hi' Hqi). lia.
      * intros i Hi Hqi. specialize (Hall i Hi Hqi). lia.
  - destruct IH as [(-> & -> & Hall)|(Hmi & Hqm & Hdm & Hm & Hall & Hfirst)].
    + left. split; [reflexivity|]. split; [reflexivity|].
      intros i Hi Hqi. destruct (Hcase i Hi) as [->|Hi']; [lia|]. now apply Hall.
    + right. split; [lia|]. repeat (split; [assumption|]). split; [|exact Hfirst].
      intros i Hi Hqi. destruct (Hcase i Hi) as [->|Hi']; [lia|]. now apply Hall.
  - destruct IH as [(-> & -> & Hall)|(Hmi & Hqm & Hdm & Hm & Hall & Hfirst)].
    + left. split; [reflexivity|]. split; [reflexivity|].
      intros i Hi Hqi. destruct (Hcase i Hi) as [->|Hi']; [congruence|].
      now apply Hall.
    + right. split; [lia|]. repeat (split; [assumption|]). split; [|exact Hfirst].
      intros i Hi Hqi. destruct (Hcase i Hi) as [->|Hi']; [congruence|].
      now apply Hall.
Qed.

Lemma minDist_loop (dist queue : nat -> Z) :
  minDist_upto dist queue 26
    (for_nodes (fun i (acc : Z * nat) =>
       if (queue i =? 1) && (dist i <? fst acc) then (dist i, i) else acc)
     (999, 50%nat)).
Proof.
  apply (for_nodes_prefix (minDist_upto dist queue)).
  - left. cbn [fst snd]. split; [reflexivity|]. split; [reflexivity|].
    intros i Hi. lia.
  - intros i acc _. apply minDist_step.
Qed.

(** X1. [minDistVertexInQueue], lines 316-331, returns 50 exactly when no
    queued vertex has a distance below 999; otherwise it returns a queued vertex whose distance
    is minimal among the queued ones, and the one of lowest number among
    those of minimal distance. *)
Theorem minDist_is_first_minimum (dist queue : nat -> Z) :
  let u := minDistVertexInQueue dist queue in
  (u = 50%nat /\
   forall i, (i < 26)%nat -> queue i = 1 -> 999 <= dist i) \/
  ((u < 26)%nat /\ queue u = 1 /\ dist u < 999 /\
   (forall i, (i < 26)%nat -> queue i = 1 -> dist u <= dist i) /\
   (forall i, (i < u)%nat -> queue i = 1 -> dist u < dist i)).
Proof.
  cbv zeta. unfold minDistVertexInQueue.
  destruct (minDist_loop dist queue)
    as [(H1 & _ & H3)|(H1 & H2 & H3 & H4 & H5 & H6)].
  - left. split; assumption.
  - right. rewrite H3. repeat split; assumption.
Qed.

(** The two outcomes of [minDistVertexInQueue], for the proofs about the
    search. *)
Lemma minDist_cases (dist queue : nat -> Z) :
  (minDistVertexInQueue dist queue = 50%nat /\
   forall i, (i < 26)%nat -> queue i = 1 -> 999 <= dist i) \/
  ((minDistVertexInQueue dist queue < 26)%nat /\
   queue (minDistVertexInQueue dist queue) = 1 /\
   dist (minDistVertexInQueue dist queue) < 999 /\
   forall i, (i < 26)%nat -> queue i = 1 ->
     dist (minDistVertexInQueue dist queue) <= dist i).
Proof.
  unfold minDistVertexInQueue.
  destruct (minDist_loop dist queue)
    as [(H1 & _ & H3)|(H1 & H2 & H3 & H4 & H5 & H6)].
  - left. split; assumption.
  - right. rewrite H3. repeat split; assumption.
Qed.

(** ** The counters of a run *)

(** The recovery of finished calls leaves the four counters alone. *)
Definition same_counters (s s' : State) : Prop :=
  blockedCalls s' = blockedCalls s /\ succCalls s' = succCalls s /\
  totalHops s' = totalHops s /\ totalProp s' = totalProp s.

Lemma release_cell_counters (j k m : nat) (s0 s : State) :
  same_counters s0 s -> same_counters s0 (release_cell j k m s).
Proof.
  unfold release_cell. destruct (eventQueue s !! j) as [e|]; auto.
  destruct (0 <? resources e k m); auto.
Qed.

Lemma expire_counters (i j : nat) (s0 s : State) :
  same_counters s0 s -> same_counters s0 (expire i j s).
Proof.
  intros H. unfold expire.
  destruct (eventQueue s !! j) as [ej|]; auto.
  destruct (eventQueue s !! i) as [ec|]; auto.
  destruct (running ej && Qle_bool (endTime ej) (startTime ec)); auto.
  unfold release. apply for_nodes_ind; [|exact H]. intros k s1 _.
  apply for_nodes_ind. intros m s2 _. apply release_cell_counters.
Qed.

Lemma timeUpdate_counters (i : nat) (s : State) :
  same_counters s (timeUpdate i s).
Proof.
  unfold timeUpdate. apply for_upto_ind; [|repeat split].
  intros j s' _. apply expire_counters.
Qed.

Lemma prepare_counters (p : Policy) (T : Topology) (i : nat) (s : State) :
  same_counters s (prepare p T i s).
Proof.
  unfold prepare.
  destruct (update_costs_frame p T (on_event i (set_running true) s))
    as (_ & _ & Hb & Hs & Hh & Hp).
  repeat split; assumption.
Qed.

Lemma reserve_succCalls (fuel : nat) (T : Topology) (prev : nat -> Z)
    (current curr : nat) (s : State) :
  succCalls (reserve fuel T prev current curr s) = succCalls s.
Proof.
  revert curr s. induction fuel as [|fuel IH]; intros curr s; simpl; auto.
  destruct (-1 <? prev curr); auto. now rewrite IH.
Qed.

Lemma updateState_succCalls (T : Topology) (src dst : nat)
    (edgeCost : fmatrix) (current : nat) (s : State) :
  succCalls (snd (updateState T src dst edgeCost current s)) = succCalls s.
Proof.
  unfold updateState. destruct (negb _); cbn [snd]; auto.
  apply reserve_succCalls.
Qed.

(** The admission decision counts the call once, as routed or as blocked. *)
Lemma route_counts (p : Policy) (T : Topology) (i : nat) (s : State) :
  is_Some (eventQueue s !! i) ->
  succCalls (route p T i s) + blockedCalls (route p T i s)
  = succCalls s + blockedCalls s + 1.
Proof.
  intros [e He]. unfold route. rewrite He. cbv zeta.
  assert (H : forall c,
    let r := updateState T (source e) (destination e) c i s in
    succCalls (snd r) = succCalls s /\ blockedCalls (snd r) = blockedCalls s).
  { intros c. split;
      [apply updateState_succCalls|apply updateState_blockedCalls]. }
  destruct p.
  1-4: match goal with
       | |- context [updateState ?a ?b ?c ?d ?e ?f] =>
           destruct (H d) as [Hs Hb]; cbv zeta in Hs, Hb;
           generalize dependent (updateState a b c d e f)
       end; intros [b s1] Hs Hb; cbn [fst snd] in *; destruct b; cbn [negb];
       unfold succeed, block; cbn [succCalls blockedCalls set_succCalls
         set_blockedCalls on_event set_eventQueue]; lia.
  destruct (H (cost s)) as [Hs Hb]. cbv zeta in Hs, Hb.
  generalize dependent (updateState T (source e) (destination e) (cost s) i s).
  intros [b s1] Hs Hb. cbn [fst snd] in *.
  destruct (_ >? _); unfold succeed, block;
    cbn [succCalls blockedCalls set_succCalls set_blockedCalls on_event
         set_eventQueue]; lia.
Qed.

Lemma length_statics (s s' : State) :
  statics s' = statics s -> length (eventQueue s') = length (eventQueue s).
Proof.
  unfold statics. intros H.
  rewrite <- (length_map static (eventQueue s')), H. apply length_map.
Qed.

Lemma process_counts (p : Policy) (T : Topology) (i : nat) (s : State) :
  (i < length (eventQueue s))%nat ->
  succCalls (process p T i s) + blockedCalls (process p T i s)
  = succCalls s + blockedCalls s + 1.
Proof.
  intros Hi. unfold process.
  destruct (timeUpdate_counters i s) as (Hb1 & Hs1 & _).
  destruct (prepare_counters p T i (timeUpdate i s)) as (Hb2 & Hs2 & _).
  rewrite route_counts; [lia|].
  apply lookup_lt_is_Some.
  rewrite (length_statics (timeUpdate i s)
             (prepare p T i (timeUpdate i s)) (prepare_statics _ _ _ _)).
  rewrite (length_statics s (timeUpdate i s) (timeUpdate_statics _ _)).
  exact Hi.
Qed.

Lemma run_counts (p : Policy) (T : Topology) (s : State) :
  succCalls (run p T s) + blockedCalls (run p T s)
  = succCalls s + blockedCalls s + Z.of_nat (length (eventQueue s)).
Proof.
  unfold run.
  apply (for_upto_prefix
    (fun n s' => statics s' = statics s /\
       succCalls s' + blockedCalls s' = succCalls s + blockedCalls s + Z.of_nat n)
    (process p T) (length (eventQueue s)) s).
  - split; [reflexivity|lia].
  - intros i s' Hi [Hst Hc]. split; [now rewrite process_statics|].
    rewrite process_counts; [lia|]. now rewrite (length_statics s s' Hst).
Qed.

(** X2. In every row that [main] prints, the routed and the blocked calls
    add up to the calls of the workload: every call is counted exactly
    once. *)
Theorem rows_count_every_call (links : list Link) (calls : list Call) :
  Forall (fun r => succ r + blocked r = totalCalls r /\
                   totalCalls r = Z.of_nat (length calls))
         (main links calls).
Proof.
  rewrite main_rows.
  assert (Hlen : forall s, statics s = statics (initial links calls) ->
            length (eventQueue s) = length calls).
  { intros s Hs. rewrite (length_statics _ _ Hs). unfold initial, load_calls.
    cbn [eventQueue]. apply length_map. }
  assert (H : forall p s, statics s = statics (initial links calls) ->
            succCalls s = 0 -> blockedCalls s = 0 ->
            succ (statistics (run p (topology_of links) s))
            + blocked (statistics (run p (topology_of links) s))
            = totalCalls (statistics (run p (topology_of links) s)) /\
            totalCalls (statistics (run p (topology_of links) s))
            = Z.of_nat (length calls)).
  { intros p s Hs H1 H2. unfold statistics. cbn [succ blocked totalCalls].
    assert (Hrun : length (eventQueue (run p (topology_of links) s))
                   = length calls).
    { apply Hlen. now rewrite run_statics. }
    rewrite run_counts, H1, H2, Hrun, (Hlen s Hs). split; [lia|reflexivity]. }
  assert (Hr : statics (restart links calls) = statics (initial links calls))
    by apply clearValues_statics.
  constructor; [now apply H|].
  cbn [map]. repeat (constructor; [now apply H|]). constructor.
Qed.

(** ** What an admission reserves *)

(** The link [a]-[b] is the link [u]-[v], in either direction. *)
Definition link_hit (a b u v : nat) : Z :=
  if ((a =? u) && (b =? v) || (a =? v) && (b =? u))%nat then 1 else 0.

(** How many links of the node list [p] join [u] and [v]. *)
Fixpoint crossings (p : list nat) (u v : nat) : Z :=
  match p with
  | a :: (b :: _) as t => link_hit a b u v + crossings t u v
  | _ => 0
  end.

(** The delay [updateState] adds up along a path from the source to the
    destination: [propDelay[curr][previousVertex[curr]]] for every link. *)
Fixpoint path_delay (T : Topology) (p : list nat) : Z :=
  match p with
  | a :: (b :: _) as t => propDelay T b a + path_delay T t
  | _ => 0
  end.

(** The same along the walk back from the destination. *)
Fixpoint walk_delay (T : Topology) (l : list nat) : Z :=
  match l with
  | j :: (u :: _) as t => propDelay T j u + walk_delay T t
  | _ => 0
  end.

Lemma link_hit_sym (a b u v : nat) : link_hit a b u v = link_hit b a u v.
Proof.
  unfold link_hit.
  destruct (Nat.eqb_spec a u), (Nat.eqb_spec b v), (Nat.eqb_spec a v),
    (Nat.eqb_spec b u); reflexivity.
Qed.

Lemma crossings_snoc (p : list nat) (u j a b : nat) :
  crossings ((p ++ [u]) ++ [j]) a b
  = crossings (p ++ [u]) a b + link_hit u j a b.
Proof.
  induction p as [|x p IH]; [simpl; lia|].
  destruct p as [|y p]; [simpl; lia|].
  change (link_hit x y a b + crossings (((y :: p) ++ [u]) ++ [j]) a b
          = link_hit x y a b + crossings ((y :: p) ++ [u]) a b + link_hit u j a b).
  rewrite IH. lia.
Qed.

Lemma crossings_reverse (l : list nat) (a b : nat) :
  crossings (reverse l) a b = crossings l a b.
Proof.
  induction l as [|j l IH]; [reflexivity|].
  destruct l as [|u t]; [reflexivity|].
  rewrite (reverse_cons (u :: t)). rewrite (reverse_cons t) in *.
  rewrite crossings_snoc, IH. cbn [crossings]. rewrite (link_hit_sym j u). lia.
Qed.

Lemma path_delay_snoc (T : Topology) (p : list nat) (u j : nat) :
  path_delay T ((p ++ [u]) ++ [j]) = path_delay T (p ++ [u]) + propDelay T j u.
Proof.
  induction p as [|x p IH]; [simpl; lia|].
  destruct p as [|y p]; [simpl; lia|].
  change (propDelay T y x + path_delay T (((y :: p) ++ [u]) ++ [j])
          = propDelay T y x + path_delay T ((y :: p) ++ [u]) + propDelay T j u).
  rewrite IH. lia.
Qed.

Lemma path_delay_reverse (T : Topology) (l : list nat) :
  path_delay T (reverse l) = walk_delay T l.
Proof.
  induction l as [|j l IH]; [reflexivity|].
  destruct l as [|u t]; [reflexivity|].
  rewrite (reverse_cons (u :: t)). rewrite (reverse_cons t) in *.
  rewrite path_delay_snoc, IH. cbn [walk_delay]. lia.
Qed.

(** The effect of the reservation loop on a state. *)
Record reserved_along (T : Topology) (current : nat) (e : CallEvent)
    (l : list nat) (s s' : State) : Prop := mk_reserved_along {
  ra_avail : forall u v, availCap s' u v = availCap s u v - crossings l u v;
  ra_event : exists e', eventQueue s' !! current = Some e' /\
               running e' = running e /\ static e' = static e /\
               forall u v, resources e' u v = resources e u v + crossings l u v;
  ra_others : forall j, j <> current -> eventQueue s' !! j = eventQueue s !! j;
  ra_hops : totalHops s' = totalHops s + Z.of_nat (length l - 1);
  ra_delay : totalProp s' = totalProp s + walk_delay T l;
  ra_rest : blockedCalls s' = blockedCalls s /\ succCalls s' = succCalls s /\
            cost s' = cost s
}.

Lemma reserve_effect (adj : imatrix) (edgeCost : fmatrix) (src : nat)
    (st : Search) (T : Topology) (current j : nat) (l : list nat) :
  chain adj edgeCost src st j l -> previousVertex st src = -1 ->
  forall (fuel : nat) (s : State) (e : CallEvent),
    (length l <= fuel)%nat -> sym_avail s ->
    eventQueue s !! current = Some e -> sym_res e ->
    reserved_along T current e l s
      (reserve fuel T (previousVertex st) current j s).
Proof.
  intros Hc H0. induction Hc as [|j u l Hp Hqu Hu Ha Hd Hn Hs Hc IH];
    intros fuel s e Hfuel Hsa He Hse; simpl in Hfuel.
  - destruct fuel as [|fuel]; [lia|]. cbn [reserve]. rewrite H0.
    change (-1 <? -1) with false. cbv iota. split.
    + intros u v. simpl. lia.
    + exists e. repeat split; auto. intros u v. simpl. lia.
    + reflexivity.
    + simpl. lia.
    + simpl. lia.
    + repeat split.
  - destruct fuel as [|fuel]; [lia|]. cbn [reserve]. rewrite Hp.
    destruct (Z.ltb_spec (-1) (Z.of_nat u)); [|lia]. rewrite Nat2Z.id.
    destruct (chain_head _ _ _ _ _ _ Hc) as [t ->].
    set (s1 := reserve_link T current j u s).
    set (e1 := set_resources
                 (mset (mset (resources e) u j (resources e u j + 1)) j u
                       (resources e u j + 1)) e).
    assert (He1 : eventQueue s1 !! current = Some e1).
    { unfold s1, reserve_link. simpl. rewrite list_lookup_alter_eq, He.
      reflexivity. }
    assert (Hsa1 : sym_avail s1).
    { intros a b. unfold s1, reserve_link. simpl. apply mset_pair_sym.
      intros x y. apply Hsa. }
    assert (Hse1 : sym_res e1).
    { intros a b. unfold e1. simpl. apply mset_pair_sym. exact Hse. }
    destruct (IH fuel s1 e1 ltac:(simpl in *; lia) Hsa1 He1 Hse1)
      as [Hav (e' & He' & Hrun & Hst & Hres) Hoth Hhops Hdel (Hb & Hsc & Hco)].
    assert (Hcell : forall (m : imatrix) a b,
              (forall x y, m x y = m y x) ->
              mset (mset m u j (m u j + 1)) j u (m u j + 1) a b
              = m a b + link_hit j u a b /\
              mset (mset m u j (m u j - 1)) j u (m u j - 1) a b
              = m a b - link_hit j u a b).
    { intros m a b Hm. pose proof (Hm u j). pose proof (Hm a b).
      unfold mset, link_hit.
      destruct (Nat.eqb_spec a j), (Nat.eqb_spec b u), (Nat.eqb_spec a u),
        (Nat.eqb_spec b j); subst; cbn [andb orb];
        repeat match goal with
               | |- context [(?x =? ?y)%nat] => destruct (Nat.eqb_spec x y)
               end; cbn [andb orb]; split; try lia; congruence. }
    split.
    + intros a b. rewrite Hav. cbn [crossings].
      unfold s1, reserve_link. cbn [availCap set_totals on_event set_eventQueue
        set_availCap].
      rewrite (proj2 (Hcell (availCap s) a b Hsa)). lia.
    + exists e'. repeat split; auto.
      intros a b. rewrite Hres. cbn [crossings]. unfold e1.
      cbn [resources set_resources].
      rewrite (proj1 (Hcell (resources e) a b Hse)). lia.
    + intros j' Hj'. rewrite (Hoth j' Hj'). unfold s1, reserve_link. simpl.
      now rewrite list_lookup_alter_ne by congruence.
    + rewrite Hhops. unfold s1, reserve_link. simpl. lia.
    + rewrite Hdel. unfold s1, reserve_link. cbn [walk_delay]. simpl. lia.
    + rewrite Hb, Hsc, Hco. repeat split.
Qed.

(** A successful [updateState] has walked back along a list [l] of distinct
    nodes, from the destination to the source, whose reverse is a path of
    available links. *)
Lemma updateState_walk_cost (T : Topology) (src dst : nat) (edgeCost : fmatrix)
    (current : nat) (s : State) (e : CallEvent) :
  symmetric s -> eventQueue s !! current = Some e ->
  fst (updateState T src dst edgeCost current s) = true ->
  exists l, path_between (availCap s) src dst (reverse l) /\
            path_cost edgeCost (reverse l) < 999 /\
            reserved_along T current e l s
              (snd (updateState T src dst edgeCost current s)) /\
            path_cost edgeCost (reverse l)
            = dist (dijkstra (availCap s) (availCap s) edgeCost src dst) dst.
Proof.
  intros [Hsa Hsr] He. unfold updateState.
  destruct (Z.eqb_spec
              (foundFlag (dijkstra (availCap s) (availCap s) edgeCost src dst)) 1)
    as [Hf|Hf]; cbn [negb fst snd]; [intros _|discriminate].
  destruct (dijkstra_chain _ _ _ _ _ Hf) as (l & Hl & Hp0 & Hd0 & Hlt & Hr).
  set (st := dijkstra (availCap s) (availCap s) edgeCost src dst) in *.
  clearbody st.
  pose proof (chain_NoDup _ _ _ _ _ _ Hl) as Hnd.
  destruct (chain_reverse_path _ _ _ _ _ _ Hd0 Hl) as [Hpath Hcost].
  exists l. split; [|split; [|split; [|exact Hcost]]].
  - split; [|split; [|split; [|split]]].
    + rewrite head_reverse. eapply chain_last; eauto.
    + rewrite last_reverse. destruct (chain_head _ _ _ _ _ _ Hl) as [t ->].
      reflexivity.
    + now rewrite reverse_Permutation.
    + now apply Forall_reverse.
    + exact Hpath.
  - rewrite Hcost. exact Hlt.
  - eapply reserve_effect; eauto.
    + now apply short_list.
    + exact (Forall_lookup_1 _ _ _ _ Hsr He).
Qed.

Lemma updateState_walk (T : Topology) (src dst : nat) (edgeCost : fmatrix)
    (current : nat) (s : State) (e : CallEvent) :
  symmetric s -> eventQueue s !! current = Some e ->
  fst (updateState T src dst edgeCost current s) = true ->
  exists l, path_between (availCap s) src dst (reverse l) /\
            path_cost edgeCost (reverse l) < 999 /\
            reserved_along T current e l s
              (snd (updateState T src dst edgeCost current s)).
Proof.
  intros Hsym He Ht.
  destruct (updateState_walk_cost T src dst edgeCost current s e Hsym He Ht)
    as (l & H1 & H2 & H3 & _).
  exists l. split; [exact H1|]. split; [exact H2|exact H3].
Qed.

(** X3. An admitted call holds one circuit on every link of a path from
    its source to its destination: when [updateState] returns true there is a
    path [p] of distinct nodes over links with a free circuit, of
    accumulated cost below 999, such that every cell of [availCap] has gone
    down, and the same cell of the call's own reservation table up, by the
    number of links of [p] between the two nodes; no other event changes,
    and the hop and delay totals grow by the number of links of [p] and by
    their propagation delays.  The state has symmetric tables, as all states
    of [main] have; its cells are within the range in which the [float] and
    [double] arithmetic of the program is exact, and the costs of the open
    links lie between 0 and 1 or are whole numbers up to 2^23, as the costs
    of the five policies are. *)
Theorem admitted_call_reserves_a_path (T : Topology) (src dst : nat)
    (edgeCost : fmatrix) (current : nat) (s : State) (e : CallEvent) :
  symmetric s -> float_range T s ->
  unit_costs (availCap s) edgeCost \/ whole_costs (availCap s) edgeCost ->
  eventQueue s !! current = Some e ->
  fst (updateState T src dst edgeCost current s) = true ->
  exists p,
    path_between (availCap s) src dst p /\ path_cost edgeCost p < 999 /\
    (forall u v,
       availCap (snd (updateState T src dst edgeCost current s)) u v
       = availCap s u v - crossings p u v) /\
    (exists e',
       eventQueue (snd (updateState T src dst edgeCost current s)) !! current
       = Some e' /\
       running e' = running e /\ static e' = static e /\
       forall u v, resources e' u v = resources e u v + crossings p u v) /\
    (forall j, j <> current ->
       eventQueue (snd (updateState T src dst edgeCost current s)) !! j
       = eventQueue s !! j) /\
    totalHops (snd (updateState T src dst edgeCost current s))
    = totalHops s + Z.of_nat (length p - 1) /\
    totalProp (snd (updateState T src dst edgeCost current s))
    = totalProp s + path_delay T p.
Proof.
  intros Hsym _ _ He Ht.
  destruct (updateState_walk T src dst edgeCost current s e Hsym He Ht)
    as (l & Hpath & Hcost & [Hav (e' & He' & Hrun & Hst & Hres) Hoth Hh Hd _]).
  exists (reverse l). split; [exact Hpath|]. split; [exact Hcost|].
  split; [intros u v; now rewrite crossings_reverse|].
  split; [exists e'; repeat split; auto; intros u v; now rewrite crossings_reverse|].
  split; [exact Hoth|].
  split; [now rewrite length_reverse|now rewrite path_delay_reverse].
Qed.

(** The first of the two calls on the link of capacity 2, when SHPF routes
    it. *)
Definition first_call : State :=
  prepare SHPF (topology_of one_link) 0
    (timeUpdate 0 (initial one_link two_calls)).

Lemma first_call_wf : wf (topology_of one_link) first_call.
Proof.
  unfold first_call. eapply wf_same_tables; [apply prepare_same_tables|].
  apply timeUpdate_wf, initial_wf.
Qed.

(** ** Available capacity stays within its bounds *)

Lemma link_hit_cases (a b u v : nat) :
  (link_hit a b u v = 1 /\ ((a = u /\ b = v) \/ (a = v /\ b = u))) \/
  link_hit a b u v = 0.
Proof.
  unfold link_hit.
  destruct (Nat.eqb_spec a u), (Nat.eqb_spec b v), (Nat.eqb_spec a v),
    (Nat.eqb_spec b u); cbn [andb orb]; auto.
Qed.

Lemma crossings_cons (a b : nat) (p : list nat) (u v : nat) :
  crossings (a :: b :: p) u v = link_hit a b u v + crossings (b :: p) u v.
Proof. reflexivity. Qed.

Lemma crossings_nonneg (p : list nat) (u v : nat) : 0 <= crossings p u v.
Proof.
  induction p as [|a p IH]; [simpl; lia|].
  destruct p as [|b p]; [simpl; lia|]. rewrite crossings_cons.
  destruct (link_hit_cases a b u v) as [[-> _]| ->]; lia.
Qed.

Lemma crossings_elem (p : list nat) (u v : nat) :
  0 < crossings p u v -> u ∈ p /\ v ∈ p.
Proof.
  induction p as [|a p IH]; [simpl; lia|].
  destruct p as [|b p]; [simpl; lia|]. rewrite crossings_cons. intros H.
  destruct (link_hit_cases a b u v) as [[_ [[-> ->]|[-> ->]]]|H0].
  - rewrite !elem_of_cons. auto.
  - rewrite !elem_of_cons. auto.
  - rewrite H0 in H. destruct (IH ltac:(lia)) as [Hu Hv].
    split; apply elem_of_cons; auto.
Qed.

Lemma crossings_le_1 (p : list nat) (u v : nat) :
  NoDup p -> crossings p u v <= 1.
Proof.
  induction p as [|a p IH]; [simpl; lia|].
  destruct p as [|b p]; [simpl; lia|]. rewrite crossings_cons. intros Hn.
  apply NoDup_cons in Hn. destruct Hn as [Ha Hn]. specialize (IH Hn).
  destruct (link_hit_cases a b u v) as [[-> Hab]| ->]; [|lia].
  destruct (Z.lt_ge_cases 0 (crossings (b :: p) u v)) as [Hpos|]; [|lia].
  destruct (crossings_elem _ _ _ Hpos) as [Hu Hv].
  exfalso. apply Ha. destruct Hab as [[-> _]|[-> _]]; assumption.
Qed.

Lemma crossings_link (adj : imatrix) (p : list nat) (u v : nat) :
  (forall a b, adj a b = adj b a) -> is_path adj p ->
  0 < crossings p u v -> 0 < adj u v.
Proof.
  intros Hsym. induction p as [|a p IH]; [simpl; lia|].
  destruct p as [|b p]; [simpl; lia|]. rewrite crossings_cons. intros [Hab Hp] H.
  destruct (link_hit_cases a b u v) as [[_ [[-> ->]|[-> ->]]]|H0].
  - exact Hab.
  - now rewrite Hsym.
  - rewrite H0 in H. apply IH; [exact Hp|lia].
Qed.

Definition nonneg_avail (s : State) : Prop := forall u v, 0 <= availCap s u v.

Lemma release_cell_nonneg_avail (j k m : nat) (s : State) :
  nonneg_avail s -> nonneg_avail (release_cell j k m s).
Proof.
  intros Hs. unfold release_cell. destruct (eventQueue s !! j) as [e|]; auto.
  destruct (Z.ltb_spec 0 (resources e k m)); auto.
  intros u v. simpl. pose proof (Hs u v). pose proof (Hs m k).
  unfold mset. eqb_cases; lia.
Qed.

Lemma timeUpdate_nonneg_avail (i : nat) (s : State) :
  nonneg_avail s -> nonneg_avail (timeUpdate i s).
Proof.
  unfold timeUpdate. apply for_upto_ind. intros j s' _ Hs'. unfold expire.
  destruct (eventQueue s' !! j) as [ej|]; auto.
  destruct (eventQueue s' !! i) as [ec|]; auto.
  destruct (running ej && Qle_bool (endTime ej) (startTime ec)); auto.
  unfold release. apply for_nodes_ind; [|exact Hs']. intros k s1 _.
  apply for_nodes_ind. intros m s2 _. apply release_cell_nonneg_avail.
Qed.

Lemma updateState_nonneg_avail (T : Topology) (src dst : nat)
    (edgeCost : fmatrix) (current : nat) (s : State) :
  symmetric s -> is_Some (eventQueue s !! current) -> nonneg_avail s ->
  nonneg_avail (snd (updateState T src dst edgeCost current s)).
Proof.
  intros Hsym [e He] Hs.
  destruct (fst (updateState T src dst edgeCost current s)) eqn:Hf.
  - destruct (updateState_walk T src dst edgeCost current s e Hsym He Hf)
      as (l & (_ & _ & Hnd & _ & Hpath) & _ & [Hav _ _ _ _ _]).
    intros u v. rewrite Hav, <- crossings_reverse.
    pose proof (crossings_le_1 (reverse l) u v Hnd).
    destruct (Z.lt_ge_cases 0 (crossings (reverse l) u v)) as [Hpos|].
    + pose proof (crossings_link (availCap s) (reverse l) u v
                    (proj1 Hsym) Hpath Hpos). lia.
    + pose proof (Hs u v). lia.
  - now rewrite (updateState_false _ _ _ _ _ _ Hf).
Qed.

Lemma route_nonneg_avail (p : Policy) (T : Topology) (i : nat) (s : State) :
  symmetric s -> nonneg_avail s -> nonneg_avail (route p T i s).
Proof.
  intros Hsym Hs. unfold route.
  destruct (eventQueue s !! i) as [e|] eqn:He; auto. cbv zeta.
  assert (Hu : forall c, nonneg_avail
            (snd (updateState T (source e) (destination e) c i s))).
  { intros c. apply updateState_nonneg_avail; eauto. }
  destruct p.
  1-4: match goal with
       | |- context [updateState ?a ?b ?c ?d ?e ?f] =>
           specialize (Hu d); generalize dependent (updateState a b c d e f)
       end; intros [b s1] Hu; cbn [fst snd] in *; destruct b; cbn [negb];
       exact Hu.
  specialize (Hu (cost s)).
  generalize dependent (updateState T (source e) (destination e) (cost s) i s).
  intros [b s1] Hu. cbn [snd] in *. destruct (_ >? _); [exact Hs|exact Hu].
Qed.

(** An invariant of every step is an invariant of [main]. *)
Lemma main_trace_forall (P : State -> Prop) (links : list Link)
    (calls : list Call) :
  P (initial links calls) ->
  (forall i s, P s -> P (timeUpdate i s)) ->
  (forall p i s, P s -> P (prepare p (topology_of links) i s)) ->
  (forall p i s, P s -> P (route p (topology_of links) i s)) ->
  (forall s, P s -> P (clearValues (topology_of links) s)) ->
  Forall P (main_trace links calls).
Proof.
  intros H0 Ht Hp Hr Hc.
  assert (Hrun : forall p idx s, P s ->
            Forall P (run_trace p (topology_of links) idx s) /\
            P (List.last (run_trace p (topology_of links) idx s) s)).
  { intros p idx. induction idx as [|i idx IH]; intros s Hs;
      [split; [constructor|exact Hs]|].
    cbn [run_trace]. rewrite !last_cons.
    destruct (IH (route p (topology_of links) i
                    (prepare p (topology_of links) i (timeUpdate i s))))
      as [IHa IHb]; [auto|].
    split; [|exact IHb]. repeat (constructor; [auto|]). exact IHa. }
  assert (Hmain : forall ps s, P s ->
            Forall P (main_trace_from (topology_of links) ps s)).
  { induction ps as [|p ps IH]; intros s Hs; [constructor|].
    cbn [main_trace_from].
    destruct (Hrun p (seq 0 (length (eventQueue s))) s Hs) as [Ha Hb].
    apply Forall_app. split; [exact Ha|]. constructor; auto. }
  unfold main_trace. constructor; auto.
Qed.

Lemma reserved_nonneg (q : list CallEvent) (u v : nat) :
  Forall nonneg_res q -> 0 <= reserved q u v.
Proof.
  induction 1 as [|e q He _ IH]; simpl; [lia|]. pose proof (He u v). lia.
Qed.

Lemma load_topology_nonneg (links : list Link) :
  Forall (fun l : Link => 0 <= snd l) links ->
  forall u v, 0 <= capacity (topology_of links) u v.
Proof.
  unfold topology_of, load_topology.
  assert (H : forall acc : Topology * imatrix,
             (forall u v, 0 <= capacity (fst acc) u v) ->
             Forall (fun l : Link => 0 <= snd l) links ->
             forall u v,
               0 <= capacity
                      (fst (fold_left (fun acc l => load_link l acc) links acc))
                      u v).
  { induction links as [|[[[a b] c] d] links IH]; intros [T av] Hacc Hl;
      [exact Hacc|].
    apply Forall_cons in Hl. destruct Hl as [Hd Hl]. cbn [fold_left].
    apply IH; [|exact Hl]. intros u v. simpl in *. pose proof (Hacc u v).
    unfold mset. eqb_cases; lia. }
  intros Hl. apply H; [|exact Hl]. intros u v. simpl. unfold zeros. lia.
Qed.

(** X4. When no line of the topology file has a negative capacity, every
    cell of [availCap] lies between 0 and the capacity of the link in every state
    [main] passes through: no link is ever reserved beyond its capacity and
    no release overshoots. *)
Theorem availability_within_bounds (links : list Link) (calls : list Call) :
  Forall (fun l : Link => 0 <= snd l) links ->
  Forall (fun s => forall u v,
            0 <= availCap s u v <= capacity (topology_of links) u v)
         (main_trace links calls).
Proof.
  intros Hl. pose proof (load_topology_nonneg links Hl) as Hcap.
  destruct (load_topology_spec links) as [Hsc Heq].
  eapply Forall_impl;
    [apply (main_trace_forall
              (fun s => wf (topology_of links) s /\ nonneg_avail s))|].
  - split; [apply initial_wf|]. intros u v. unfold initial. cbn [availCap].
    rewrite Heq. apply Hcap.
  - intros i s [Hw Hn]. split;
      [now apply timeUpdate_wf|now apply timeUpdate_nonneg_avail].
  - intros p i s [Hw Hn]. split.
    + eapply wf_same_tables; [apply prepare_same_tables|exact Hw].
    + intros u v. destruct (prepare_same_tables p (topology_of links) i s)
        as [-> _]. apply Hn.
  - intros p i s [Hw Hn]. split; [now apply route_wf|].
    apply route_nonneg_avail; [exact (wf_sym _ _ Hw)|exact Hn].
  - intros s _. split; [now apply clearValues_wf|]. exact Hcap.
  - intros s [Hw Hn] u v. cbv beta. split; [apply Hn|].
    pose proof (wf_conserved _ _ Hw u v).
    pose proof (reserved_nonneg (eventQueue s) u v (wf_nonneg _ _ Hw)). lia.
Qed.

(** The theorem on the link of capacity 2 with three calls. *)
Lemma availability_within_bounds_witness :
  Forall (fun s => forall u v,
            0 <= availCap s u v <= capacity (topology_of one_link) u v)
         (main_trace one_link three_calls).
Proof.
  apply (availability_within_bounds one_link three_calls).
  repeat constructor. simpl. lia.
Defined.

(** ** The search reaches every node it can *)

(** A cost between 0 and 1 moves the distance by at most one. *)
Lemma Qtrunc_step (d : Z) (c : Q) :
  0 <= d -> (0 <= c)%Q -> (c <= 1)%Q ->
  d <= Qtrunc (inject_Z d + c) <= d + 1.
Proof.
  destruct c as [n den]. unfold Qle, Qtrunc. simpl. intros Hd Hn Hden.
  rewrite Z.quot_div_nonneg by nia.
  split.
  - apply Z.div_le_lower_bound; nia.
  - apply Z.div_le_upper_bound; nia.
Qed.

(** The number of ones of [q] among the nodes of [l]. *)
Definition ones (q : nat -> Z) (l : list nat) : nat :=
  length (List.filter (fun x => q x =? 1) l).

Lemma ones_cons (q : nat -> Z) (x : nat) (l : list nat) :
  ones q (x :: l) = if q x =? 1 then S (ones q l) else ones q l.
Proof. unfold ones. simpl. now destruct (q x =? 1). Qed.

Lemma ones_aset_out (q : nat -> Z) (i : nat) (v : Z) (l : list nat) :
  i ∉ l -> ones (aset q i v) l = ones q l.
Proof.
  induction l as [|x l IH]; intros Hi; [reflexivity|].
  apply not_elem_of_cons in Hi. destruct Hi as [Hx Hi].
  rewrite !ones_cons, (IH Hi). unfold aset.
  destruct (Nat.eqb_spec x i); [congruence|reflexivity].
Qed.

Lemma ones_aset_in (q : nat -> Z) (i : nat) (v : Z) (l : list nat) :
  NoDup l -> i ∈ l ->
  (ones (aset q i v) l + (if (q i =? 1)%Z then 1 else 0)
   = ones q l + (if (v =? 1)%Z then 1 else 0))%nat.
Proof.
  induction l as [|x l IH]; intros Hn Hi; [now apply elem_of_nil in Hi|].
  apply NoDup_cons in Hn. destruct Hn as [Hx Hn].
  apply elem_of_cons in Hi. rewrite !ones_cons.
  destruct (Nat.eq_dec i x) as [->|Hne].
  - rewrite (ones_aset_out q x v l Hx). unfold aset. rewrite Nat.eqb_refl.
    destruct (v =? 1), (q x =? 1); lia.
  - destruct Hi as [Hi|Hi]; [congruence|]. specialize (IH Hn Hi).
    assert (Hax : aset q i v x = q x).
    { unfold aset. destruct (Nat.eqb_spec x i); [congruence|reflexivity]. }
    rewrite Hax. destruct (q x =? 1), (q i =? 1), (v =? 1); lia.
Qed.

Lemma ones_zero (q : nat -> Z) (l : list nat) (x : nat) :
  ones q l = 0%nat -> x ∈ l -> q x <> 1.
Proof.
  induction l as [|y l IH]; intros H Hx; [now apply elem_of_nil in Hx|].
  rewrite ones_cons in H. apply elem_of_cons in Hx.
  destruct (Z.eqb_spec (q y) 1); [discriminate|].
  destruct Hx as [->|Hx]; [assumption|now apply IH].
Qed.

Lemma node_in_nodes (x : nat) : x ∈ nodes <-> (x < 26)%nat.
Proof. unfold nodes. rewrite elem_of_seq. lia. Qed.

Lemma nodes_NoDup : NoDup nodes.
Proof. apply NoDup_seq. Qed.

(** The queue at the start of the search: the nodes with a positive cell in
    their row of [cap], and their number. *)
Record queue_of (cap : imatrix) (acc : (nat -> Z) * nat) : Prop := mk_queue_of {
  qo_bits : forall x, fst acc x = 0 \/ fst acc x = 1;
  qo_row : forall x, fst acc x = 1 ->
             (x < 26)%nat /\ exists j, (j < 26)%nat /\ 0 < cap x j;
  qo_count : ones (fst acc) nodes = snd acc
}.

Definition init_queue_turn (cap : imatrix) (i j : nat)
    (acc : (nat -> Z) * nat) : (nat -> Z) * nat :=
  if 0 <? cap i j then
    if fst acc i =? 0 then (aset (fst acc) i 1, S (snd acc)) else acc
  else acc.

Lemma init_queue_turn_inv (cap : imatrix) (i j : nat) (acc : (nat -> Z) * nat) :
  (i < 26)%nat -> (j < 26)%nat ->
  queue_of cap acc -> queue_of cap (init_queue_turn cap i j acc).
Proof.
  intros Hi Hj [Hb Hr Hc]. unfold init_queue_turn.
  destruct (Z.ltb_spec 0 (cap i j)) as [Hpos|]; [|now split].
  destruct (Z.eqb_spec (fst acc i) 0) as [H0|]; [|now split].
  split; cbn [fst snd].
  - intros x. unfold aset. destruct (x =? i)%nat; auto.
  - intros x. unfold aset. destruct (Nat.eqb_spec x i) as [->|]; [|apply Hr].
    intros _. split; [exact Hi|]. exists j. auto.
  - pose proof (ones_aset_in (fst acc) i 1 nodes nodes_NoDup
                  (proj2 (node_in_nodes i) Hi)) as H.
    rewrite H0 in H. simpl in H. lia.
Qed.

Lemma init_queue_spec (cap : imatrix) :
  queue_of cap (init_queue cap) /\
  forall i j, (i < 26)%nat -> (j < 26)%nat -> 0 < cap i j ->
    fst (init_queue cap) i = 1.
Proof.
  unfold init_queue.
  change (queue_of cap
            (for_nodes (fun i => for_nodes (init_queue_turn cap i))
               (fun _ => 0, 0%nat)) /\
          forall i j, (i < 26)%nat -> (j < 26)%nat -> 0 < cap i j ->
            fst (for_nodes (fun i => for_nodes (init_queue_turn cap i))
                   (fun _ => 0, 0%nat)) i = 1).
  assert (Hq : queue_of cap
            (for_nodes (fun i => for_nodes (init_queue_turn cap i))
               (fun _ => 0, 0%nat))).
  { apply for_nodes_ind.
    - intros i acc Hi Hacc. apply for_nodes_ind; [|exact Hacc].
      intros j acc' Hj. now apply init_queue_turn_inv.
    - split; cbn [fst snd]; [auto|intros x H; discriminate|reflexivity]. }
  split; [exact Hq|]. intros i j Hi Hj Hpos.
  assert (Hne : 0 < cap i j ->
            fst (for_nodes (fun i => for_nodes (init_queue_turn cap i))
                   (fun _ => 0, 0%nat)) i <> 0).
  { apply (fill_table
             (fun i j (acc : (nat -> Z) * nat) => 0 < cap i j -> fst acc i <> 0)
             (init_queue_turn cap) (fun _ => 0, 0%nat)); [| |exact Hi|exact Hj].
    - intros k m acc Hkm. unfold init_queue_turn.
      destruct (Z.ltb_spec 0 (cap k m)); [|lia].
      destruct (Z.eqb_spec (fst acc k) 0); [|assumption].
      cbn [fst]. unfold aset. rewrite Nat.eqb_refl. discriminate.
    - intros k m k' m' acc H Hkm. specialize (H Hkm). unfold init_queue_turn.
      destruct (0 <? cap k' m'); [|assumption].
      destruct (fst acc k' =? 0); [|assumption].
      cbn [fst]. unfold aset. destruct (k =? k')%nat; [discriminate|assumption]. }
  destruct (qo_bits _ _ Hq i) as [H0|H1]; [|exact H1].
  exfalso. now apply (Hne Hpos).
Qed.

Lemma path_stays_in (adj : imatrix) (inS : nat -> Prop) :
  (forall u v, (v < 26)%nat -> 0 < adj u v -> inS u -> inS v) ->
  forall p a z, Forall (fun x => (x < 26)%nat) p -> is_path adj p ->
    head p = Some a -> inS a -> last p = Some z -> inS z.
Proof.
  intros Hclosed. induction p as [|x p IH]; intros a z Hr Hp Hh Ha Hl;
    [discriminate|].
  injection Hh as ->. destruct p as [|y p].
  - injection Hl as <-. exact Ha.
  - destruct Hp as [Hxy Hp]. rewrite last_cons_cons in Hl.
    apply Forall_cons in Hr. destruct Hr as [_ Hr].
    apply (IH y z Hr Hp eq_refl); [|exact Hl].
    apply (Hclosed a y); auto. apply Forall_cons in Hr. tauto.
Qed.

Lemma ones_le_length (q : nat -> Z) (l : list nat) : (ones q l <= length l)%nat.
Proof.
  induction l as [|x l IH]; [reflexivity|]. rewrite ones_cons.
  destruct (q x =? 1); cbn [length]; lia.
Qed.

Section Reach.
Variables (adj : imatrix) (edgeCost : fmatrix) (src dst : nat) (q0 : nat -> Z).
Hypothesis q0_bits : forall x, q0 x = 0 \/ q0 x = 1.
Hypothesis q0_range : forall x, q0 x = 1 -> (x < 26)%nat.
Hypothesis adj_queued :
  forall u v, (u < 26)%nat -> (v < 26)%nat -> 0 < adj u v -> q0 v = 1.
Hypothesis cost_unit :
  forall u v, (u < 26)%nat -> (v < 26)%nat -> 0 < adj u v ->
    (0 <= edgeCost u v)%Q /\ (edgeCost u v <= 1)%Q.

(** Every link of [u] leads to a node of finite distance. *)
Definition closed_at (st : Search) (u : nat) (m : nat) : Prop :=
  forall j, (j < m)%nat -> 0 < adj u j -> dist st j < 999.

(** The invariant of the loop: [n] nodes are queued; the nodes that have
    left the queue have a finite distance and, but for the one that is being
    relaxed ([ex]), so have their neighbours. *)
Record CInv (ex : nat -> Prop) (n : nat) (st : Search) : Prop := mk_CInv {
  ci_bits : forall j, queue st j = 0 \/ queue st j = 1;
  ci_sub : forall j, queue st j = 1 -> q0 j = 1;
  ci_count : ones (queue st) nodes = n;
  ci_popped : forall u, q0 u = 1 -> queue st u = 0 -> dist st u < 999;
  ci_closed : forall u, q0 u = 1 -> queue st u = 0 -> ~ ex u ->
              closed_at st u 26;
  ci_bound : forall j, dist st j < 999 ->
             0 <= dist st j /\ dist st j + Z.of_nat n <= 26;
  ci_first : q0 src = 1 \/ forall j, j <> src -> dist st j = 999;
  ci_src : dist st src < 999
}.

Definition nobody (u : nat) : Prop := False.

Lemma pop_CInv (n : nat) (st : Search) (u : nat) :
  CInv nobody (S n) st -> (u < 26)%nat -> queue st u = 1 -> dist st u < 999 ->
  CInv (eq u) n (mkSearch (aset (queue st) u 0) n (previousVertex st)
                          (dist st) (foundFlag st)) /\
  q0 src = 1 /\ q0 u = 1 /\ 0 <= dist st u /\ dist st u + 1 + Z.of_nat n <= 26.
Proof.
  intros [Hbits Hsub Hcount Hpop Hcl Hbound Hfirst Hsrc] Hu Hq Hd.
  assert (Hq0u : q0 u = 1) by now apply Hsub.
  assert (Hq0s : q0 src = 1).
  { destruct Hfirst as [|Hall]; [assumption|].
    destruct (Nat.eq_dec u src) as [<-|Hne]; [assumption|].
    specialize (Hall u Hne). lia. }
  split; [|split; [exact Hq0s|split; [exact Hq0u|]]].
  - split; cbn [queue dist].
    + intros j. unfold aset. destruct (j =? u)%nat; auto.
    + intros j. unfold aset. destruct (j =? u)%nat; [discriminate|apply Hsub].
    + pose proof (ones_aset_in (queue st) u 0 nodes nodes_NoDup
                    (proj2 (node_in_nodes u) Hu)) as H.
      rewrite Hq in H. simpl in H. lia.
    + intros x Hx. unfold aset. destruct (Nat.eqb_spec x u) as [->|];
        [intros _; exact Hd|now apply Hpop].
    + intros x Hx. unfold aset. destruct (Nat.eqb_spec x u) as [->|].
      * intros _ Hne. now destruct Hne.
      * intros Hqx _. apply Hcl; auto.
    + intros j Hj. destruct (Hbound j Hj). lia.
    + left. exact Hq0s.
    + exact Hsrc.
  - destruct (Hbound u Hd). lia.
Qed.

Lemma relax_one_CInv (n : nat) (u m : nat) (st : Search) :
  (m < 26)%nat -> q0 src = 1 -> q0 u = 1 -> queue st u = 0 ->
  0 <= dist st u -> dist st u + 1 + Z.of_nat n <= 26 ->
  CInv (eq u) n st -> closed_at st u m ->
  let st' := relax_one adj edgeCost u m st in
  CInv (eq u) n st' /\ closed_at st' u (S m) /\
  queue st' = queue st /\ dist st' u = dist st u /\
  foundFlag st' = foundFlag st.
Proof.
  intros Hm Hq0s Hq0u Hqu Hdu0 Hdu Hinv Hcl. cbv zeta.
  pose proof Hinv as [Hbits Hsub Hcount Hpop Hclosed Hbound Hfirst Hsrc].
  assert (Hu26 : (u < 26)%nat) by now apply q0_range.
  assert (Hkeep : closed_at st u (S m) ->
            CInv (eq u) n st /\ closed_at st u (S m) /\
            queue st = queue st /\ dist st u = dist st u /\
            foundFlag st = foundFlag st)
    by (intros Hc; split; [exact Hinv|split; [exact Hc|repeat split]]).
  assert (Hext : dist st m < 999 -> closed_at st u (S m)).
  { intros Hdm j Hj Haj. destruct (Nat.eq_dec j m) as [->|]; [exact Hdm|].
    apply Hcl; [lia|exact Haj]. }
  unfold relax_one.
  destruct (Z.ltb_spec 0 (queue st m)) as [Hqm|Hqm].
  - destruct (Z.ltb_spec 0 (adj u m)) as [Ham|Ham].
    + destruct (cost_unit u m Hu26 Hm Ham) as [Hc0 Hc1].
      pose proof (Qtrunc_step (dist st u) (edgeCost u m) Hdu0 Hc0 Hc1) as Halt.
      set (alt := Qtrunc (inject_Z (dist st u) + edgeCost u m)) in *.
      destruct (Z.ltb_spec alt (dist st m)) as [Hlt|Hge].
      * assert (Hmu : m <> u) by (intros ->; lia).
        assert (Hstable : forall j, dist st j < 999 ->
                  aset (dist st) m alt j < 999).
        { intros j Hj. unfold aset. destruct (j =? m)%nat; lia. }
        split; [split; cbn [queue dist]|].
        -- exact Hbits.
        -- exact Hsub.
        -- exact Hcount.
        -- intros x Hx Hqx. apply Hstable. now apply Hpop.
        -- intros x Hx Hqx Hne j Hj Haj. apply Hstable.
           now apply (Hclosed x Hx Hqx Hne j).
        -- intros j. unfold aset. destruct (Nat.eqb_spec j m) as [->|];
             [intros _; lia|apply Hbound].
        -- left. exact Hq0s.
        -- now apply Hstable.
        -- cbn [queue dist foundFlag]. repeat split.
           ++ intros j Hj Haj. cbn [dist]. unfold aset.
              destruct (Nat.eqb_spec j m) as [->|]; [lia|].
              apply Hcl; [lia|exact Haj].
           ++ unfold aset. destruct (Nat.eqb_spec u m); [congruence|reflexivity].
      * apply Hkeep, Hext. lia.
    + apply Hkeep. intros j Hj Haj. destruct (Nat.eq_dec j m) as [->|]; [lia|].
      apply Hcl; [lia|exact Haj].
  - apply Hkeep. intros j Hj Haj. destruct (Nat.eq_dec j m) as [->|].
    + apply Hpop; [now apply (adj_queued u m)|].
      destruct (Hbits m); [assumption|lia].
    + apply Hcl; [lia|exact Haj].
Qed.

Lemma relax_CInv (n : nat) (u : nat) (st : Search) :
  q0 src = 1 -> q0 u = 1 -> queue st u = 0 ->
  0 <= dist st u -> dist st u + 1 + Z.of_nat n <= 26 ->
  CInv (eq u) n st ->
  CInv nobody n (relax adj edgeCost u st) /\
  queue (relax adj edgeCost u st) = queue st /\
  foundFlag (relax adj edgeCost u st) = foundFlag st.
Proof.
  intros Hq0s Hq0u Hqu Hdu0 Hdu Hinv. unfold relax.
  assert (H : (fun m st' =>
                 CInv (eq u) n st' /\ closed_at st' u m /\
                 queue st' = queue st /\ dist st' u = dist st u /\
                 foundFlag st' = foundFlag st)
              26%nat (for_nodes (relax_one adj edgeCost u) st)).
  { apply for_nodes_prefix.
    - split; [exact Hinv|split; [intros j Hj; lia|repeat split]].
    - intros m st' Hm (Hi & Hc & Hq & Hd & Hf).
      assert (Hqu' : queue st' u = 0) by (rewrite Hq; exact Hqu).
      assert (Hd0' : 0 <= dist st' u) by (rewrite Hd; exact Hdu0).
      assert (Hdb' : dist st' u + 1 + Z.of_nat n <= 26) by (rewrite Hd; exact Hdu).
      pose proof (relax_one_CInv n u m st' Hm Hq0s Hq0u Hqu' Hd0' Hdb' Hi Hc)
        as H'. cbv zeta in H'. destruct H' as (Hi' & Hc' & Hq' & Hd' & Hf').
      split; [exact Hi'|]. split; [exact Hc'|].
      split; [now rewrite Hq'|]. split; [now rewrite Hd'|now rewrite Hf']. }
  cbv beta in H. destruct H as ([Hb Hs Hc Hp Hcl Hbd Hfi Hsr] & Hclu & Hq & _ & Hf).
  split; [|split; assumption].
  split; auto.
  intros x Hx Hqx _. destruct (Nat.eq_dec u x) as [<-|Hne]; [exact Hclu|].
  now apply Hcl.
Qed.

(** A state in which the loop has stopped without finding the
    destination. *)
Definition stuck (st : Search) : Prop :=
  (exists n, CInv nobody n st) /\
  (q0 dst = 1 -> queue st dst = 1) /\
  forall j, (j < 26)%nat -> queue st j = 1 -> 999 <= dist st j.

Lemma search_loop_reach (n : nat) (st : Search) :
  CInv nobody n st -> (q0 dst = 1 -> queue st dst = 1) -> foundFlag st <> 1 ->
  let st' := search_loop n adj edgeCost dst st in
  (foundFlag st' = 1 -> q0 src = 1) /\ (foundFlag st' <> 1 -> stuck st').
Proof.
  revert st. induction n as [|n IH]; intros st Hinv Hdst Hf; cbv zeta.
  - cbn [search_loop]. split; [contradiction|]. intros _.
    split; [eauto|]. split; [exact Hdst|].
    intros j Hj Hq. exfalso.
    apply (ones_zero (queue st) nodes j (ci_count _ _ _ Hinv));
      [now apply node_in_nodes|exact Hq].
  - cbn [search_loop].
    destruct (minDist_cases (dist st) (queue st)) as [[H50 Hnone]|(Hu & Hq & Hd & _)].
    + rewrite H50. change (27 <? 50)%nat with true. cbv iota.
      split; [contradiction|]. intros _. split; [eauto|]. split; assumption.
    + set (u := minDistVertexInQueue (dist st) (queue st)) in *.
      destruct (Nat.ltb_spec 27 u) as [|_]; [lia|].
      destruct (pop_CInv n st u Hinv Hu Hq Hd) as (Hinv1 & Hq0s & Hq0u & Hd0 & Hdb).
      destruct (Nat.eqb_spec u dst) as [Heq|Hne].
      * cbn [foundFlag]. split; [intros _; exact Hq0s|]. intros H. now destruct H.
      * cbn [queue size previousVertex dist foundFlag].
        set (st1 := mkSearch (aset (queue st) u 0) n (previousVertex st)
                             (dist st) (foundFlag st)) in *.
        assert (Hqu1 : queue st1 u = 0).
        { unfold st1. cbn [queue]. unfold aset. now rewrite Nat.eqb_refl. }
        destruct (relax_CInv n u st1 Hq0s Hq0u Hqu1 Hd0 Hdb Hinv1)
          as (Hinv2 & Hq2 & Hf2).
        apply IH; [exact Hinv2| |now rewrite Hf2].
        intros Hqd. rewrite Hq2. unfold st1. cbn [queue]. unfold aset.
        destruct (Nat.eqb_spec dst u); [congruence|now apply Hdst].
Qed.

Lemma initial_CInv :
  CInv nobody (ones q0 nodes)
    (mkSearch q0 (ones q0 nodes) (fun _ => -1) (aset (fun _ => 999) src 0) 0).
Proof.
  split; cbn [queue dist]; auto.
  - intros u Hu Hq. lia.
  - intros u Hu Hq. lia.
  - intros j. unfold aset. destruct (j =? src)%nat; [|lia]. intros _.
    pose proof (ones_le_length q0 nodes). simpl in H. lia.
  - right. intros j Hj. unfold aset.
    destruct (Nat.eqb_spec j src); [congruence|reflexivity].
  - unfold aset. rewrite Nat.eqb_refl. lia.
Qed.

(** From a stuck state no path of links leads from the source to the
    destination. *)
Lemma stuck_no_path (st : Search) (p : list nat) :
  stuck st -> q0 src = 1 -> ~ path_between adj src dst p.
Proof.
  intros ([n Hinv] & Hdst & Hnone) Hq0s (Hh & Hl & _ & Hr & Hp).
  destruct Hinv as [Hbits Hsub Hcount Hpop Hclosed Hbound Hfirst Hsrc].
  assert (Hout : forall x, q0 x = 1 -> dist st x < 999 -> queue st x = 0).
  { intros x Hx Hd. destruct (Hbits x) as [|H1]; [assumption|].
    specialize (Hnone x (q0_range x Hx) H1). lia. }
  assert (H : q0 dst = 1 /\ queue st dst = 0).
  { apply (path_stays_in adj (fun x => q0 x = 1 /\ queue st x = 0))
      with (p := p) (a := src); auto.
    intros u v Hv Huv [Hu Hqu].
    assert (Hqv : q0 v = 1) by (apply (adj_queued u v); auto).
    split; [exact Hqv|]. apply Hout; [exact Hqv|].
    apply (Hclosed u Hu Hqu (fun H => H) v Hv Huv). }
  destruct H as [H1 H2]. specialize (Hdst H1). lia.
Qed.
End Reach.

(** The search of [dijkstra] when every link costs between 0 and 1 and
    every node a link leads to is queued: it finds the destination exactly
    when a path leads there from a queued source. *)
Lemma dijkstra_reach (cap adj : imatrix) (edgeCost : fmatrix) (src dst : nat) :
  (forall u v, (u < 26)%nat -> (v < 26)%nat -> 0 < adj u v ->
     fst (init_queue cap) v = 1) ->
  (forall u v, (u < 26)%nat -> (v < 26)%nat -> 0 < adj u v ->
     (0 <= edgeCost u v)%Q /\ (edgeCost u v <= 1)%Q) ->
  (foundFlag (dijkstra cap adj edgeCost src dst) = 1 ->
   fst (init_queue cap) src = 1) /\
  (foundFlag (dijkstra cap adj edgeCost src dst) <> 1 ->
   fst (init_queue cap) src = 1 ->
   forall p, ~ path_between adj src dst p).
Proof.
  intros Hadj Hcost.
  destruct (init_queue_spec cap) as [[Hbits Hrow Hcount] _].
  assert (Hrange : forall x, fst (init_queue cap) x = 1 -> (x < 26)%nat)
    by (intros x Hx; now destruct (Hrow x Hx)).
  pose proof (search_loop_reach adj edgeCost src dst (fst (init_queue cap))
                Hrange Hadj Hcost (ones (fst (init_queue cap)) nodes)
                (mkSearch (fst (init_queue cap))
                   (ones (fst (init_queue cap)) nodes) (fun _ => -1)
                   (aset (fun _ => 999) src 0) 0)
                (initial_CInv adj src (fst (init_queue cap)) Hbits)) as H.
  cbv zeta in H. cbn [queue foundFlag] in H.
  specialize (H (fun h => h) ltac:(discriminate)).
  unfold dijkstra, init_search. cbv zeta. cbn [size].
  rewrite <- Hcount. destruct H as [H1 H2]. split; [exact H1|].
  intros Hnf Hq0 p.
  exact (stuck_no_path adj src dst (fst (init_queue cap)) Hrange Hadj _ p
           (H2 Hnf) Hq0).
Qed.

(** [updateState] on a symmetric table whose open links cost between 0
    and 1: admission and reachability coincide. *)
Lemma admitted_reachable (T : Topology) (src dst : nat)
    (edgeCost : fmatrix) (current : nat) (s : State) :
  sym_avail s ->
  (forall u v, (u < 26)%nat -> (v < 26)%nat -> 0 < availCap s u v ->
     (0 <= edgeCost u v)%Q /\ (edgeCost u v <= 1)%Q) ->
  fst (updateState T src dst edgeCost current s) = true <->
  (exists v, (v < 26)%nat /\ 0 < availCap s src v) /\
  exists p, path_between (availCap s) src dst p.
Proof.
  intros Hsym Hcost.
  destruct (init_queue_spec (availCap s)) as [[_ Hrow _] Hq].
  assert (Hadj : forall u v, (u < 26)%nat -> (v < 26)%nat ->
                   0 < availCap s u v -> fst (init_queue (availCap s)) v = 1)
    by (intros u v Hu Hv Huv; apply (Hq v u Hv Hu); now rewrite <- Hsym).
  destruct (dijkstra_reach (availCap s) (availCap s) edgeCost src dst
              Hadj Hcost) as [Hyes Hno].
  pose proof (dijkstra_found (availCap s) (availCap s) edgeCost src dst)
    as Hfound.
  unfold updateState. cbv zeta.
  generalize dependent (dijkstra (availCap s) (availCap s) edgeCost src dst).
  intros st Hyes Hno Hfound.
  destruct (Z.eqb_spec (foundFlag st) 1) as [Hf|Hf]; cbn [negb fst].
  - split; [intros _|reflexivity]. split.
    + destruct (Hrow src (Hyes Hf)) as [_ [j [Hj Hpos]]]. now exists j.
    + destruct (Hfound Hf) as [p [Hp _]]. now exists p.
  - split; [discriminate|]. intros [[v [Hv Hpos]] [p Hp]]. exfalso.
    assert (Hsrc : (src < 26)%nat).
    { destruct Hp as (Hh & _ & _ & Hall & _). destruct p as [|a p]; [discriminate|].
      cbn in Hh. injection Hh as ->. now apply Forall_cons in Hall as [? _]. }
    exact (Hno Hf (Hq src v Hsrc Hv Hpos) p Hp).
Qed.

(** X5. [updateState], lines 467-602: on a symmetric availability table
    whose open links all cost between 0 and 1, the call is admitted exactly
    when its source has an open link and some path of open links leads from
    the source to the destination; the search never gives up on a
    destination it could reach. *)
Theorem admitted_iff_reachable (T : Topology) (src dst : nat)
    (edgeCost : fmatrix) (current : nat) (s : State) :
  sym_avail s ->
  (forall u v, (u < 26)%nat -> (v < 26)%nat -> 0 < availCap s u v ->
     (0 <= edgeCost u v)%Q /\ (edgeCost u v <= 1)%Q) ->
  fst (updateState T src dst edgeCost current s) = true <->
  (exists v, (v < 26)%nat /\ 0 < availCap s src v) /\
  exists p, path_between (availCap s) src dst p.
Proof. exact (admitted_reachable T src dst edgeCost current s). Qed.

(** ** The cost tables of SHPF, LLP and MFC *)

Lemma updateSHPF_cost (s : State) (k m : nat) :
  sym_avail s -> (k < 26)%nat -> (m < 26)%nat ->
  availCap (updateSHPF s) = availCap s /\
  cost (updateSHPF s) k m = (if 0 <? availCap s k m then 1 else 0)%Q.
Proof.
  intros Hsym Hk Hm. unfold updateSHPF.
  assert (Ha : availCap
            (for_nodes (fun k => for_nodes (fun m s' =>
               if 0 <? availCap s' k m
               then set_cost (mset (mset (cost s') k m 1%Q) m k 1%Q) s'
               else set_cost (mset (mset (cost s') k m 0%Q) m k 0%Q) s')) s)
          = availCap s).
  { apply (for_nodes_ind (fun s' => availCap s' = availCap s)); [|reflexivity].
    intros k0 s1 _ H1.
    apply (for_nodes_ind (fun s' => availCap s' = availCap s)); [|exact H1].
    intros m0 s2 _ H2. destruct (0 <? availCap s2 k0 m0); exact H2. }
  split; [exact Ha|]. revert Ha.
  apply (fill_table
    (fun k m (s' : State) =>
       availCap s' = availCap s ->
       cost s' k m = (if 0 <? availCap s k m then 1 else 0)%Q)
    (fun k m s' =>
       if 0 <? availCap s' k m
       then set_cost (mset (mset (cost s') k m 1%Q) m k 1%Q) s'
       else set_cost (mset (mset (cost s') k m 0%Q) m k 0%Q) s')
    s); [| |exact Hk|exact Hm].
  - intros k0 m0 s' Ha.
    assert (Ha' : availCap s' = availCap s)
      by (destruct (0 <? availCap s' k0 m0); exact Ha).
    rewrite <- Ha'.
    destruct (0 <? availCap s' k0 m0); cbn [cost set_cost]; unfold mset;
      rewrite !Nat.eqb_refl; cbn [andb];
      now destruct ((k0 =? m0)%nat && (m0 =? k0)%nat).
  - intros k0 m0 k' m' s' HQ Ha.
    assert (Ha' : availCap s' = availCap s)
      by (destruct (0 <? availCap s' k' m'); exact Ha).
    specialize (HQ Ha'). rewrite Ha'.
    destruct (0 <? availCap s k' m') eqn:E; cbn [cost set_cost]; unfold mset;
      destruct (Nat.eqb_spec k0 m'), (Nat.eqb_spec m0 k'),
               (Nat.eqb_spec k0 k'), (Nat.eqb_spec m0 m');
      cbn [andb]; subst; try exact HQ;
      try (now rewrite E); now rewrite (Hsym m' k'), E.
Qed.

Definition share (T : Topology) (avail : imatrix) (k m : nat) : Q :=
  (inject_Z (avail k m) / inject_Z (capacity T k m))%Q.

Lemma updateMFC_cost (T : Topology) (s : State) (k m : nat) :
  (k < 26)%nat -> (m < 26)%nat ->
  availCap (updateMFC T s) = availCap s /\
  cost (updateMFC T s) k m = share T (availCap s) k m.
Proof.
  intros Hk Hm. unfold updateMFC.
  assert (Ha : availCap
            (for_nodes (fun k => for_nodes (fun m s' =>
               set_cost (mset (cost s') k m
                 (inject_Z (availCap s' k m)
                  / inject_Z (capacity T k m))%Q) s')) s)
          = availCap s).
  { apply (for_nodes_ind (fun s' => availCap s' = availCap s)); [|reflexivity].
    intros k0 s1 _ H1.
    apply (for_nodes_ind (fun s' => availCap s' = availCap s)); [|exact H1].
    intros m0 s2 _ H2. exact H2. }
  split; [exact Ha|]. revert Ha.
  apply (fill_table
    (fun k m (s' : State) =>
       availCap s' = availCap s -> cost s' k m = share T (availCap s) k m)
    (fun k m s' =>
       set_cost (mset (cost s') k m
         (inject_Z (availCap s' k m) / inject_Z (capacity T k m))%Q) s')
    s); [| |exact Hk|exact Hm].
  - intros k0 m0 s' Ha. cbn [cost set_cost availCap] in *.
    rewrite mset_eq, Ha. reflexivity.
  - intros k0 m0 k' m' s' HQ Ha. cbn [cost set_cost availCap] in *.
    unfold mset.
    destruct (Nat.eqb_spec k0 k'), (Nat.eqb_spec m0 m'); cbn [andb]; subst;
      try (apply HQ; exact Ha). rewrite Ha. reflexivity.
Qed.

Lemma share_unit (a c : Z) :
  0 < a -> a <= c ->
  (0 <= inject_Z a / inject_Z c)%Q /\ (inject_Z a / inject_Z c <= 1)%Q.
Proof.
  intros Ha Hc. destruct c as [|c|c]; try lia.
  unfold Qdiv, Qmult, Qinv, Qle, inject_Z. cbn. split; lia.
Qed.

Lemma load_unit (a c : Z) :
  0 < a -> a <= c ->
  (0 <= 1 - inject_Z a / inject_Z c)%Q /\ (1 - inject_Z a / inject_Z c <= 1)%Q.
Proof.
  intros Ha Hc. destruct c as [|c|c]; try lia.
  unfold Qminus, Qplus, Qopp, Qdiv, Qmult, Qinv, Qle, inject_Z. cbn. split; lia.
Qed.

Lemma wf_avail_le (T : Topology) (s : State) (u v : nat) :
  wf T s -> availCap s u v <= capacity T u v.
Proof.
  intros [_ Hn Hc]. specialize (Hc u v).
  pose proof (reserved_nonneg (eventQueue s) u v Hn). lia.
Qed.

(** *** States within the range of the cells *)

Lemma initial_float_range (links : list Link) (calls : list Call) :
  Forall (fun l : Link => 0 <= snd (fst l) <= float_whole /\
                          0 <= snd l <= float_whole) links ->
  float_range (topology_of links) (initial links calls).
Proof.
  intros Hl. unfold topology_of.
  assert (Hb : forall u v,
            0 <= propDelay (fst (load_topology links)) u v <= float_whole /\
            capacity (fst (load_topology links)) u v <= float_whole).
  { apply load_topology_bounds; [unfold float_whole; lia ..|].
    eapply Forall_impl; [exact Hl|]. cbv beta. intros l H. lia. }
  assert (Hn : forall u v, 0 <= capacity (topology_of links) u v).
  { apply load_topology_nonneg. eapply Forall_impl; [exact Hl|].
    cbv beta. intros l H. lia. }
  destruct (load_topology_spec links) as [_ Heq].
  split; unfold initial;
    cbn [availCap blockedCalls succCalls totalHops totalProp];
    try (unfold double_whole; cbn; lia).
  - intros u v. rewrite Heq. specialize (Hn u v). unfold topology_of in Hn.
    destruct (Hb u v). lia.
  - intros u v. now destruct (Hb u v).
  - intros u v. destruct (Hb u v). lia.
Qed.

Lemma float_range_prepared (p : Policy) (T : Topology) (i : nat) (s : State) :
  wf T s -> float_range T s ->
  float_range T (prepare p T i (timeUpdate i s)).
Proof.
  intros Hwf [Ha Hc Hd Hb Hs Hh Hp].
  pose proof (timeUpdate_wf T i s Hwf) as Hwf1.
  pose proof (timeUpdate_nonneg_avail i s (fun u v => proj1 (Ha u v))) as Hn1.
  destruct (timeUpdate_counters i s) as (Hb1 & Hs1 & Hh1 & Hp1).
  revert Hwf1 Hn1 Hb1 Hs1 Hh1 Hp1. generalize (timeUpdate i s).
  intros s1 Hwf1 Hn1 Hb1 Hs1 Hh1 Hp1.
  destruct (prepare_same_tables p T i s1) as [Ha2 _].
  destruct (prepare_counters p T i s1) as (Hb2 & Hs2 & Hh2 & Hp2).
  revert Ha2 Hb2 Hs2 Hh2 Hp2. generalize (prepare p T i s1).
  intros s2 Ha2 Hb2 Hs2 Hh2 Hp2.
  split; try congruence.
  intros u v. rewrite Ha2. split; [apply Hn1|].
  pose proof (wf_avail_le T s1 u v Hwf1). specialize (Hc u v). lia.
Qed.

Lemma process_nonneg_avail (p : Policy) (T : Topology) (i : nat) (s : State) :
  wf T s -> nonneg_avail s -> nonneg_avail (process p T i s).
Proof.
  intros Hwf Hn. unfold process.
  pose proof (timeUpdate_wf T i s Hwf) as Hwf1.
  pose proof (timeUpdate_nonneg_avail i s Hn) as Hn1.
  revert Hwf1 Hn1. generalize (timeUpdate i s). intros s1 Hwf1 Hn1.
  pose proof (wf_same_tables T _ _ (prepare_same_tables p T i s1) Hwf1)
    as Hwf2.
  destruct (prepare_same_tables p T i s1) as [Ha2 _].
  revert Hwf2 Ha2. generalize (prepare p T i s1). intros s2 Hwf2 Ha2.
  apply route_nonneg_avail; [exact (wf_sym _ _ Hwf2)|].
  intros u v. rewrite Ha2. apply Hn1.
Qed.

(** The table SHPF, LLP and MFC hand to the search costs every open link
    between 0 and 1. *)
Lemma policy_costs_unit (p : Policy) (T : Topology) (i : nat) (s : State) :
  p = SHPF \/ p = LLP \/ p = MFC -> wf T s ->
  availCap (prepare p T i s) = availCap s /\
  forall u v, (u < 26)%nat -> (v < 26)%nat -> 0 < availCap s u v ->
    (0 <= edge_costs p T (prepare p T i s) u v)%Q /\
    (edge_costs p T (prepare p T i s) u v <= 1)%Q.
Proof.
  intros Hp Hwf. pose proof (wf_sym _ _ Hwf) as [Hsym _].
  assert (Hs1 : availCap (on_event i (set_running true) s) = availCap s)
    by reflexivity.
  unfold prepare.
  set (s1 := on_event i (set_running true) s) in *. clearbody s1.
  assert (Hsym1 : sym_avail s1) by (intros u v; rewrite Hs1; apply Hsym).
  destruct Hp as [->|[->| ->]]; unfold update_costs, edge_costs.
  - split; [destruct (updateSHPF_cost s1 0 0 Hsym1) as [H _]; [lia|lia|];
            now rewrite H|].
    intros u v Hu Hv Hpos.
    destruct (updateSHPF_cost s1 u v Hsym1 Hu Hv) as [_ ->].
    rewrite Hs1. destruct (0 <? availCap s u v); split; discriminate.
  - split; [destruct (updateLLP_cost T s1 0 0) as [H _]; [lia|lia|];
            now rewrite H|].
    intros u v Hu Hv Hpos.
    destruct (updateLLP_cost T s1 u v Hu Hv) as [_ ->].
    unfold load. rewrite Hs1.
    apply load_unit; [exact Hpos|now apply wf_avail_le].
  - split; [destruct (updateMFC_cost T s1 0 0) as [H _]; [lia|lia|];
            now rewrite H|].
    intros u v Hu Hv Hpos.
    destruct (updateMFC_cost T s1 u v Hu Hv) as [_ ->].
    unfold share. rewrite Hs1.
    apply share_unit; [exact Hpos|now apply wf_avail_le].
Qed.

Definition reachable (adj : imatrix) (src dst : nat) : Prop :=
  (exists v, (v < 26)%nat /\ 0 < adj src v) /\
  exists p, path_between adj src dst p.

Lemma statics_lookup (s s' : State) (i : nat) (e : CallEvent) :
  statics s' = statics s -> eventQueue s !! i = Some e ->
  exists e', eventQueue s' !! i = Some e' /\
             source e' = source e /\ destination e' = destination e.
Proof.
  unfold statics. intros Hst He.
  assert (H : map static (eventQueue s') !! i = Some (static e))
    by (rewrite Hst, list_lookup_fmap, He; reflexivity).
  rewrite list_lookup_fmap in H.
  destruct (eventQueue s' !! i) as [e'|]; [|discriminate].
  exists e'. split; [reflexivity|]. cbn in H. unfold static in H.
  injection H as _ _ _ Hs Hd. now split.
Qed.

Lemma route_blocked_iff (p : Policy) (T : Topology) (i : nat) (s : State)
    (e : CallEvent) (R : Prop) :
  p = SHPF \/ p = LLP \/ p = MFC -> eventQueue s !! i = Some e ->
  (fst (updateState T (source e) (destination e) (edge_costs p T s) i s) = true
   <-> R) ->
  blockedCalls (route p T i s) = blockedCalls s + 1 <-> ~ R.
Proof.
  intros Hp He Hiff.
  pose proof (updateState_blockedCalls T (source e) (destination e)
                (edge_costs p T s) i s) as Hb.
  assert (Hr : route p T i s =
    if negb (fst (updateState T (source e) (destination e)
                    (edge_costs p T s) i s))
    then block i (snd (updateState T (source e) (destination e)
                         (edge_costs p T s) i s))
    else succeed (snd (updateState T (source e) (destination e)
                         (edge_costs p T s) i s))).
  { unfold route. rewrite He. now destruct Hp as [->|[->| ->]]. }
  rewrite Hr. clear Hr.
  generalize dependent (updateState T (source e) (destination e)
                          (edge_costs p T s) i s).
  intros r Hiff Hb.
  destruct (fst r); cbn [negb].
  - cbn [succeed blockedCalls set_succCalls]. rewrite Hb.
    split; [lia|]. intros Hn. exfalso. apply Hn, Hiff. reflexivity.
  - unfold block, on_event. cbn [blockedCalls set_eventQueue set_blockedCalls].
    rewrite Hb. split; [|reflexivity].
    intros _ Hr. apply Hiff in Hr. discriminate.
Qed.

(** X6. Event loop of SHPF, LLP and MFC ([main], lines 709-752, 869-912 and
    948-991, with [updateSHPF], [updateLLP], [updateMFC] and
    [updateState]): once the calls that ended have been released, the call
    is counted as blocked exactly when no path of links with free capacity
    leads from its source to its destination.  The costs of these policies
    never make the search miss a route. *)
Theorem blocked_iff_unreachable (p : Policy) (T : Topology) (i : nat)
    (s : State) (e : CallEvent) :
  p = SHPF \/ p = LLP \/ p = MFC -> wf T s -> eventQueue s !! i = Some e ->
  blockedCalls (process p T i s) = blockedCalls s + 1 <->
  ~ reachable (availCap (timeUpdate i s)) (source e) (destination e).
Proof.
  intros Hp Hwf He. unfold process.
  pose proof (timeUpdate_wf T i s Hwf) as Hwf1.
  destruct (timeUpdate_counters i s) as [Hb1 _].
  destruct (statics_lookup s (timeUpdate i s) i e (timeUpdate_statics i s) He)
    as (e1 & He1 & Hs1 & Hd1).
  revert Hwf1 Hb1 He1. generalize (timeUpdate i s). intros s1 Hwf1 Hb1 He1.
  rewrite <- Hb1, <- Hs1, <- Hd1. clear Hb1 Hs1 Hd1 He Hwf e s.
  destruct (policy_costs_unit p T i s1 Hp Hwf1) as [Ha Hcost].
  pose proof (wf_same_tables T _ _ (prepare_same_tables p T i s1) Hwf1) as Hwf2.
  destruct (prepare_counters p T i s1) as [Hb2 _].
  destruct (statics_lookup s1 (prepare p T i s1) i e1
              (prepare_statics p T i s1) He1) as (e2 & He2 & Hs2 & Hd2).
  revert Ha Hcost Hwf2 Hb2 He2. generalize (prepare p T i s1).
  intros s2 Ha Hcost Hwf2 Hb2 He2.
  rewrite <- Hb2, <- Hs2, <- Hd2, <- Ha. rewrite <- Ha in Hcost.
  pose proof (wf_sym _ _ Hwf2) as [Hsym _].
  apply (route_blocked_iff p T i s2 e2 _ Hp He2).
  exact (admitted_reachable T (source e2) (destination e2)
           (edge_costs p T s2) i s2 Hsym Hcost).
Qed.

(** ** The search finds a cheapest path *)

Lemma Qtrunc_grow (d : Z) (c : Q) :
  0 <= d -> (0 <= c)%Q -> d <= Qtrunc (inject_Z d + c).
Proof.
  destruct c as [n den]. unfold Qle, Qtrunc. simpl. intros Hd Hn.
  rewrite Z.quot_div_nonneg by nia.
  apply Z.div_le_lower_bound; nia.
Qed.

Lemma Qtrunc_mono (d d' : Z) (c : Q) :
  d <= d' -> Qtrunc (inject_Z d + c) <= Qtrunc (inject_Z d' + c).
Proof.
  destruct c as [n den]. unfold Qtrunc. simpl. intros Hd.
  apply Z.quot_le_mono; nia.
Qed.

Section Cheapest.
Variables (adj : imatrix) (edgeCost : fmatrix) (src dst : nat) (q0 : nat -> Z).
Hypothesis q0_bits : forall x, q0 x = 0 \/ q0 x = 1.
Hypothesis q0_range : forall x, q0 x = 1 -> (x < 26)%nat.
Hypothesis adj_queued :
  forall u v, (u < 26)%nat -> (v < 26)%nat -> 0 < adj u v -> q0 v = 1.
Hypothesis cost_nonneg :
  forall u v, (u < 26)%nat -> (v < 26)%nat -> 0 < adj u v ->
    (0 <= edgeCost u v)%Q.

(** [alt] for the link from [u] to [j] when [u] is at distance [d]. *)
Definition alt_of (u j : nat) (d : Z) : Z :=
  Qtrunc (inject_Z d + edgeCost u j).

(** The links of [u] to the nodes below [m] have been relaxed. *)
Definition relaxed_upto (st : Search) (u : nat) (m : nat) : Prop :=
  forall j, (j < m)%nat -> 0 < adj u j ->
    dist st j <= alt_of u j (dist st u).

(** No node that has left the queue is farther than [u]. *)
Definition farthest (st : Search) (u : nat) : Prop :=
  forall x, q0 x = 1 -> queue st x = 0 -> dist st x <= dist st u.

(** The invariant of the loop: the nodes that have left the queue are no
    farther than the queued ones, and, but for the one that is being
    relaxed ([ex]), no link out of them shortens a distance. *)
Record OInv (ex : nat -> Prop) (st : Search) : Prop := mk_OInv {
  oi_bits : forall j, queue st j = 0 \/ queue st j = 1;
  oi_sub : forall j, queue st j = 1 -> q0 j = 1;
  oi_nonneg : forall j, 0 <= dist st j;
  oi_src : dist st src = 0;
  oi_first : (q0 src = 1 /\ queue st src = 0) \/
             forall j, j <> src -> dist st j = 999;
  oi_order : forall x y, q0 x = 1 -> queue st x = 0 -> queue st y = 1 ->
             dist st x <= dist st y;
  oi_relaxed : forall x, q0 x = 1 -> queue st x = 0 -> ~ ex x ->
               relaxed_upto st x 26
}.

Lemma pop_OInv (n : nat) (st : Search) (u : nat) :
  OInv nobody st -> (u < 26)%nat -> queue st u = 1 -> dist st u < 999 ->
  (forall i, (i < 26)%nat -> queue st i = 1 -> dist st u <= dist st i) ->
  OInv (eq u) (mkSearch (aset (queue st) u 0) n (previousVertex st)
                        (dist st) (foundFlag st)) /\
  q0 u = 1 /\ farthest st u.
Proof.
  intros [Hbits Hsub Hnn Hsrc Hfirst Hord Hrel] Hu Hq Hd Hmin.
  assert (Hq0u : q0 u = 1) by now apply Hsub.
  split; [|split; [exact Hq0u|]].
  - split; cbn [queue dist].
    + intros j. unfold aset. destruct (j =? u)%nat; auto.
    + intros j. unfold aset. destruct (j =? u)%nat; [discriminate|apply Hsub].
    + exact Hnn.
    + exact Hsrc.
    + left. destruct Hfirst as [[H1 H2]|Hall].
      * split; [exact H1|]. unfold aset. now destruct (src =? u)%nat.
      * destruct (Nat.eq_dec u src) as [<-|Hne].
        -- split; [exact Hq0u|]. unfold aset. now rewrite Nat.eqb_refl.
        -- specialize (Hall u Hne). lia.
    + intros x y Hx. unfold aset.
      destruct (Nat.eqb_spec y u) as [->|Hy]; [discriminate|].
      destruct (Nat.eqb_spec x u) as [->|Hxu].
      * intros _ Hqy. apply Hmin; [|exact Hqy]. now apply q0_range, Hsub.
      * now apply Hord.
    + intros x Hx. unfold aset. destruct (Nat.eqb_spec x u) as [->|].
      * intros _ Hne. now destruct Hne.
      * intros Hqx _. now apply Hrel.
  - intros x Hx Hqx. now apply Hord.
Qed.

Lemma relax_one_OInv (u m : nat) (st : Search) :
  (m < 26)%nat -> q0 u = 1 -> queue st u = 0 -> farthest st u ->
  OInv (eq u) st -> relaxed_upto st u m ->
  let st' := relax_one adj edgeCost u m st in
  OInv (eq u) st' /\ relaxed_upto st' u (S m) /\ farthest st' u /\
  queue st' = queue st /\ foundFlag st' = foundFlag st.
Proof.
  intros Hm Hq0u Hqu Hfar Hinv Hcl. cbv zeta.
  pose proof Hinv as [Hbits Hsub Hnn Hsrc Hfirst Hord Hrel].
  assert (Hu26 : (u < 26)%nat) by now apply q0_range.
  assert (Hkeep : relaxed_upto st u (S m) ->
            OInv (eq u) st /\ relaxed_upto st u (S m) /\ farthest st u /\
            queue st = queue st /\ foundFlag st = foundFlag st)
    by (intros Hc; repeat (split; [assumption|]); split; reflexivity).
  assert (Hext : (0 < adj u m -> dist st m <= alt_of u m (dist st u)) ->
                 relaxed_upto st u (S m)).
  { intros Hdm j Hj Haj. destruct (Nat.eq_dec j m) as [->|]; [now apply Hdm|].
    apply Hcl; [lia|exact Haj]. }
  unfold relax_one. cbv zeta.
  change (Qtrunc (inject_Z (dist st u) + edgeCost u m))
    with (alt_of u m (dist st u)).
  destruct (Z.ltb_spec 0 (queue st m)) as [Hqm|Hqm].
  - destruct (Z.ltb_spec 0 (adj u m)) as [Ham|Ham].
    + pose proof (Qtrunc_grow (dist st u) (edgeCost u m) (Hnn u)
                    (cost_nonneg u m Hu26 Hm Ham)) as Halt.
      change (Qtrunc (inject_Z (dist st u) + edgeCost u m))
        with (alt_of u m (dist st u)) in Halt.
      set (alt := alt_of u m (dist st u)) in *.
      destruct (Z.ltb_spec alt (dist st m)) as [Hlt|Hge].
      * assert (Hmu : m <> u) by (intros ->; lia).
        assert (Hqm1 : queue st m = 1) by (destruct (Hbits m); lia).
        assert (Hout : forall x, queue st x = 0 ->
                         aset (dist st) m alt x = dist st x).
        { intros x Hx. unfold aset.
          destruct (Nat.eqb_spec x m); [congruence|reflexivity]. }
        assert (Hle : forall x, aset (dist st) m alt x <= dist st x).
        { intros x. unfold aset. destruct (Nat.eqb_spec x m); [subst|]; lia. }
        split; [split; cbn [queue dist]|].
        -- exact Hbits.
        -- exact Hsub.
        -- intros j. unfold aset. destruct (j =? m)%nat; [|apply Hnn].
           specialize (Hnn u). lia.
        -- unfold aset. destruct (Nat.eqb_spec src m) as [->|]; [|exact Hsrc].
           specialize (Hnn u). lia.
        -- left. destruct Hfirst as [H|Hall]; [exact H|].
           destruct (Nat.eq_dec u src) as [<-|Hne]; [now split|].
           pose proof (Hall u Hne) as Hdu.
           assert (dist st m <= 999).
           { destruct (Nat.eq_dec m src) as [->|Hms]; [lia|].
             rewrite (Hall m Hms). lia. }
           lia.
        -- intros x y Hx Hqx Hqy. rewrite (Hout x Hqx). unfold aset.
           destruct (Nat.eqb_spec y m) as [->|]; [|now apply Hord].
           specialize (Hfar x Hx Hqx). lia.
        -- intros x Hx Hqx Hne j Hj Haj. cbn [dist]. rewrite (Hout x Hqx).
           specialize (Hrel x Hx Hqx Hne j Hj Haj). specialize (Hle j). lia.
        -- unfold relaxed_upto, farthest. cbn [queue dist foundFlag].
           split; [|split; [|split; reflexivity]].
           ++ intros j Hj Haj. rewrite (Hout u Hqu). unfold aset.
              destruct (Nat.eqb_spec j m) as [->|]; [reflexivity|].
              apply Hcl; [lia|exact Haj].
           ++ intros x Hx Hqx. rewrite (Hout x Hqx), (Hout u Hqu).
              now apply Hfar.
      * apply Hkeep, Hext. intros _. exact Hge.
    + apply Hkeep, Hext. intros H. lia.
  - apply Hkeep, Hext. intros Ham.
    assert (Hqm0 : queue st m = 0) by (destruct (Hbits m); lia).
    pose proof (Hfar m (adj_queued u m Hu26 Hm Ham) Hqm0) as H1.
    pose proof (Qtrunc_grow (dist st u) (edgeCost u m) (Hnn u)
                  (cost_nonneg u m Hu26 Hm Ham)) as H2.
    unfold alt_of. lia.
Qed.

Lemma relax_OInv (u : nat) (st : Search) :
  q0 u = 1 -> queue st u = 0 -> farthest st u -> OInv (eq u) st ->
  OInv nobody (relax adj edgeCost u st) /\
  queue (relax adj edgeCost u st) = queue st /\
  foundFlag (relax adj edgeCost u st) = foundFlag st.
Proof.
  intros Hq0u Hqu Hfar Hinv. unfold relax.
  assert (H : (fun m st' =>
                 OInv (eq u) st' /\ relaxed_upto st' u m /\ farthest st' u /\
                 queue st' = queue st /\ foundFlag st' = foundFlag st)
              26%nat (for_nodes (relax_one adj edgeCost u) st)).
  { apply for_nodes_prefix.
    - split; [exact Hinv|]. split; [intros j Hj; lia|].
      split; [exact Hfar|]. split; reflexivity.
    - intros m st' Hm (Hi & Hc & Hfa & Hq & Hf).
      assert (Hqu' : queue st' u = 0) by (rewrite Hq; exact Hqu).
      pose proof (relax_one_OInv u m st' Hm Hq0u Hqu' Hfa Hi Hc) as H'.
      cbv zeta in H'. destruct H' as (Hi' & Hc' & Hfa' & Hq' & Hf').
      split; [exact Hi'|]. split; [exact Hc'|]. split; [exact Hfa'|].
      split; [now rewrite Hq'|now rewrite Hf']. }
  cbv beta in H.
  destruct H as ([Hb Hs Hn Hsr Hfi Ho Hr] & Hclu & _ & Hq & Hf).
  split; [|split; assumption].
  split; auto.
  intros x Hx Hqx _. destruct (Nat.eq_dec u x) as [<-|Hne]; [exact Hclu|].
  now apply Hr.
Qed.


Lemma initial_OInv (n : nat) :
  OInv nobody
    (mkSearch q0 n (fun _ => -1) (aset (fun _ => 999) src 0) 0).
Proof.
  split; cbn [queue dist]; auto.
  - intros j. unfold aset. destruct (j =? src)%nat; lia.
  - unfold aset. now rewrite Nat.eqb_refl.
  - right. intros j Hj. unfold aset.
    destruct (Nat.eqb_spec j src); [congruence|reflexivity].
  - intros x y Hx Hq. lia.
  - intros x Hx Hq. lia.
Qed.

Lemma ones_pop (q : nat -> Z) (u n : nat) :
  (u < 26)%nat -> q u = 1 -> ones q nodes = S n ->
  ones (aset q u 0) nodes = n.
Proof.
  intros Hu Hq Hcount.
  pose proof (ones_aset_in q u 0 nodes nodes_NoDup
                (proj2 (node_in_nodes u) Hu)) as H.
  rewrite Hq in H. change (1 =? 1) with true in H.
  change (0 =? 1) with false in H. cbv iota in H. lia.
Qed.

(** When the loop leaves without the destination, every node still queued
    is at distance 999. *)
Lemma search_loop_gives_up (n : nat) (st : Search) :
  OInv nobody st -> ones (queue st) nodes = n ->
  (q0 dst = 1 -> queue st dst = 1) -> foundFlag st <> 1 ->
  let st' := search_loop n adj edgeCost dst st in
  foundFlag st' <> 1 ->
  OInv nobody st' /\ (q0 dst = 1 -> queue st' dst = 1) /\
  forall j, (j < 26)%nat -> queue st' j = 1 -> 999 <= dist st' j.
Proof.
  revert st. induction n as [|n IH]; intros st Hinv Hcount Hdst Hf; cbv zeta.
  - cbn [search_loop]. intros _. split; [exact Hinv|]. split; [exact Hdst|].
    intros j Hj Hq. exfalso.
    apply (ones_zero (queue st) nodes j Hcount);
      [now apply node_in_nodes|exact Hq].
  - cbn [search_loop].
    destruct (minDist_cases (dist st) (queue st))
      as [[H50 Hnone]|(Hu & Hq & Hd & Hmin)].
    + rewrite H50. change (27 <? 50)%nat with true. cbv iota. intros _.
      split; [exact Hinv|]. split; assumption.
    + set (u := minDistVertexInQueue (dist st) (queue st)) in *.
      destruct (Nat.ltb_spec 27 u) as [|_]; [lia|].
      destruct (pop_OInv n st u Hinv Hu Hq Hd Hmin) as (Hinv1 & Hq0u & Hfar).
      destruct (Nat.eqb_spec u dst) as [Heq|Hne].
      * cbn [foundFlag]. intros H. now destruct H.
      * cbn [queue size previousVertex dist foundFlag].
        set (st1 := mkSearch (aset (queue st) u 0) n (previousVertex st)
                             (dist st) (foundFlag st)) in *.
        assert (Hqu1 : queue st1 u = 0).
        { unfold st1. cbn [queue]. unfold aset. now rewrite Nat.eqb_refl. }
        assert (Hfar1 : farthest st1 u).
        { intros x Hx. unfold st1. cbn [queue dist]. unfold aset.
          destruct (Nat.eqb_spec x u) as [->|]; [lia|]. now apply Hfar. }
        assert (Hc1 : ones (queue st1) nodes = n)
          by (exact (ones_pop (queue st) u n Hu Hq Hcount)).
        destruct (relax_OInv u st1 Hq0u Hqu1 Hfar1 Hinv1) as (Hinv2 & Hq2 & Hf2).
        apply IH; [exact Hinv2|now rewrite Hq2| |now rewrite Hf2].
        intros Hqd. rewrite Hq2. unfold st1. cbn [queue]. unfold aset.
        destruct (Nat.eqb_spec dst u); [congruence|now apply Hdst].
Qed.

(** From such a state every path to the destination costs 999 or more. *)
Lemma given_up_costly (st : Search) :
  OInv nobody st -> (q0 dst = 1 -> queue st dst = 1) ->
  (forall j, (j < 26)%nat -> queue st j = 1 -> 999 <= dist st j) ->
  q0 src = 1 ->
  forall p, path_between adj src dst p -> 999 <= path_cost edgeCost p.
Proof.
  intros [Hbits Hsub Hnn Hsrc Hfirst Hord Hrel] Hdst Hnone Hq0s p
         (Hh & Hl & _ & Hr & Hp).
  assert (Hwalk : forall p a d,
            head p = Some a -> last p = Some dst ->
            Forall (fun x => (x < 26)%nat) p -> is_path adj p -> 0 <= d ->
            999 <= d \/ (q0 a = 1 /\ queue st a = 0 /\ dist st a <= d) ->
            999 <= cost_from edgeCost d p).
  { clear p Hh Hl Hr Hp.
    induction p as [|x p IH]; intros a d Hh Hl Hr Hp Hd Hgood; [discriminate|].
    injection Hh as ->. destruct p as [|y p].
    - injection Hl as <-. cbn [cost_from].
      destruct Hgood as [H|(Hqa & Hpa & _)]; [exact H|].
      specialize (Hdst Hqa). lia.
    - destruct Hp as [Hxy Hp]. rewrite last_cons_cons in Hl.
      apply Forall_cons in Hr. destruct Hr as [Ha Hr].
      assert (Hy : (y < 26)%nat) by (apply Forall_cons in Hr; tauto).
      change (cost_from edgeCost d (a :: y :: p))
        with (cost_from edgeCost (alt_of a y d) (y :: p)).
      pose proof (Qtrunc_grow d (edgeCost a y) Hd (cost_nonneg a y Ha Hy Hxy))
        as Hgrow. fold (alt_of a y d) in Hgrow.
      apply (IH y (alt_of a y d) eq_refl Hl Hr Hp); [lia|].
      destruct Hgood as [H|(Hqa & Hpa & Hda)]; [left; lia|].
      assert (Hdy : dist st y <= alt_of a y d).
      { pose proof (Hrel a Hqa Hpa (fun H => H) y Hy Hxy) as H1.
        pose proof (Qtrunc_mono (dist st a) d (edgeCost a y) Hda) as H2.
        unfold alt_of in *. lia. }
      assert (Hq0y : q0 y = 1) by now apply (adj_queued a y).
      destruct (Hbits y) as [Hy0|Hy1].
      + right. repeat split; assumption.
      + left. specialize (Hnone y Hy Hy1). lia. }
  apply (Hwalk p src 0 Hh Hl Hr Hp); [lia|].
  right. split; [exact Hq0s|]. split; [|lia].
  destruct (Hbits src) as [H0|H1]; [exact H0|].
  assert (Hs26 : (src < 26)%nat) by now apply q0_range.
  specialize (Hnone src Hs26 H1). lia.
Qed.
End Cheapest.




(** ** What SHPF and SDPF minimise *)



Lemma prepare_SHPF_cost (T : Topology) (i : nat) (s : State) (u v : nat) :
  sym_avail s -> (u < 26)%nat -> (v < 26)%nat -> 0 < availCap s u v ->
  cost (prepare SHPF T i s) u v = 1%Q.
Proof.
  intros Hsym Hu Hv Hpos. unfold prepare, update_costs.
  assert (Hs1 : availCap (on_event i (set_running true) s) = availCap s)
    by reflexivity.
  set (s1 := on_event i (set_running true) s) in *. clearbody s1.
  assert (Hsym1 : sym_avail s1) by (intros a b; rewrite Hs1; apply Hsym).
  destruct (updateSHPF_cost s1 u v Hsym1 Hu Hv) as [_ ->].
  rewrite Hs1. destruct (Z.ltb_spec 0 (availCap s u v)); [reflexivity|lia].
Qed.










(** ** The theorems on the link of capacity 2 *)


Lemma prepared_costs_unit (p : Policy) (T : Topology) (i : nat) (s : State)
    (u v : nat) :
  p = SHPF \/ p = LLP \/ p = MFC -> wf T s ->
  (u < 26)%nat -> (v < 26)%nat -> 0 < availCap (prepare p T i s) u v ->
  (0 <= cost (prepare p T i s) u v)%Q /\ (cost (prepare p T i s) u v <= 1)%Q.
Proof.
  intros Hp Hwf Hu Hv.
  destruct (policy_costs_unit p T i s Hp Hwf) as [Ha Hc].
  assert (He : edge_costs p T (prepare p T i s) = cost (prepare p T i s))
    by (destruct Hp as [->|[->| ->]]; reflexivity).
  rewrite He in Hc. rewrite Ha. apply Hc; assumption.
Qed.

Lemma first_call_costs (u v : nat) :
  (u < 26)%nat -> (v < 26)%nat -> 0 < availCap first_call u v ->
  (0 <= cost first_call u v)%Q /\ (cost first_call u v <= 1)%Q.
Proof.
  apply (prepared_costs_unit SHPF (topology_of one_link) 0
           (timeUpdate 0 (initial one_link two_calls))).
  - left. reflexivity.
  - apply timeUpdate_wf, initial_wf.
Qed.

Lemma one_link_range :
  Forall (fun l : Link => 0 <= snd (fst l) <= float_whole /\
                          0 <= snd l <= float_whole) one_link.
Proof. constructor; [unfold float_whole; cbn; lia|constructor]. Qed.



Lemma first_call_float_range : float_range (topology_of one_link) first_call.
Proof.
  apply (float_range_prepared SHPF (topology_of one_link) 0
           (initial one_link two_calls)).
  - apply initial_wf.
  - apply initial_float_range, one_link_range.
Qed.

Lemma prepared_SHPF_whole (T : Topology) (i : nat) (s : State) :
  wf T s ->
  whole_costs (availCap (prepare SHPF T i s)) (cost (prepare SHPF T i s)).
Proof.
  intros Hwf u v Hu Hv. pose proof (wf_sym _ _ Hwf) as [Hsym _].
  destruct (prepare_same_tables SHPF T i s) as [Ha _]. rewrite Ha.
  intros Hpos. exists 1. split; [|lia].
  exact (prepare_SHPF_cost T i s u v Hsym Hu Hv Hpos).
Qed.

Lemma first_call_whole : whole_costs (availCap first_call) (cost first_call).
Proof.
  apply (prepared_SHPF_whole (topology_of one_link) 0
           (timeUpdate 0 (initial one_link two_calls))).
  apply timeUpdate_wf, initial_wf.
Qed.

(** The theorem at the first call of the scenario with two calls. *)
Lemma admitted_call_reserves_a_path_witness :
  exists p,
    path_between (availCap first_call) A B p /\
    path_cost (cost first_call) p < 999 /\
    (forall u v,
       availCap (snd (updateState (topology_of one_link) A B (cost first_call)
                        0 first_call)) u v
       = availCap first_call u v - crossings p u v) /\
    (exists e',
       eventQueue (snd (updateState (topology_of one_link) A B (cost first_call)
                          0 first_call)) !! 0%nat
       = Some e' /\
       running e' = running (set_running true (newCallEvent 0 10 A B)) /\
       static e' = static (set_running true (newCallEvent 0 10 A B)) /\
       forall u v, resources e' u v
                   = resources (set_running true (newCallEvent 0 10 A B)) u v
                     + crossings p u v) /\
    (forall j, j <> 0%nat ->
       eventQueue (snd (updateState (topology_of one_link) A B (cost first_call)
                          0 first_call)) !! j
       = eventQueue first_call !! j) /\
    totalHops (snd (updateState (topology_of one_link) A B (cost first_call)
                      0 first_call))
    = totalHops first_call + Z.of_nat (length p - 1) /\
    totalProp (snd (updateState (topology_of one_link) A B (cost first_call)
                      0 first_call))
    = totalProp first_call + path_delay (topology_of one_link) p.
Proof.
  apply (admitted_call_reserves_a_path (topology_of one_link) A B
           (cost first_call) 0 first_call
           (set_running true (newCallEvent 0 10 A B))).
  - exact (wf_sym _ _ first_call_wf).
  - exact first_call_float_range.
  - left. exact first_call_costs.
  - vm_compute. reflexivity.
  - vm_compute. reflexivity.
Defined.


(** The theorem at the first call of the scenario with two calls. *)
Lemma admitted_iff_reachable_witness :
  fst (updateState (topology_of one_link) A B (cost first_call) 0 first_call)
  = true <->
  (exists v, (v < 26)%nat /\ 0 < availCap first_call A v) /\
  exists p, path_between (availCap first_call) A B p.
Proof.
  apply (admitted_iff_reachable (topology_of one_link) A B (cost first_call)
           0 first_call).
  - exact (proj1 (wf_sym _ _ first_call_wf)).
  - exact first_call_costs.
Defined.

(** The theorem at the first call of the scenario with two calls. *)
Lemma blocked_iff_unreachable_witness :
  blockedCalls (process SHPF (topology_of one_link) 0
                  (initial one_link two_calls))
  = blockedCalls (initial one_link two_calls) + 1 <->
  ~ reachable (availCap (timeUpdate 0 (initial one_link two_calls)))
      (source (newCallEvent 0 10 A B)) (destination (newCallEvent 0 10 A B)).
Proof.
  apply (blocked_iff_unreachable SHPF (topology_of one_link) 0
           (initial one_link two_calls) (newCallEvent 0 10 A B)).
  - left. reflexivity.
  - apply initial_wf.
  - reflexivity.
Defined.




(** ** The walk back from the destination *)

(** [curr] after [k] turns of [curr = previousVertex[curr]]. *)
Fixpoint back (prev : nat -> Z) (k : nat) (curr : nat) : nat :=
  match k with
  | O => curr
  | S k' => back prev k' (Z.to_nat (prev curr))
  end.

Lemma chain_back (adj : imatrix) (edgeCost : fmatrix) (src : nat)
    (st : Search) (j : nat) (l : list nat) :
  chain adj edgeCost src st j l ->
  back (previousVertex st) (length l - 1) j = src /\
  forall k, (k < length l - 1)%nat ->
    -1 < previousVertex st (back (previousVertex st) k j).
Proof.
  induction 1 as [|j u l Hp Hqu Hu Ha Hd Hn Hs Hc IH].
  - split; [reflexivity|]. cbn [length]. intros k Hk. lia.
  - destruct IH as [IH1 IH2].
    destruct (chain_head _ _ _ _ _ _ Hc) as [t ->].
    replace (length (j :: u :: t) - 1)%nat with (S (length (u :: t) - 1))
      by (cbn [length]; lia).
    cbn [back]. rewrite Hp, Nat2Z.id. split; [exact IH1|].
    intros [|k] Hk; cbn [back]; [lia|].
    rewrite Hp, Nat2Z.id. apply IH2. lia.
Qed.

Lemma count_hops_chain (adj : imatrix) (edgeCost : fmatrix) (src : nat)
    (st : Search) (j : nat) (l : list nat) :
  chain adj edgeCost src st j l -> previousVertex st src = -1 ->
  forall (fuel : nat) (h : Z), (length l <= fuel)%nat ->
    count_hops fuel (previousVertex st) j h = h + Z.of_nat (length l - 1).
Proof.
  intros Hc H0. induction Hc as [|j u l Hp Hqu Hu Ha Hd Hn Hs Hc IH];
    intros fuel h Hf; cbn [length] in Hf.
  - destruct fuel as [|fuel]; [lia|]. cbn [count_hops]. rewrite H0.
    cbn. lia.
  - destruct fuel as [|fuel]; [lia|]. cbn [count_hops]. rewrite Hp.
    destruct (Z.ltb_spec (-1) (Z.of_nat u)); [|lia].
    rewrite Nat2Z.id, IH by lia.
    destruct (chain_head _ _ _ _ _ _ Hc) as [t ->]. cbn [length]. lia.
Qed.

(** What a successful search leaves behind. *)
Lemma dijkstra_path (cap adj : imatrix) (edgeCost : fmatrix) (src dst : nat) :
  foundFlag (dijkstra cap adj edgeCost src dst) = 1 ->
  exists l,
    chain adj edgeCost src (dijkstra cap adj edgeCost src dst) dst l /\
    previousVertex (dijkstra cap adj edgeCost src dst) src = -1 /\
    (length l <= 26)%nat /\
    path_between adj src dst (reverse l) /\
    path_cost edgeCost (reverse l) = dist (dijkstra cap adj edgeCost src dst) dst.
Proof.
  intros Hf.
  destruct (dijkstra_chain _ _ _ _ _ Hf) as (l & Hl & Hp0 & Hd0 & Hlt & Hr).
  set (st := dijkstra cap adj edgeCost src dst) in *. clearbody st.
  pose proof (chain_NoDup _ _ _ _ _ _ Hl) as Hnd.
  destruct (chain_reverse_path _ _ _ _ _ _ Hd0 Hl) as [Hpath Hcost].
  exists l. split; [exact Hl|]. split; [exact Hp0|].
  split; [now apply short_list|]. split; [|exact Hcost].
  split; [|split; [|split; [|split]]].
  - rewrite head_reverse. eapply chain_last; eauto.
  - rewrite last_reverse. destruct (chain_head _ _ _ _ _ _ Hl) as [t ->].
    reflexivity.
  - now rewrite reverse_Permutation.
  - now apply Forall_reverse.
  - exact Hpath.
Qed.

(** X10. [updateState], lines 577-598, and [emptySHPO], lines 449-458: the
    loop [while (previousVertex[curr] > -1)] that walks back from a
    destination the search has found ends: after at most 25 turns [curr] is
    the source, whose [previousVertex] is -1, and [emptySHPO] returns the
    number of turns. *)
Theorem walk_back_reaches_source (cap adj : imatrix) (edgeCost : fmatrix)
    (src dst : nat) :
  foundFlag (dijkstra cap adj edgeCost src dst) = 1 ->
  exists n,
    (n <= 25)%nat /\
    back (previousVertex (dijkstra cap adj edgeCost src dst)) n dst = src /\
    previousVertex (dijkstra cap adj edgeCost src dst) src = -1 /\
    (forall k, (k < n)%nat ->
       -1 < previousVertex (dijkstra cap adj edgeCost src dst)
              (back (previousVertex (dijkstra cap adj edgeCost src dst)) k dst)) /\
    count_hops 26 (previousVertex (dijkstra cap adj edgeCost src dst)) dst 0
    = Z.of_nat n.
Proof.
  intros Hf.
  destruct (dijkstra_path cap adj edgeCost src dst Hf)
    as (l & Hl & Hp0 & Hlen & _ & _).
  destruct (chain_back _ _ _ _ _ _ Hl) as [Hb1 Hb2].
  pose proof (count_hops_chain _ _ _ _ _ _ Hl Hp0 26 0 Hlen) as Hc.
  exists (length l - 1)%nat. split; [lia|]. split; [exact Hb1|].
  split; [exact Hp0|]. split; [exact Hb2|]. rewrite Hc. lia.
Qed.

(** The search at the first call. *)
Lemma walk_back_reaches_source_witness :
  exists n,
    (n <= 25)%nat /\
    back (previousVertex (dijkstra (availCap first_call) (availCap first_call)
                            (cost first_call) A B)) n B = A /\
    previousVertex (dijkstra (availCap first_call) (availCap first_call)
                      (cost first_call) A B) A = -1 /\
    (forall k, (k < n)%nat ->
       -1 < previousVertex (dijkstra (availCap first_call)
                              (availCap first_call) (cost first_call) A B)
              (back (previousVertex (dijkstra (availCap first_call)
                                       (availCap first_call)
                                       (cost first_call) A B)) k B)) /\
    count_hops 26 (previousVertex (dijkstra (availCap first_call)
                                     (availCap first_call)
                                     (cost first_call) A B)) B 0
    = Z.of_nat n.
Proof.
  apply (walk_back_reaches_source (availCap first_call) (availCap first_call)
           (cost first_call) A B).
  vm_compute. reflexivity.
Defined.

(** ** The first operand of the SHPO test *)








(** ** Every policy runs on the same input *)

Lemma load_topology_avail (links : list Link) :
  snd (load_topology links) = capacity (fst (load_topology links)).
Proof.
  unfold load_topology.
  assert (H : forall acc : Topology * imatrix,
             snd acc = capacity (fst acc) ->
             snd (fold_left (fun acc l => load_link l acc) links acc)
             = capacity (fst (fold_left (fun acc l => load_link l acc) links acc))).
  { induction links as [|[[[a b] c] d] links IH]; intros [T av] Hacc;
      [exact Hacc|].
    cbn [fold_left]. apply IH. cbn in *. now rewrite Hacc. }
  apply H. reflexivity.
Qed.

Lemma reset_load_calls (calls : list Call) :
  map reset (load_calls calls) = load_calls calls.
Proof.
  unfold load_calls. induction calls as [|[[[a b] c] d] calls IH];
    [reflexivity|].
  cbn [map]. rewrite IH. reflexivity.
Qed.

Lemma restart_initial (links : list Link) (calls : list Call) :
  restart links calls = initial links calls.
Proof.
  unfold restart, clearValues, initial, topology_of. cbn [eventQueue].
  now rewrite reset_load_calls, load_topology_avail.
Qed.

(** X12. [clearValues], lines 117-139, between the policy blocks of [main]:
    it restores exactly the state the first policy started from, so every
    row of the output is the statistics of its policy run on the freshly
    loaded topology and workload, whatever ran before. *)
Theorem policies_run_on_the_same_input (links : list Link)
    (calls : list Call) :
  main links calls
  = map (fun p => statistics (run p (topology_of links)
                                (initial links calls)))
        policies.
Proof.
  rewrite main_rows, restart_initial. reflexivity.
Qed.

(** ** What MFC minimises *)








(** ** Only calls in progress hold circuits *)

(** No circuit of the 26 nodes is recorded for [e]. *)
Definition holds_nothing (e : CallEvent) : Prop :=
  forall u v, (u < 26)%nat -> (v < 26)%nat -> resources e u v = 0.

(** Every event that is not running holds nothing. *)
Definition idle_free (s : State) : Prop :=
  forall j e, eventQueue s !! j = Some e -> running e = false ->
    holds_nothing e.

(** The events from [i] on have not been started. *)
Definition pending_from (i : nat) (s : State) : Prop :=
  forall j e, (i <= j)%nat -> eventQueue s !! j = Some e -> running e = false.

Lemma timeUpdate_idle (T : Topology) (i : nat) (s : State) :
  wf T s -> idle_free s -> pending_from i s ->
  idle_free (timeUpdate i s) /\ pending_from i (timeUpdate i s).
Proof.
  intros [Hsym Hnn _] Hidle Hpend.
  destruct (timeUpdate_expired i s Hsym Hnn) as [_ Hlater Hkept Hdone _].
  generalize dependent (timeUpdate i s). intros s1 Hlater Hkept Hdone.
  split.
  - intros j e' He' Hrun. destruct (Nat.lt_ge_cases j i) as [Hj|Hj].
    + destruct (expiring i s j) eqn:Hx.
      * destruct (Hdone j Hj Hx) as (e0 & e1 & _ & He1 & _ & _ & Hclear).
        rewrite He' in He1. injection He1 as <-. exact Hclear.
      * rewrite (Hkept j Hj Hx) in He'. exact (Hidle j e' He' Hrun).
    + rewrite (Hlater j Hj) in He'. exact (Hidle j e' He' Hrun).
  - intros j e' Hj He'. rewrite (Hlater j Hj) in He'.
    exact (Hpend j e' Hj He').
Qed.

Lemma prepare_events (p : Policy) (T : Topology) (i : nat) (s : State) :
  eventQueue (prepare p T i s) = alter (set_running true) i (eventQueue s).
Proof.
  unfold prepare.
  destruct (update_costs_frame p T (on_event i (set_running true) s))
    as (_ & Hq & _).
  rewrite Hq. reflexivity.
Qed.

Lemma prepare_idle (p : Policy) (T : Topology) (i : nat) (s : State) :
  idle_free s -> pending_from i s ->
  idle_free (prepare p T i s) /\ pending_from (S i) (prepare p T i s) /\
  forall e, eventQueue (prepare p T i s) !! i = Some e -> holds_nothing e.
Proof.
  intros Hidle Hpend. unfold idle_free, pending_from.
  rewrite prepare_events.
  split; [|split].
  - intros j e He Hrun. destruct (Nat.eq_dec j i) as [->|Hne].
    + rewrite list_lookup_alter_eq in He.
      destruct (eventQueue s !! i) as [e0|]; [|discriminate].
      cbn in He. injection He as <-. discriminate.
    + rewrite list_lookup_alter_ne in He by congruence.
      exact (Hidle j e He Hrun).
  - intros j e Hj He. rewrite list_lookup_alter_ne in He by lia.
    apply (Hpend j e); [lia|exact He].
  - intros e He. rewrite list_lookup_alter_eq in He.
    destruct (eventQueue s !! i) as [e0|] eqn:He0; [|discriminate].
    cbn in He. injection He as <-.
    exact (Hidle i e0 He0 (Hpend i e0 (Nat.le_refl i) He0)).
Qed.

Lemma block_idle (i : nat) (s : State) :
  idle_free s -> pending_from (S i) s ->
  (forall e, eventQueue s !! i = Some e -> holds_nothing e) ->
  idle_free (block i s) /\ pending_from (S i) (block i s).
Proof.
  intros Hidle Hpend Hcur. unfold idle_free, pending_from, block, on_event.
  cbn [eventQueue set_eventQueue set_blockedCalls]. split.
  - intros j e He Hrun. destruct (Nat.eq_dec j i) as [->|Hne].
    + rewrite list_lookup_alter_eq in He.
      destruct (eventQueue s !! i) as [e0|] eqn:He0; [|discriminate].
      cbn in He. injection He as <-. exact (Hcur e0 eq_refl).
    + rewrite list_lookup_alter_ne in He by congruence.
      exact (Hidle j e He Hrun).
  - intros j e Hj He. rewrite list_lookup_alter_ne in He by lia.
    apply (Hpend j e); [lia|exact He].
Qed.

(** [updateState] changes no event but [current], and leaves the flag of
    that one as it is. *)
Lemma updateState_events (T : Topology) (src dst : nat) (edgeCost : fmatrix)
    (current : nat) (s : State) (e : CallEvent) :
  symmetric s -> eventQueue s !! current = Some e ->
  (forall j, j <> current ->
     eventQueue (snd (updateState T src dst edgeCost current s)) !! j
     = eventQueue s !! j) /\
  exists e',
    eventQueue (snd (updateState T src dst edgeCost current s)) !! current
    = Some e' /\ running e' = running e.
Proof.
  intros Hsym He.
  pose proof (updateState_walk T src dst edgeCost current s e Hsym He) as Hw.
  pose proof (updateState_false T src dst edgeCost current s) as Hf.
  generalize dependent (updateState T src dst edgeCost current s).
  intros r Hw Hf. destruct (fst r).
  - destruct (Hw eq_refl) as (l & _ & _ & [_ (e' & He' & Hrun & _) Hoth _ _ _]).
    split; [exact Hoth|]. exists e'. now split.
  - rewrite (Hf eq_refl). split; [reflexivity|]. exists e. now split.
Qed.

Lemma updateState_idle (T : Topology) (src dst : nat) (edgeCost : fmatrix)
    (i : nat) (s : State) (e : CallEvent) :
  symmetric s -> eventQueue s !! i = Some e -> running e = true ->
  idle_free s -> pending_from (S i) s ->
  idle_free (snd (updateState T src dst edgeCost i s)) /\
  pending_from (S i) (snd (updateState T src dst edgeCost i s)).
Proof.
  intros Hsym He Hrun Hidle Hpend.
  destruct (updateState_events T src dst edgeCost i s e Hsym He)
    as (Hoth & e' & He' & Hrun').
  generalize dependent (snd (updateState T src dst edgeCost i s)).
  intros s3 Hoth He'. split.
  - intros j e3 He3 Hr3. destruct (Nat.eq_dec j i) as [->|Hne].
    + rewrite He' in He3. injection He3 as <-. congruence.
    + rewrite (Hoth j Hne) in He3. exact (Hidle j e3 He3 Hr3).
  - intros j e3 Hj He3. rewrite (Hoth j) in He3 by lia.
    apply (Hpend j e3); [lia|exact He3].
Qed.

Lemma succeed_idle (i : nat) (s : State) :
  idle_free s /\ pending_from i s ->
  idle_free (succeed s) /\ pending_from i (succeed s).
Proof. intros H. exact H. Qed.

Lemma route_idle (p : Policy) (T : Topology) (i : nat) (s : State) :
  wf T s -> idle_free s -> pending_from (S i) s ->
  (forall e, eventQueue s !! i = Some e ->
     running e = true /\ holds_nothing e) ->
  idle_free (route p T i s) /\ pending_from (S i) (route p T i s).
Proof.
  intros Hwf Hidle Hpend Hcur. pose proof (wf_sym _ _ Hwf) as Hsym.
  destruct (eventQueue s !! i) as [e|] eqn:He;
    [|unfold route; rewrite He; now split].
  destruct (Hcur e eq_refl) as [Hrun Hnone].
  assert (Hblock : idle_free (block i s) /\ pending_from (S i) (block i s)).
  { apply block_idle; auto. intros e0 He0. rewrite He in He0.
    injection He0 as <-. exact Hnone. }
  assert (Hany : forall ec,
            idle_free (succeed (snd (updateState T (source e) (destination e)
                                       ec i s))) /\
            pending_from (S i)
              (succeed (snd (updateState T (source e) (destination e)
                               ec i s)))).
  { intros ec.
    pose proof (updateState_idle T (source e) (destination e) ec i s e
                  Hsym He Hrun Hidle Hpend) as H.
    revert H.
    generalize (snd (updateState T (source e) (destination e) ec i s)).
    intros s3 H. exact (succeed_idle (S i) s3 H). }
  assert (Hgen : forall ec,
            idle_free
              (if negb (fst (updateState T (source e) (destination e) ec i s))
               then block i (snd (updateState T (source e) (destination e)
                                    ec i s))
               else succeed (snd (updateState T (source e) (destination e)
                                    ec i s))) /\
            pending_from (S i)
              (if negb (fst (updateState T (source e) (destination e) ec i s))
               then block i (snd (updateState T (source e) (destination e)
                                    ec i s))
               else succeed (snd (updateState T (source e) (destination e)
                                    ec i s)))).
  { intros ec. specialize (Hany ec).
    pose proof (updateState_false T (source e) (destination e) ec i s) as Hf.
    revert Hany Hf.
    generalize (updateState T (source e) (destination e) ec i s).
    intros r Hany Hf. destruct (fst r); cbn [negb]; [exact Hany|].
    rewrite (Hf eq_refl). exact Hblock. }
  unfold route. rewrite He. cbv zeta.
  destruct p; [exact (Hgen (edge_costs SHPF T s))
              |exact (Hgen (edge_costs SDPF T s))
              |exact (Hgen (edge_costs LLP T s))
              |exact (Hgen (edge_costs MFC T s))|].
  destruct (emptySHPO T (source e) (destination e) (cost s) (availCap s)
            >? emptySHPO T (source e) (destination e) (cost s) (capacity T));
    [exact Hblock|exact (Hany (cost s))].
Qed.

Lemma clearValues_idle (T : Topology) (s : State) :
  idle_free (clearValues T s) /\ pending_from 0 (clearValues T s).
Proof.
  unfold clearValues. split.
  - intros j e He _ u v _ _. cbn [eventQueue] in He.
    rewrite list_lookup_fmap in He.
    destruct (eventQueue s !! j) as [e0|]; [|discriminate].
    cbn in He. injection He as <-. reflexivity.
  - intros j e _ He. cbn [eventQueue] in He.
    rewrite list_lookup_fmap in He.
    destruct (eventQueue s !! j) as [e0|]; [|discriminate].
    cbn in He. injection He as <-. reflexivity.
Qed.

Lemma prepare_running (p : Policy) (T : Topology) (i : nat) (s : State)
    (e : CallEvent) :
  eventQueue (prepare p T i s) !! i = Some e -> running e = true.
Proof.
  rewrite prepare_events, list_lookup_alter_eq.
  destruct (eventQueue s !! i) as [e0|]; [|discriminate].
  cbn. intros H. injection H as <-. reflexivity.
Qed.

Lemma run_trace_idle (p : Policy) (T : Topology) (n a : nat) (s : State) :
  wf T s -> idle_free s -> pending_from a s ->
  Forall idle_free (run_trace p T (seq a n) s) /\
  wf T (List.last (run_trace p T (seq a n) s) s) /\
  idle_free (List.last (run_trace p T (seq a n) s) s).
Proof.
  revert a s. induction n as [|n IH]; intros a s Hwf Hidle Hpend;
    [split; [constructor|split; assumption]|].
  cbn [seq run_trace]. rewrite !last_cons.
  pose proof (timeUpdate_wf T a s Hwf) as Hwf1.
  destruct (timeUpdate_idle T a s Hwf Hidle Hpend) as [Hi1 Hp1].
  generalize dependent (timeUpdate a s). intros s1 Hwf1 Hi1 Hp1.
  pose proof (wf_same_tables T _ _ (prepare_same_tables p T a s1) Hwf1)
    as Hwf2.
  destruct (prepare_idle p T a s1 Hi1 Hp1) as (Hi2 & Hp2 & Hc2).
  pose proof (prepare_running p T a s1) as Hr2.
  generalize dependent (prepare p T a s1). intros s2 Hwf2 Hi2 Hp2 Hc2 Hr2.
  pose proof (route_wf p T a s2 Hwf2) as Hwf3.
  destruct (route_idle p T a s2 Hwf2 Hi2 Hp2
              (fun e He => conj (Hr2 e He) (Hc2 e He))) as [Hi3 Hp3].
  generalize dependent (route p T a s2). intros s3 Hwf3 Hi3 Hp3.
  destruct (IH (S a) s3 Hwf3 Hi3 Hp3) as (IHa & IHb & IHc).
  split; [|split; assumption].
  repeat (constructor; [assumption|]). exact IHa.
Qed.

Lemma main_trace_from_idle (T : Topology) (ps : list Policy) (s : State) :
  sym_cap T -> wf T s -> idle_free s -> pending_from 0 s ->
  Forall idle_free (main_trace_from T ps s).
Proof.
  intros HT. revert s. induction ps as [|p ps IH]; intros s Hwf Hidle Hpend;
    [constructor|].
  cbn [main_trace_from].
  destruct (run_trace_idle p T (length (eventQueue s)) 0 s Hwf Hidle Hpend)
    as (Ha & _ & _).
  destruct (clearValues_idle T
              (List.last (run_trace p T (seq 0 (length (eventQueue s))) s) s))
    as [Hi Hp].
  apply Forall_app. split; [exact Ha|].
  constructor; [exact Hi|].
  apply IH; [apply clearValues_wf; exact HT|exact Hi|exact Hp].
Qed.

(** X14. Whole program ([main], with [timeUpdate], [updateState],
    [clearValues] and [CallEvent::reset]): in every state [main] passes
    through, an event that is not running (not yet started, blocked, or
    ended and recovered) has no circuit recorded in its reservation table.
    With the conservation of capacity, the circuits missing from [availCap]
    are those of the calls in progress. *)
Theorem idle_calls_hold_no_circuit (links : list Link) (calls : list Call) :
  Forall idle_free (main_trace links calls).
Proof.
  unfold main_trace.
  destruct (clearValues_idle (topology_of links) (initial links calls))
    as [Hi Hp].
  fold (restart links calls) in Hi, Hp. rewrite restart_initial in Hi, Hp.
  constructor; [exact Hi|].
  apply main_trace_from_idle; [|apply initial_wf|exact Hi|exact Hp].
  apply load_topology_spec.
Qed.

(** ** Admission and the bound 999 *)

Lemma dijkstra_gives_up (cap adj : imatrix) (edgeCost : fmatrix)
    (src dst : nat) :
  (forall u v, (u < 26)%nat -> (v < 26)%nat -> 0 < adj u v ->
     fst (init_queue cap) v = 1) ->
  (forall u v, (u < 26)%nat -> (v < 26)%nat -> 0 < adj u v ->
     (0 <= edgeCost u v)%Q) ->
  foundFlag (dijkstra cap adj edgeCost src dst) <> 1 ->
  fst (init_queue cap) src = 1 ->
  forall p, path_between adj src dst p -> 999 <= path_cost edgeCost p.
Proof.
  intros Hadj Hcost.
  destruct (init_queue_spec cap) as [[Hbits Hrow Hcount] _].
  assert (Hrange : forall x, fst (init_queue cap) x = 1 -> (x < 26)%nat)
    by (intros x Hx; now destruct (Hrow x Hx)).
  pose proof (search_loop_gives_up adj edgeCost src dst (fst (init_queue cap))
                Hrange Hadj Hcost (snd (init_queue cap))
                (mkSearch (fst (init_queue cap)) (snd (init_queue cap))
                   (fun _ => -1) (aset (fun _ => 999) src 0) 0)
                (initial_OInv adj edgeCost src (fst (init_queue cap)) Hbits
                   (snd (init_queue cap)))) as H.
  cbv zeta in H. cbn [foundFlag queue] in H.
  specialize (H Hcount (fun h => h) ltac:(discriminate)).
  unfold dijkstra, init_search. cbv zeta. cbn [size].
  intros Hf Hq0 p Hp. destruct (H Hf) as (Hinv & Hd & Hnone).
  exact (given_up_costly adj edgeCost src dst (fst (init_queue cap))
           Hrange Hadj Hcost _ Hinv Hd Hnone Hq0 p Hp).
Qed.

(** X15. [updateState], lines 467-602, for edge costs that are whole
    numbers between 0 and 2^23 on the links with free capacity (the costs of
    SHPF, and the delays of SDPF up to 2^23): a call whose source has such a
    link is admitted exactly when some path of such links from the source
    to the destination has a sum of costs below 999.  Under SDPF this is a
    total propagation delay below 999.  With such costs the [float] sum
    [dist[u] + edgeCost[u][j]] is exact and within [int]. *)
Theorem admitted_iff_cost_below_999 (T : Topology) (src dst : nat)
    (edgeCost : fmatrix) (current : nat) (s : State) :
  sym_avail s ->
  whole_costs (availCap s) edgeCost ->
  (exists v, (v < 26)%nat /\ 0 < availCap s src v) ->
  fst (updateState T src dst edgeCost current s) = true <->
  exists p, path_between (availCap s) src dst p /\ path_cost edgeCost p < 999.
Proof.
  intros Hsym Hwhole (v & Hv & Hpos).
  pose proof (whole_costs_nonneg _ _ Hwhole) as Hcost.
  destruct (init_queue_spec (availCap s)) as [_ Hq].
  assert (Hadj : forall a b, (a < 26)%nat -> (b < 26)%nat ->
                   0 < availCap s a b -> fst (init_queue (availCap s)) b = 1)
    by (intros a b Ha Hb Hab; apply (Hq b a Hb Ha); now rewrite <- Hsym).
  pose proof (dijkstra_gives_up (availCap s) (availCap s) edgeCost src dst
                Hadj Hcost) as Hno.
  pose proof (dijkstra_found (availCap s) (availCap s) edgeCost src dst)
    as Hfound.
  unfold updateState. cbv zeta.
  generalize dependent (dijkstra (availCap s) (availCap s) edgeCost src dst).
  intros st Hno Hfound.
  destruct (Z.eqb_spec (foundFlag st) 1) as [Hf|Hf]; cbn [negb fst].
  - split; [intros _; exact (Hfound Hf)|reflexivity].
  - split; [discriminate|]. intros (p & Hp & Hlt). exfalso.
    assert (Hsrc : (src < 26)%nat).
    { destruct Hp as (Hh & _ & _ & Hall & _).
      destruct p as [|a p]; [discriminate|].
      cbn in Hh. injection Hh as ->. now apply Forall_cons in Hall as [? _]. }
    pose proof (Hno Hf (Hq src v Hsrc Hv Hpos) p Hp). lia.
Qed.

(** The theorem at the first call of the scenario with two calls. *)
Lemma admitted_iff_cost_below_999_witness :
  fst (updateState (topology_of one_link) A B (cost first_call) 0 first_call)
  = true <->
  exists p, path_between (availCap first_call) A B p /\
            path_cost (cost first_call) p < 999.
Proof.
  apply (admitted_iff_cost_below_999 (topology_of one_link) A B
           (cost first_call) 0 first_call).
  - exact (proj1 (wf_sym _ _ first_call_wf)).
  - exact first_call_whole.
  - exists B. split; [unfold B; lia|vm_compute; reflexivity].
Defined.

(** * Sums of cells, within the range of their types *)

(** ** Capacity conservation *)

(** X16. Capacity conservation within the range of the [float] cells: when
    no capacity of the topology file exceeds 2^24 in absolute value, then in
    every state [main] passes through (after the topology load, after each
    recovery of finished calls, after each admission decision with its
    reservations, and after each reset between two policies), for every
    link the available capacity plus the units recorded for that link in
    the reservation tables of all events equals the capacity of the link.
    Beyond 2^24 the program rounds [--availCap] and [availCap += units],
    which the model does not. *)
Theorem capacity_conservation (links : list Link) (calls : list Call) :
  Forall (fun l : Link => Z.abs (snd l) <= float_whole) links ->
  Forall (fun s => forall u v,
            availCap s u v + reserved (eventQueue s) u v
            = capacity (topology_of links) u v)
         (main_trace links calls).
Proof.
  intros _. eapply Forall_impl; [apply main_trace_inv|].
  intros s [Hw _]. exact (wf_conserved _ _ Hw).
Qed.

(** The theorem on the link of capacity 2 with three calls. *)
Lemma capacity_conservation_witness :
  Forall (fun s => forall u v,
            availCap s u v + reserved (eventQueue s) u v
            = capacity (topology_of one_link) u v)
         (main_trace one_link three_calls).
Proof.
  apply (capacity_conservation one_link three_calls).
  constructor; [|constructor]. unfold float_whole. cbn. lia.
Defined.

(** ** Expiry *)

(** X17. Before event [i] is routed, [timeUpdate i] turns every earlier
    event that is running and whose end time is at most the arrival time of
    event [i] into a finished one: its flag is cleared, its reservation
    table is emptied, and its units are back in [availCap]; every other
    event is left as it was.  The comparison is with the arrival time of
    event [i] for all of them.  The state is one with symmetric tables and
    no negative reservation, as all states of [main] are, and the available
    capacity with all the units in use stays within 2^24, where the [float]
    sums of [availCap += units] are exact. *)
Theorem timeUpdate_expires_finished_calls (i : nat) (s : State) :
  symmetric s -> Forall nonneg_res (eventQueue s) ->
  (forall u v, 0 <= availCap s u v) ->
  (forall u v, availCap s u v + reserved (eventQueue s) u v <= float_whole) ->
  (forall j, (j < i)%nat -> expiring i s j = true ->
     exists e e', eventQueue s !! j = Some e /\
       eventQueue (timeUpdate i s) !! j = Some e' /\
       running e' = false /\ static e' = static e /\
       (forall u v, (u < 26)%nat -> (v < 26)%nat -> resources e' u v = 0)) /\
  (forall j, (i <= j)%nat \/ expiring i s j = false ->
     eventQueue (timeUpdate i s) !! j = eventQueue s !! j) /\
  (forall u v, (u < 26)%nat -> (v < 26)%nat ->
     availCap (timeUpdate i s) u v = availCap s u v + returned i s i u v).
Proof.
  intros Hsym Hnn _ _.
  destruct (timeUpdate_expired i s Hsym Hnn) as [_ Hlater Hkept Hdone Hav].
  split; [exact Hdone|]. split; [|exact Hav].
  intros j [Hj|Hj]; [now apply Hlater|].
  destruct (Nat.lt_ge_cases j i); [now apply Hkept | now apply Hlater].
Qed.

Lemma process_range (p : Policy) (links : list Link) (calls : list Call)
    (i : nat) (u v : nat) :
  Forall (fun l : Link => 0 <= snd (fst l) <= float_whole /\
                          0 <= snd l <= float_whole) links ->
  0 <= availCap (process p (topology_of links) i (initial links calls)) u v /\
  availCap (process p (topology_of links) i (initial links calls)) u v
  + reserved (eventQueue (process p (topology_of links) i
                            (initial links calls))) u v
  <= float_whole.
Proof.
  intros Hl.
  pose proof (initial_float_range links calls Hl) as [Ha Hc _ _ _ _ _].
  pose proof (process_nonneg_avail p (topology_of links) i
                (initial links calls) (initial_wf links calls)
                (fun a b => proj1 (Ha a b))) as Hn.
  pose proof (process_wf p (topology_of links) i (initial links calls)
                (initial_wf links calls)) as Hwf.
  revert Hn Hwf.
  generalize (process p (topology_of links) i (initial links calls)).
  intros s Hn Hwf. split; [apply Hn|].
  rewrite (wf_conserved _ _ Hwf u v). apply Hc.
Qed.

Lemma after_first_call_range (u v : nat) :
  0 <= availCap after_first_call u v /\
  availCap after_first_call u v + reserved (eventQueue after_first_call) u v
  <= float_whole.
Proof.
  apply (process_range SHPF thin_link late_call 0 u v).
  constructor; [unfold float_whole; cbn; lia|constructor].
Qed.

(** The theorem at the arrival of the late call. *)
Lemma timeUpdate_expires_finished_calls_witness :
  (forall j, (j < 1)%nat -> expiring 1 after_first_call j = true ->
     exists e e', eventQueue after_first_call !! j = Some e /\
       eventQueue (timeUpdate 1 after_first_call) !! j = Some e' /\
       running e' = false /\ static e' = static e /\
       (forall u v, (u < 26)%nat -> (v < 26)%nat -> resources e' u v = 0)) /\
  (forall j, (1 <= j)%nat \/ expiring 1 after_first_call j = false ->
     eventQueue (timeUpdate 1 after_first_call) !! j
     = eventQueue after_first_call !! j) /\
  (forall u v, (u < 26)%nat -> (v < 26)%nat ->
     availCap (timeUpdate 1 after_first_call) u v
     = availCap after_first_call u v + returned 1 after_first_call 1 u v).
Proof.
  apply (timeUpdate_expires_finished_calls 1 after_first_call).
  - exact (wf_sym _ _ after_first_call_wf).
  - exact (wf_nonneg _ _ after_first_call_wf).
  - intros u v. exact (proj1 (after_first_call_range u v)).
  - intros u v. exact (proj2 (after_first_call_range u v)).
Defined.
